(** * Gondola on a spline: an embedding of Spline.cpp and Gondola.cpp

    The program stores every scalar in a C++ [float].  The embedding keeps
    that choice: a scalar is an IEEE-754 binary32 value, given by the
    Standard Library's executable specification [SpecFloat] at precision 24
    and maximal exponent 128; every operation is rounded once, to nearest
    with ties to even, and no two operations are fused.  The vector type
    and the vector functions the program calls ([length], [normalize] and
    the operators) are GLM's, which framework.h brings into scope; [powf]
    is the C library's and is kept abstract.

    The rendering members hold no state that [evaluate], [start] or
    [animate] read.  Of them [update] is embedded, as the two vertex
    lists it computes; [draw] and the GPU handles are left out.  Of
    MyApp.cpp the clock handler [onTimeElapsed] is embedded, the caller
    of [animate]; the mouse and keyboard handlers appear as the calls
    [AddPoint] and [Start] of a call sequence. *)

From Stdlib Require Import ZArith List Bool Lia.
From Stdlib Require Import Floats.SpecFloat.
Import ListNotations.

(** ** binary32 scalars *)

Definition float : Type := spec_float.

Module F32.

Definition prec : Z := 24.
Definition emax : Z := 128.

Definition add : float -> float -> float := SFadd prec emax.
Definition sub : float -> float -> float := SFsub prec emax.
Definition mul : float -> float -> float := SFmul prec emax.
Definition div : float -> float -> float := SFdiv prec emax.
Definition sqrt : float -> float := SFsqrt prec emax.
Definition neg : float -> float := SFopp.

(** C++ [a < b], [a <= b], [a > b], [a == b]: false as soon as one side
    is a NaN. *)
Definition ltb : float -> float -> bool := SFltb.
Definition leb : float -> float -> bool := SFleb.
Definition gtb (a b : float) : bool := SFltb b a.
Definition eqb : float -> float -> bool := SFeqb.

(** Conversion of an integer (the [int] to [float] conversion, and the
    value of an integer-valued literal). *)
Definition of_Z (n : Z) : float := binary_normalize prec emax n 0 false.

(** The value of a decimal literal [n/d]: the binary32 nearest to the
    quotient, which is what one correctly rounded division yields when
    numerator and denominator are themselves exact. *)
Definition lit (n d : Z) : float := div (of_Z n) (of_Z d).

Definition zero : float := S754_zero false.
Definition nan : float := S754_nan.

Definition is_nan (a : float) : bool :=
  match a with S754_nan => true | _ => false end.

Definition is_finite (a : float) : bool :=
  match a with S754_zero _ | S754_finite _ _ _ => true | _ => false end.

Definition valid (a : float) : bool := valid_binary prec emax a.

End F32.

Declare Scope f32_scope.
Delimit Scope f32_scope with f32.
Bind Scope f32_scope with float.
Infix "+" := F32.add : f32_scope.
Infix "-" := F32.sub : f32_scope.
Infix "*" := F32.mul : f32_scope.
Infix "/" := F32.div : f32_scope.
Notation "- a" := (F32.neg a) : f32_scope.
Infix "<?" := F32.ltb : f32_scope.
Infix "<=?" := F32.leb : f32_scope.
Infix ">?" := F32.gtb : f32_scope.
Infix "==?" := F32.eqb (at level 70) : f32_scope.

(** The literals of the two translation units. *)
Definition f0 : float := F32.zero.
Definition f1 : float := F32.of_Z 1.
Definition f2 : float := F32.of_Z 2.
Definition f3 : float := F32.of_Z 3.
Definition f40 : float := F32.of_Z 40.
Definition f0_5 : float := F32.lit 1 2.
Definition f0_01 : float := F32.lit 1 100.
Definition f0_001 : float := F32.lit 1 1000.

Arguments F32.add : simpl never.
Arguments F32.sub : simpl never.
Arguments F32.mul : simpl never.
Arguments F32.div : simpl never.
Arguments F32.sqrt : simpl never.
Arguments F32.ltb : simpl never.
Arguments F32.leb : simpl never.
Arguments F32.gtb : simpl never.
Arguments F32.eqb : simpl never.
Arguments F32.of_Z : simpl never.
Arguments F32.lit : simpl never.
Arguments f1 : simpl never.
Arguments f2 : simpl never.
Arguments f3 : simpl never.
Arguments f40 : simpl never.
Arguments f0_5 : simpl never.
Arguments f0_01 : simpl never.
Arguments f0_001 : simpl never.

(** ** The C library *)

(** [powf] (and the [float] overload of [pow]) is not part of the
    repository and C leaves its rounding to the implementation, so the
    development is parametric in it. *)
Class Libm : Type := { powf : float -> float -> float }.

(** ** GLM's vec2

    Componentwise operators, [dot] as the sum of the two products,
    [length v = sqrt (dot v v)] and
    [normalize v = v * inversesqrt (dot v v)] with
    [inversesqrt a = 1 / sqrt a]. *)

Record vec2 : Type := Vec2 { x : float; y : float }.

Declare Scope vec2_scope.
Delimit Scope vec2_scope with v2.
Bind Scope vec2_scope with vec2.

Module V2.
Local Open Scope f32_scope.

Definition add (a b : vec2) : vec2 := Vec2 (x a + x b) (y a + y b).
Definition sub (a b : vec2) : vec2 := Vec2 (x a - x b) (y a - y b).
(** [v * s], [s * v] and [v / s] act on each component. *)
Definition scale (a : vec2) (s : float) : vec2 := Vec2 (x a * s) (y a * s).
Definition lscale (s : float) (a : vec2) : vec2 := Vec2 (s * x a) (s * y a).
Definition div (a : vec2) (s : float) : vec2 := Vec2 (x a / s) (y a / s).

Definition dot (a b : vec2) : float := x a * x b + y a * y b.
Definition length (a : vec2) : float := F32.sqrt (dot a a).
Definition inversesqrt (a : float) : float := f1 / F32.sqrt a.
Definition normalize (a : vec2) : vec2 := scale a (inversesqrt (dot a a)).
End V2.

Infix "+" := V2.add : vec2_scope.
Infix "-" := V2.sub : vec2_scope.
Notation "a *: s" := (V2.scale a s) (at level 40, left associativity) : vec2_scope.
Notation "s :* a" := (V2.lscale s a) (at level 40, left associativity) : vec2_scope.
Notation "a /: s" := (V2.div a s) (at level 40, left associativity) : vec2_scope.

Definition origin : vec2 := Vec2 f0 f0.

(** ** Spline.cpp *)

Record Spline : Type := MkSpline { cps_ : list vec2; ts_ : list float }.

Definition emptySpline : Spline := MkSpline [] [].

(** [std::vector::back]; the callers below reach it on a non-empty vector
    only, except [animate], which is modelled with an explicit outcome. *)
Definition back {A : Type} (d : A) (l : list A) : A := last l d.

(** [v[i]] for an index the caller keeps in range. *)
Definition at_ {A : Type} (d : A) (l : list A) (i : nat) : A := nth i l d.

Section WithLibm.
Context {libm : Libm}.

Local Open Scope vec2_scope.

Definition Hermite (p0 v0 : vec2) (t0 : float) (p1 v1 : vec2) (t1 t : float)
  : vec2 :=
  let s := ((t - t0) / (t1 - t0))%f32 in
  let a0 := p0 in
  let a1 := v0 in
  let a2 := (p1 - p0) *: f3 /: (t1 - t0)%f32 /: (t1 - t0)%f32
            - (v1 + f2 :* v0) /: (t1 - t0)%f32 in
  let a3 := (p0 - p1) *: f2 /: powf (t1 - t0)%f32 f3
            + (v1 + v0) /: powf (t1 - t0)%f32 f2 in
  ((a3 *: s + a2) *: s + a1) *: s + a0.

Definition addControlPoint (cp : vec2) (sp : Spline) : Spline :=
  let t := match cps_ sp with
           | [] => f0
           | _ => (back f0 (ts_ sp) + f1)%f32
           end in
  MkSpline (cps_ sp ++ [cp]) (ts_ sp ++ [t]).

(** The loop of [evaluate], entered at index [i] with [n] iterations
    left. *)
Fixpoint evaluate_scan (sp : Spline) (t : float) (i n : nat) : vec2 :=
  match n with
  | O => back origin (cps_ sp)
  | S n' =>
      let cp := at_ origin (cps_ sp) in
      let tk := at_ f0 (ts_ sp) in
      if ((tk i <=? t) && (t <=? tk (i + 1)%nat))%f32 then
        let v0 := if (0 <? i)%nat
                  then (cp (i + 1)%nat - cp (i - 1)%nat)
                         /: (tk (i + 1)%nat - tk (i - 1)%nat)%f32
                  else origin in
        let v1 := if (i <? length (cps_ sp) - 2)%nat
                  then (cp (i + 2)%nat - cp i)
                         /: (tk (i + 2)%nat - tk i)%f32
                  else origin in
        Hermite (cp i) v0 (tk i) (cp (i + 1)%nat) v1 (tk (i + 1)%nat) t
      else evaluate_scan sp t (S i) n'
  end.

Definition evaluate (sp : Spline) (t : float) : vec2 :=
  if (length (cps_ sp) <? 2)%nat then origin
  else evaluate_scan sp t 0 (length (cps_ sp) - 1).

Definition getKnots (sp : Spline) : list float := ts_ sp.

(** *** The pieces of [evaluate]

    The test of the loop, the two tangents and the call of [Hermite] for
    the segment of index [i], and the coefficients [a2] and [a3] of
    [Hermite]; [evaluate_scan_step] and [Hermite_eq] below show that the
    code is built from them. *)

Definition in_segment (sp : Spline) (t : float) (i : nat) : bool :=
  ((at_ f0 (ts_ sp) i <=? t) && (t <=? at_ f0 (ts_ sp) (i + 1)%nat))%f32.

Definition segment_v0 (sp : Spline) (i : nat) : vec2 :=
  if (0 <? i)%nat
  then (at_ origin (cps_ sp) (i + 1)%nat - at_ origin (cps_ sp) (i - 1)%nat)
         /: (at_ f0 (ts_ sp) (i + 1)%nat - at_ f0 (ts_ sp) (i - 1)%nat)%f32
  else origin.

Definition segment_v1 (sp : Spline) (i : nat) : vec2 :=
  if (i <? length (cps_ sp) - 2)%nat
  then (at_ origin (cps_ sp) (i + 2)%nat - at_ origin (cps_ sp) i)
         /: (at_ f0 (ts_ sp) (i + 2)%nat - at_ f0 (ts_ sp) i)%f32
  else origin.

Definition segment (sp : Spline) (i : nat) (t : float) : vec2 :=
  Hermite (at_ origin (cps_ sp) i) (segment_v0 sp i) (at_ f0 (ts_ sp) i)
          (at_ origin (cps_ sp) (i + 1)%nat) (segment_v1 sp i)
          (at_ f0 (ts_ sp) (i + 1)%nat) t.

Definition Hermite_a2 (p0 v0 : vec2) (t0 : float) (p1 v1 : vec2) (t1 : float)
  : vec2 :=
  (p1 - p0) *: f3 /: (t1 - t0)%f32 /: (t1 - t0)%f32
  - (v1 + f2 :* v0) /: (t1 - t0)%f32.

Definition Hermite_a3 (p0 v0 : vec2) (t0 : float) (p1 v1 : vec2) (t1 : float)
  : vec2 :=
  (p0 - p1) *: f2 /: powf (t1 - t0)%f32 f3
  + (v1 + v0) /: powf (t1 - t0)%f32 f2.

(** The value [Hermite] returns, from its coefficients. *)
Definition horner (a3 a2 a1 a0 : vec2) (s : float) : vec2 :=
  ((a3 *: s + a2) *: s + a1) *: s + a0.

Definition segment_a2 (sp : Spline) (i : nat) : vec2 :=
  Hermite_a2 (at_ origin (cps_ sp) i) (segment_v0 sp i) (at_ f0 (ts_ sp) i)
             (at_ origin (cps_ sp) (i + 1)%nat) (segment_v1 sp i)
             (at_ f0 (ts_ sp) (i + 1)%nat).

Definition segment_a3 (sp : Spline) (i : nat) : vec2 :=
  Hermite_a3 (at_ origin (cps_ sp) i) (segment_v0 sp i) (at_ f0 (ts_ sp) i)
             (at_ origin (cps_ sp) (i + 1)%nat) (segment_v1 sp i)
             (at_ f0 (ts_ sp) (i + 1)%nat).

End WithLibm.

(** ** Gondola.cpp *)

Inductive GondolaState : Type := Waiting | Started | Fallen.

Definition GondolaState_eqb (a b : GondolaState) : bool :=
  match a, b with
  | Waiting, Waiting | Started, Started | Fallen, Fallen => true
  | _, _ => false
  end.

(** The data members of [Gondola] that are not rendering handles.  The
    spline is held by pointer and may grow between two calls, so every
    operation takes the spline's current value as an argument. *)
Record Gondola : Type := MkGondola {
  progressAlongSpline_ : float;
  velocity_ : float;
  energy_ : float;
  position_ : vec2;
  rotationAngle_ : float;
  state_ : GondolaState
}.

Definition gondolaRadius_ : float := f1.

(** The state the constructor leaves. *)
Definition newGondola : Gondola :=
  MkGondola f0 f0 f0 origin f0 Waiting.

(** What a call does: it returns with a new state, or it runs into
    [back()] of an empty vector, which C++ leaves undefined. *)
Inductive outcome : Type :=
| Done (g : Gondola)
| Undefined.

Section GondolaWithLibm.
Context {libm : Libm}.

Local Open Scope vec2_scope.

Definition h : float := f0_001.

Definition derivative (sp : Spline) (t : float) : vec2 :=
  (evaluate sp (t + h)%f32 - evaluate sp (t - h)%f32)
    /: (f2 * h)%f32.

Definition secondDerivative (sp : Spline) (t : float) : vec2 :=
  (evaluate sp (t + h)%f32 - f2 :* evaluate sp t
     + evaluate sp (t - h)%f32)
    /: (h * h)%f32.

Definition start (sp : Spline) (g : Gondola) : Gondola :=
  if GondolaState_eqb (state_ g) Waiting then
    let progress := f0_01 in
    let r := evaluate sp progress in
    let T := V2.normalize (derivative sp progress) in
    let N := Vec2 (- y T)%f32 (x T) in
    MkGondola progress f0 (f40 * y r + f0_5)%f32
              (r + N *: gondolaRadius_) f0 Started
  else g.

Definition GRAVITY : float := f40.
Definition EPSILON : float := f0_001.

Definition animate (sp : Spline) (dt : float) (g : Gondola) : outcome :=
  if negb (GondolaState_eqb (state_ g) Started) then Done g else
  let position := evaluate sp (progressAlongSpline_ g) in
  let tangent := derivative sp (progressAlongSpline_ g) in
  let secondTangent := secondDerivative sp (progressAlongSpline_ g) in
  let tangentLength := V2.length tangent in
  if (tangentLength <? EPSILON)%f32 then Done g else
  let normalizedTangent := tangent /: tangentLength in
  let normal := Vec2 (- y normalizedTangent)%f32 (x normalizedTangent) in
  let currentHeight := y (position + normal *: gondolaRadius_) in
  let initialHeight := y (evaluate sp f0 + normal *: gondolaRadius_) in
  let velocity :=
    F32.sqrt ((f2 * GRAVITY * (initialHeight - currentHeight)) / f2)%f32 in
  let curvature :=
    ((x tangent * y secondTangent - y tangent * x secondTangent)
       / powf tangentLength f3)%f32 in
  let totalForce :=
    (curvature * velocity * velocity + GRAVITY * y normal)%f32 in
  if (totalForce <? f0)%f32 then
    Done (MkGondola (progressAlongSpline_ g) velocity (energy_ g)
                    (position_ g) (rotationAngle_ g) Fallen)
  else
    let progress :=
      (progressAlongSpline_ g + (velocity * dt) / tangentLength)%f32 in
    let position' := position + normal *: gondolaRadius_ in
    let rotation :=
      (rotationAngle_ g - (velocity / gondolaRadius_) * dt)%f32 in
    match getKnots sp with
    | [] => Undefined
    | _ :: _ =>
        if (progress >? back f0 (getKnots sp))%f32
        then Done (MkGondola progress velocity (energy_ g) position'
                             rotation Fallen)
        else Done (MkGondola progress velocity (energy_ g) position'
                             rotation Started)
    end.

(** *** The quantities of one [animate] call

    The local variables of [animate], as functions of the spline and the
    state the call starts from; [animate_eq] below shows that [animate]
    is built from them. *)

Definition stepPosition (sp : Spline) (g : Gondola) : vec2 :=
  evaluate sp (progressAlongSpline_ g).

Definition stepTangent (sp : Spline) (g : Gondola) : vec2 :=
  derivative sp (progressAlongSpline_ g).

Definition stepSecondTangent (sp : Spline) (g : Gondola) : vec2 :=
  secondDerivative sp (progressAlongSpline_ g).

Definition stepTangentLength (sp : Spline) (g : Gondola) : float :=
  V2.length (stepTangent sp g).

Definition stepNormal (sp : Spline) (g : Gondola) : vec2 :=
  let normalizedTangent := stepTangent sp g /: stepTangentLength sp g in
  Vec2 (- y normalizedTangent)%f32 (x normalizedTangent).

Definition stepCurrentHeight (sp : Spline) (g : Gondola) : float :=
  y (stepPosition sp g + stepNormal sp g *: gondolaRadius_).

Definition stepInitialHeight (sp : Spline) (g : Gondola) : float :=
  y (evaluate sp f0 + stepNormal sp g *: gondolaRadius_).

(** The argument of the square root. *)
Definition stepRadicand (sp : Spline) (g : Gondola) : float :=
  ((f2 * GRAVITY * (stepInitialHeight sp g - stepCurrentHeight sp g)) / f2)%f32.

Definition stepVelocity (sp : Spline) (g : Gondola) : float :=
  F32.sqrt (stepRadicand sp g).

Definition stepCurvature (sp : Spline) (g : Gondola) : float :=
  ((x (stepTangent sp g) * y (stepSecondTangent sp g)
    - y (stepTangent sp g) * x (stepSecondTangent sp g))
   / powf (stepTangentLength sp g) f3)%f32.

Definition stepTotalForce (sp : Spline) (g : Gondola) : float :=
  (stepCurvature sp g * stepVelocity sp g * stepVelocity sp g
   + GRAVITY * y (stepNormal sp g))%f32.

(** The increment of the arc parameter. *)
Definition stepAdvance (sp : Spline) (dt : float) (g : Gondola) : float :=
  ((stepVelocity sp g * dt) / stepTangentLength sp g)%f32.

Definition stepProgress (sp : Spline) (dt : float) (g : Gondola) : float :=
  (progressAlongSpline_ g + stepAdvance sp dt g)%f32.

Definition stepWorldPosition (sp : Spline) (g : Gondola) : vec2 :=
  stepPosition sp g + stepNormal sp g *: gondolaRadius_.

Definition stepRotation (sp : Spline) (dt : float) (g : Gondola) : float :=
  (rotationAngle_ g - (stepVelocity sp g / gondolaRadius_) * dt)%f32.

(** *** Call sequences

    What the application does to the pair of objects: a click adds a
    control point, the space bar calls [start], the clock calls
    [animate]. *)

Inductive call : Type :=
| AddPoint (p : vec2)
| Start
| Animate (dt : float).

Definition world : Type := (Spline * Gondola)%type.

Definition exec (c : call) (w : world) : option world :=
  match c with
  | AddPoint p => Some (addControlPoint p (fst w), snd w)
  | Start => Some (fst w, start (fst w) (snd w))
  | Animate dt =>
      match animate (fst w) dt (snd w) with
      | Done g' => Some (fst w, g')
      | Undefined => None
      end
  end.

Fixpoint run (cs : list call) (w : world) : option world :=
  match cs with
  | [] => Some w
  | c :: cs' =>
      match exec c w with
      | Some w' => run cs' w'
      | None => None
      end
  end.

End GondolaWithLibm.

(** ** Predicates of the statements *)

(** Both vectors of a spline have one entry per control point. *)
Definition wf_spline (sp : Spline) : Prop :=
  length (ts_ sp) = length (cps_ sp).

(** The spline a sequence of clicks leaves. *)
Definition build (ps : list vec2) : Spline :=
  fold_left (fun sp p => addControlPoint p sp) ps emptySpline.

(** [n] clicks at one place, for counts too large to write as a list. *)
Definition click_n (n : N) (p : vec2) : Spline :=
  N.iter n (addControlPoint p) emptySpline.

(** The largest integer up to which binary32 holds every integer. *)
Definition knot_max : Z := 16777216.

(** The parameter of the control point of index [i]. *)
Definition knot (i : nat) : float := F32.of_Z (Z.min (Z.of_nat i) knot_max).

Definition knots (n : nat) : list float := map knot (seq 0 n).

(** Equal as C++ values: the same datum, or numerically equal (which
    identifies the two zeros). *)
Definition same_float (a b : float) : Prop := a = b \/ F32.eqb a b = true.

Definition same_vec2 (a b : vec2) : Prop :=
  same_float (x a) (x b) /\ same_float (y a) (y b).

(** A speed that is a number is not negative. *)
Definition nonneg_or_nan (a : float) : Prop :=
  F32.is_nan a = true \/ F32.leb f0 a = true.

(** An arc parameter as the steps leave it: NaN, [+inf], or a positive
    binary32 value. *)
Definition arc_ok (p : float) : Prop :=
  p = S754_nan \/ p = S754_infinity false \/
  exists m e, p = S754_finite false m e /\ F32.valid p = true.

(** A gondola that waits, or whose arc parameter is as above. *)
Definition gondola_ok (g : Gondola) : Prop :=
  state_ g = Waiting \/ arc_ok (progressAlongSpline_ g).

(** Two gondolas that agree on everything but the stored energy. *)
Definition agree_but_energy (g1 g2 : Gondola) : Prop :=
  progressAlongSpline_ g1 = progressAlongSpline_ g2 /\
  velocity_ g1 = velocity_ g2 /\
  position_ g1 = position_ g2 /\
  rotationAngle_ g1 = rotationAngle_ g2 /\
  state_ g1 = state_ g2.

Definition agree_worlds (w1 w2 : option world) : Prop :=
  match w1, w2 with
  | Some (sp1, g1), Some (sp2, g2) => sp1 = sp2 /\ agree_but_energy g1 g2
  | None, None => True
  | _, _ => False
  end.

Definition with_energy (e : float) (g : Gondola) : Gondola :=
  MkGondola (progressAlongSpline_ g) (velocity_ g) e (position_ g)
            (rotationAngle_ g) (state_ g).

(** The clock hands [animate] a duration that is not negative. *)
Definition dt_ok (c : call) : Prop :=
  match c with
  | Animate dt => nonneg_or_nan dt
  | _ => True
  end.

Definition finite_vec2 (v : vec2) : bool :=
  F32.is_finite (x v) && F32.is_finite (y v).

Definition valid_vec2 (v : vec2) : bool :=
  F32.valid (x v) && F32.valid (y v).

(** ** A reference [powf] *)

(** The program raises to the powers 2 and 3 only.  The reference instance
    returns the exact power rounded once; other exponents are outside what
    the program asks of it. *)
Definition powf_exact (a b : float) : float :=
  if F32.eqb b f2 then
    match a with
    | S754_nan => S754_nan
    | S754_zero _ => S754_zero false
    | S754_infinity _ => S754_infinity false
    | S754_finite _ m e =>
        binary_round F32.prec F32.emax false (m * m) (2 * e)
    end
  else if F32.eqb b f3 then
    match a with
    | S754_finite s m e =>
        binary_round F32.prec F32.emax s (m * m * m) (3 * e)
    | _ => a
    end
  else S754_nan.

#[local] Instance libm_exact : Libm := {| powf := powf_exact |}.

Definition vz (a b : Z) : vec2 := Vec2 (F32.of_Z a) (F32.of_Z b).

(** ** Sample tracks

    Splines and gondola states on which the statements below are
    evaluated. *)

(** Two points, rising. *)
Definition ps_two : list vec2 := [vz 0 0; vz 1 1].
Definition sp_two : Spline := build ps_two.

(** A single point. *)
Definition sp_one : Spline := build [vz 0 0].

(** Three points: down, then up. *)
Definition ps_valley : list vec2 := [vz 0 10; vz 5 0; vz 10 10].
Definition sp_valley : Spline := build ps_valley.

(** A second point at (0.1, 0). *)
Definition sp_tenth : Spline := build [origin; Vec2 (F32.lit 1 10) f0].

(** A descent, a climb and a level track. *)
Definition sp_descent : Spline := build [vz 0 10; vz 10 0].
Definition sp_ascent : Spline := build [vz 0 0; vz 10 10].
Definition sp_level : Spline := build [vz 0 0; vz 10 0].

(** The state [start] leaves on a track, and the state after one more
    step of 0.01 s. *)
Definition started (sp : Spline) : Gondola := start sp newGondola.

Definition stepped (sp : Spline) : Gondola :=
  match animate sp f0_01 (started sp) with
  | Done g => g
  | Undefined => started sp
  end.

(** A vertical drop, and a descent that leads back to the left. *)
Definition sp_drop : Spline := build [vz 0 10; vz 0 0].
Definition sp_back : Spline := build [vz 0 10; vz (-10) 0].

(** The ride down the vertical drop: two clicks, the space bar, and 99
    frames of 0.01 s; and the gondola it leaves. *)
Definition drop_ride : list call :=
  AddPoint (vz 0 10) :: AddPoint (vz 0 0) :: Start
  :: repeat (Animate f0_01) 99.

Definition drop_end : Gondola :=
  match run drop_ride (emptySpline, newGondola) with
  | Some (_, g) => g
  | None => newGondola
  end.

(** A gondola that has left the descent. *)
Definition fallen : Gondola :=
  MkGondola f1 f2 f3 (vz 1 2) f0_5 Fallen.

(** The canonical form of a positive integer below 2^24: the mantissa is
    the integer shifted up to 24 bits. *)
Inductive int_form (p : positive) : positive -> Z -> Prop :=
| int_form_full :
    Z.pos (digits2_pos p) = 24%Z -> int_form p p 0
| int_form_short (k : positive) :
    (Z.pos (digits2_pos p) + Z.pos k = 24)%Z ->
    int_form p (Pos.iter xO p k) (- Z.pos k).

(** ** Spline.cpp: [update]

    [update] refills the two vertex lists the renderer draws: the control
    points, and 101 points of the curve at evenly spaced parameters.
    A [Geometry] is modelled by its vertex list; the upload to the GPU
    changes none.  [addControlPoint] ends with a call of [update], which
    reads [cps_] and [ts_] only: the vertices after a click are [update]
    of the spline the click leaves. *)

Record Vertices : Type := MkVertices {
  controlGeometry_ : list vec2;
  curveGeometry_ : list vec2
}.

(** [std::vector::front], reached on a non-empty vector only. *)
Definition front {A : Type} (d : A) (l : list A) : A := hd d l.

Section UpdateWithLibm.
Context {libm : Libm}.

Definition samples : Z := 100.

(** The local [t] of the loop, for the loop index [i]. *)
Definition sampleParameter (sp : Spline) (i : Z) : float :=
  let tMin := front f0 (ts_ sp) in
  let tMax := back f0 (ts_ sp) in
  (tMin + (tMax - tMin) * F32.of_Z i / F32.of_Z samples)%f32.

Definition update (sp : Spline) : Vertices :=
  MkVertices (cps_ sp)
    (if (length (cps_ sp) <? 2)%nat then []
     else map (fun i => evaluate sp (sampleParameter sp (Z.of_nat i)))
              (seq 0 (S (Z.to_nat samples)))).

End UpdateWithLibm.

(** ** Spline.cpp: what [evaluate] reads

    [evaluate] once more, returning with the curve point the indices at
    which it read [ts_] and [cps_], in the order of the reads: the two
    knots of the test (the second only when the first comparison holds),
    the elements of the two tangents, the arguments of [Hermite], and the
    last element for [back()]. *)

Section TracedWithLibm.
Context {libm : Libm}.

Fixpoint evaluate_scan_traced (sp : Spline) (t : float) (i n : nat)
  : vec2 * list nat :=
  match n with
  | O => (back origin (cps_ sp), [(length (cps_ sp) - 1)%nat])
  | S n' =>
      let tk := at_ f0 (ts_ sp) in
      if (tk i <=? t)%f32 then
        if (t <=? tk (i + 1)%nat)%f32 then
          (segment sp i t,
           [i; (i + 1)%nat]
           ++ (if (0 <? i)%nat then [(i + 1)%nat; (i - 1)%nat] else [])
           ++ (if (i <? length (cps_ sp) - 2)%nat
               then [(i + 2)%nat; i] else [])
           ++ [i; (i + 1)%nat])
        else
          let (v, r) := evaluate_scan_traced sp t (S i) n' in
          (v, i :: (i + 1)%nat :: r)
      else
        let (v, r) := evaluate_scan_traced sp t (S i) n' in
        (v, i :: r)
  end.

Definition evaluate_traced (sp : Spline) (t : float) : vec2 * list nat :=
  if (length (cps_ sp) <? 2)%nat then (origin, [])
  else evaluate_scan_traced sp t 0 (length (cps_ sp) - 1).

End TracedWithLibm.

(** ** MyApp.cpp: the clock

    [onTimeElapsed] cuts the interval between two frames into steps of
    0.01 s and hands each to [animate].  Its loop runs on a [float]
    counter and need not end, so the embedding takes the number of loop
    tests it may make: [None] says that this number did not suffice.
    [fmin] is the C library's: the smaller argument, a NaN argument being
    passed over. *)

Module MyApp.

Definition fmin (a b : float) : float :=
  if F32.is_nan a then b
  else if F32.is_nan b then a
  else if F32.ltb b a then b else a.

Definition dt : float := f0_01.

Section WithLibm.
Context {libm : Libm}.

Fixpoint onTimeElapsed_loop (fuel : nat) (sp : Spline) (t endTime : float)
  (g : Gondola) : option outcome :=
  match fuel with
  | O => None
  | S fuel' =>
      if F32.ltb t endTime then
        let Dt := fmin dt (endTime - t)%f32 in
        match animate sp Dt g with
        | Done g' => onTimeElapsed_loop fuel' sp (t + dt)%f32 endTime g'
        | Undefined => Some Undefined
        end
      else Some (Done g)
  end.

Definition onTimeElapsed (fuel : nat) (sp : Spline) (startTime endTime : float)
  (g : Gondola) : option outcome :=
  onTimeElapsed_loop fuel sp startTime endTime g.

End WithLibm.

(** The values of [Dt] in the first [fuel] rounds of the loop; they
    depend on the two times only. *)
Fixpoint durations (fuel : nat) (t endTime : float) : list float :=
  match fuel with
  | O => []
  | S fuel' =>
      if F32.ltb t endTime
      then fmin dt (endTime - t)%f32 :: durations fuel' (t + dt)%f32 endTime
      else []
  end.

End MyApp.

(** ** Predicates of the further statements *)

(** The points a call sequence adds, in order. *)
Fixpoint clicks (cs : list call) : list vec2 :=
  match cs with
  | [] => []
  | AddPoint p :: cs' => p :: clicks cs'
  | _ :: cs' => clicks cs'
  end.

(** Two gondolas with the same arc parameter, heading and phase. *)
Definition agree_on_motion (g1 g2 : Gondola) : Prop :=
  progressAlongSpline_ g1 = progressAlongSpline_ g2 /\
  rotationAngle_ g1 = rotationAngle_ g2 /\
  state_ g1 = state_ g2.

Definition agree_motion_worlds (w1 w2 : option world) : Prop :=
  match w1, w2 with
  | Some (sp1, g1), Some (sp2, g2) => sp1 = sp2 /\ agree_on_motion g1 g2
  | None, None => True
  | _, _ => False
  end.

Definition nan_vec2 : vec2 := Vec2 S754_nan S754_nan.

(** The arc parameter of a started gondola on the spline of the points
    [ps]: as [start] left it while there are fewer than two points, not
    above the last knot from then on. *)
Definition track_inv (ps : list vec2) (g : Gondola) : Prop :=
  state_ g = Started ->
  ((length ps < 2)%nat /\ progressAlongSpline_ g = f0_01) \/
  ((2 <= length ps)%nat /\
   F32.gtb (progressAlongSpline_ g) (knot (length ps - 1)) = false).

(** A gondola that waits, or whose arc parameter is as the steps leave
    it and, when a number, not below the 0.01 of [start]. *)
Definition arc_from_start (g : Gondola) : Prop :=
  state_ g = Waiting \/
  (arc_ok (progressAlongSpline_ g) /\
   (F32.is_nan (progressAlongSpline_ g) = true \/
    F32.leb f0_01 (progressAlongSpline_ g) = true)).

(** A heading as the steps leave it: NaN, a zero, [-inf], or a negative
    binary32 value. *)
Definition heading_ok (r : float) : Prop :=
  r = S754_nan \/ (exists s, r = S754_zero s) \/ r = S754_infinity true \/
  exists m e, r = S754_finite true m e /\ F32.valid r = true.

(** The clock hands [animate] a binary32 value that is not negative. *)
Definition step_ok (c : call) : Prop :=
  match c with
  | Animate dt => nonneg_or_nan dt /\ F32.valid dt = true
  | _ => True
  end.

(** A time of the frame clock: zero, a positive binary32 value, or
    [+inf]. *)
Definition time_ok (t : float) : Prop :=
  (exists s, t = S754_zero s) \/ t = S754_infinity false \/
  exists m e, t = S754_finite false m e /\ F32.valid t = true.

(** A duration that is positive, at most 0.01 s, and a binary32 value. *)
Definition duration_ok (d : float) : Prop :=
  F32.ltb f0 d = true /\ F32.leb d MyApp.dt = true /\ F32.valid d = true.

(** Two clicks, the space bar and one step: the ride down the descent. *)
Definition ride : list call :=
  [AddPoint (vz 0 10); AddPoint (vz 10 0); Start; Animate f0_01].

(** A gondola with another stored speed, energy and world position. *)
Definition repainted (g : Gondola) : Gondola :=
  MkGondola (progressAlongSpline_ g) f3 f3 (vz 1 2) (rotationAngle_ g)
            (state_ g).

(** Two clicks and the space bar. *)
Definition launch : list call :=
  [AddPoint (vz 0 10); AddPoint (vz 10 0); Start].

(** The bounds of the statement on the argument of the square root:
    2^-97 and 2^127. *)
Definition two_pow_m97 : float := S754_finite false 8388608 (-120).
Definition two_pow_127 : float := S754_finite false 8388608 104.

(** Twice a binary32 value, as far as the format reaches. *)
Definition twice (a : float) : float :=
  match a with
  | S754_finite s m e =>
      if (e + 1 <=? F32.emax - F32.prec)%Z then S754_finite s m (e + 1)
      else S754_infinity s
  | _ => a
  end.

(** ** Values on a binary grid *)

(** The binary32 value of [z * 2^e]; [F32.of_Z z] is [dyadic z 0]. *)
Definition dyadic (z e : Z) : float :=
  binary_normalize F32.prec F32.emax z e false.

(** A point whose two coordinates are multiples [a * 2^g] of the same
    power of two, with [|a| <= B]. *)
Definition grid (B g : Z) (p : vec2) : Prop :=
  exists a b : Z,
    p = Vec2 (dyadic a g) (dyadic b g) /\
    (Z.abs a <= B)%Z /\ (Z.abs b <= B)%Z.

(** Control points of 20 bits: [|a| <= 2^19]. *)
Definition on_grid (g : Z) (p : vec2) : Prop := grid 524288 g p.

(** * Properties *)

Section ControlFlow.
Context {libm : Libm}.

(** [animate] in terms of the quantities of a step. *)
Lemma animate_eq (sp : Spline) (dt : float) (g : Gondola) :
  animate sp dt g =
  if negb (GondolaState_eqb (state_ g) Started) then Done g else
  if F32.ltb (stepTangentLength sp g) EPSILON then Done g else
  if F32.ltb (stepTotalForce sp g) f0 then
    Done (MkGondola (progressAlongSpline_ g) (stepVelocity sp g) (energy_ g)
                    (position_ g) (rotationAngle_ g) Fallen)
  else
    match getKnots sp with
    | [] => Undefined
    | _ :: _ =>
        if F32.gtb (stepProgress sp dt g) (back f0 (getKnots sp))
        then Done (MkGondola (stepProgress sp dt g) (stepVelocity sp g)
                             (energy_ g) (stepWorldPosition sp g)
                             (stepRotation sp dt g) Fallen)
        else Done (MkGondola (stepProgress sp dt g) (stepVelocity sp g)
                             (energy_ g) (stepWorldPosition sp g)
                             (stepRotation sp dt g) Started)
    end.
Proof.
  cbv beta zeta delta
    [animate stepProgress stepAdvance stepVelocity stepRadicand
     stepInitialHeight stepCurrentHeight stepNormal stepTangentLength
     stepTangent stepSecondTangent stepPosition stepCurvature stepTotalForce
     stepWorldPosition stepRotation].
  reflexivity.
Qed.

Lemma GondolaState_eqb_eq (a b : GondolaState) :
  GondolaState_eqb a b = true <-> a = b.
Proof. destruct a, b; simpl; split; congruence. Qed.

Lemma GondolaState_eqb_neq (a b : GondolaState) :
  GondolaState_eqb a b = false <-> a <> b.
Proof. destruct a, b; simpl; split; congruence. Qed.

(** *** Fewer than two control points *)

Lemma evaluate_short (sp : Spline) (t : float) :
  (length (cps_ sp) < 2)%nat -> evaluate sp t = origin.
Proof.
  intro Hlen. unfold evaluate.
  destruct (Nat.ltb_spec (length (cps_ sp)) 2) as [_ | Hge]; [reflexivity | lia].
Qed.

Lemma derivative_short (sp : Spline) (t : float) :
  (length (cps_ sp) < 2)%nat -> derivative sp t = origin.
Proof.
  intro Hlen. unfold derivative.
  rewrite !evaluate_short by assumption. vm_compute. reflexivity.
Qed.

Lemma tangent_guard_short (sp : Spline) (g : Gondola) :
  (length (cps_ sp) < 2)%nat ->
  F32.ltb (stepTangentLength sp g) EPSILON = true.
Proof.
  intro Hlen. unfold stepTangentLength, stepTangent.
  rewrite derivative_short by assumption. vm_compute. reflexivity.
Qed.

(** A step that gets past the tangent guard runs on a spline with at
    least two control points. *)
Lemma tangent_guard_two_points (sp : Spline) (g : Gondola) :
  F32.ltb (stepTangentLength sp g) EPSILON = false ->
  (2 <= length (cps_ sp))%nat.
Proof.
  intro Hguard.
  destruct (Nat.lt_ge_cases (length (cps_ sp)) 2) as [Hlt | Hge]; [ | exact Hge].
  rewrite tangent_guard_short in Hguard by assumption. discriminate.
Qed.

Lemma wf_knots_nonempty (sp : Spline) :
  wf_spline sp -> (2 <= length (cps_ sp))%nat ->
  exists k ks, getKnots sp = k :: ks.
Proof.
  unfold wf_spline, getKnots. intros Hwf Hlen.
  destruct (ts_ sp) as [ | k ks]; simpl in Hwf; [lia | eauto].
Qed.

Lemma addControlPoint_wf (p : vec2) (sp : Spline) :
  wf_spline sp -> wf_spline (addControlPoint p sp).
Proof.
  unfold wf_spline, addControlPoint. simpl. intro Hwf.
  rewrite !length_app. simpl. lia.
Qed.

Lemma fold_addControlPoint_wf (ps : list vec2) (sp : Spline) :
  wf_spline sp ->
  wf_spline (fold_left (fun sp p => addControlPoint p sp) ps sp).
Proof.
  revert sp. induction ps as [ | p ps IH]; intros sp Hwf; simpl.
  - exact Hwf.
  - apply IH, addControlPoint_wf, Hwf.
Qed.

Lemma build_wf (ps : list vec2) : wf_spline (build ps).
Proof. apply fold_addControlPoint_wf. reflexivity. Qed.

Lemma fold_addControlPoint_cps (ps : list vec2) (sp : Spline) :
  cps_ (fold_left (fun sp p => addControlPoint p sp) ps sp) = cps_ sp ++ ps.
Proof.
  revert sp. induction ps as [ | p ps IH]; intro sp; simpl.
  - now rewrite app_nil_r.
  - rewrite IH. simpl. now rewrite <- app_assoc.
Qed.

Lemma build_cps (ps : list vec2) : cps_ (build ps) = ps.
Proof. unfold build. now rewrite fold_addControlPoint_cps. Qed.

(** *** The comparison with zero *)

Lemma eqb_zero_not_ltb (a : float) :
  F32.eqb a f0 = true -> F32.ltb a f0 = false.
Proof.
  unfold F32.eqb, F32.ltb, SFeqb, SFltb.
  destruct (SFcompare a f0) as [[ | | ] | ]; congruence.
Qed.

(** *** Calls outside their phase *)

Lemma start_not_waiting (sp : Spline) (g : Gondola) :
  state_ g <> Waiting -> start sp g = g.
Proof.
  intro Hne. unfold start.
  apply GondolaState_eqb_neq in Hne. now rewrite Hne.
Qed.

Lemma animate_not_started (sp : Spline) (dt : float) (g : Gondola) :
  state_ g <> Started -> animate sp dt g = Done g.
Proof.
  intro Hne. rewrite animate_eq.
  apply GondolaState_eqb_neq in Hne. now rewrite Hne.
Qed.

Lemma exec_fallen (c : call) (sp : Spline) (g : Gondola) :
  state_ g = Fallen -> exists sp', exec c (sp, g) = Some (sp', g).
Proof.
  intro Hf. destruct c as [p | | dt]; simpl.
  - eauto.
  - rewrite start_not_waiting by congruence. eauto.
  - rewrite animate_not_started by congruence. eauto.
Qed.

Lemma run_fallen (cs : list call) (sp : Spline) (g : Gondola) :
  state_ g = Fallen -> exists sp', run cs (sp, g) = Some (sp', g).
Proof.
  intro Hf. revert sp. induction cs as [ | c cs IH]; intro sp; simpl.
  - eauto.
  - destruct (exec_fallen c sp g Hf) as [sp1 ->]. apply IH.
Qed.

(** C6.  [start] outside the Waiting phase and [animate] outside the
    Started phase return the state they were given; hence a gondola that
    has Fallen stays exactly as it is under every later sequence of
    clicks, [start] and [animate] calls. *)
Theorem C6_phase_monotone
  (sp : Spline) (g : Gondola) (dt : float) (cs : list call) :
  (state_ g <> Waiting -> start sp g = g) /\
  (state_ g <> Started -> animate sp dt g = Done g) /\
  (state_ g = Fallen -> exists sp', run cs (sp, g) = Some (sp', g)).
Proof.
  split; [ | split].
  - apply start_not_waiting.
  - apply animate_not_started.
  - apply run_fallen.
Qed.

(** *** The step taken in the Started phase *)

Lemma animate_started (sp : Spline) (dt : float) (g : Gondola) :
  wf_spline sp ->
  state_ g = Started ->
  F32.ltb (stepTangentLength sp g) EPSILON = false ->
  animate sp dt g =
  if F32.ltb (stepTotalForce sp g) f0 then
    Done (MkGondola (progressAlongSpline_ g) (stepVelocity sp g) (energy_ g)
                    (position_ g) (rotationAngle_ g) Fallen)
  else
    Done (MkGondola (stepProgress sp dt g) (stepVelocity sp g)
                    (energy_ g) (stepWorldPosition sp g)
                    (stepRotation sp dt g)
                    (if F32.gtb (stepProgress sp dt g) (back f0 (getKnots sp))
                     then Fallen else Started)).
Proof.
  intros Hwf Hst Hguard. rewrite animate_eq, Hst, Hguard. simpl negb. cbv iota.
  destruct (wf_knots_nonempty sp Hwf (tangent_guard_two_points _ _ Hguard))
    as (k & ks & Hk).
  rewrite Hk.
  destruct (F32.ltb (stepTotalForce sp g) f0); [reflexivity | ].
  destruct (F32.gtb (stepProgress sp dt g) (back f0 (k :: ks))); reflexivity.
Qed.

(** C2.  In the Started phase, past the tangent guard, the step ends in
    Fallen exactly when the total force is below zero or the arc
    parameter it stores is above the last knot; otherwise it stays
    Started.  The speed is stored in both cases, the stored energy is
    kept, and the force is computed from the stored speed.  On a negative force the arc parameter, the world
    position and the heading keep their values.  On any other force, a
    zero, a positive one or a NaN, the three are updated: the arc
    parameter by [velocity * dt / tangentLength], the world position to
    the curve point of the old arc parameter moved by the normal, the
    heading by [-(velocity / radius) * dt]; the gondola then stays
    Started exactly when the new arc parameter is not above the last
    knot.  A total force equal to zero is not below zero. *)
Theorem C2_departure (sp : Spline) (dt : float) (g : Gondola) :
  wf_spline sp ->
  state_ g = Started ->
  F32.ltb (stepTangentLength sp g) EPSILON = false ->
  exists g',
    animate sp dt g = Done g' /\
    (state_ g' = Fallen <->
       F32.ltb (stepTotalForce sp g) f0 = true \/
       F32.gtb (progressAlongSpline_ g') (back f0 (getKnots sp)) = true) /\
    (state_ g' <> Fallen -> state_ g' = Started) /\
    velocity_ g' = stepVelocity sp g /\
    energy_ g' = energy_ g /\
    stepTotalForce sp g
    = (stepCurvature sp g * velocity_ g' * velocity_ g'
       + GRAVITY * y (stepNormal sp g))%f32 /\
    (F32.ltb (stepTotalForce sp g) f0 = true ->
       state_ g' = Fallen /\
       progressAlongSpline_ g' = progressAlongSpline_ g /\
       position_ g' = position_ g /\
       rotationAngle_ g' = rotationAngle_ g) /\
    (F32.ltb (stepTotalForce sp g) f0 = false ->
       progressAlongSpline_ g'
       = (progressAlongSpline_ g
          + (velocity_ g' * dt) / stepTangentLength sp g)%f32 /\
       position_ g'
       = (evaluate sp (progressAlongSpline_ g)
         + stepNormal sp g *: gondolaRadius_)%v2 /\
       rotationAngle_ g'
       = (rotationAngle_ g - (velocity_ g' / gondolaRadius_) * dt)%f32 /\
       (state_ g' = Started <->
          F32.gtb (progressAlongSpline_ g') (back f0 (getKnots sp)) = false)) /\
    (F32.eqb (stepTotalForce sp g) f0 = true ->
       F32.ltb (stepTotalForce sp g) f0 = false).
Proof.
  intros Hwf Hst Hguard.
  rewrite (animate_started sp dt g Hwf Hst Hguard).
  assert (Hzero : F32.eqb (stepTotalForce sp g) f0 = true ->
                  F32.ltb (stepTotalForce sp g) f0 = false)
    by apply eqb_zero_not_ltb.
  destruct (F32.ltb (stepTotalForce sp g) f0) eqn:Hforce.
  - eexists. split; [reflexivity | ]. cbn [state_ progressAlongSpline_
      velocity_ energy_ position_ rotationAngle_].
    split; [split; [intros _; left; reflexivity | reflexivity] | ].
    split; [congruence | ].
    split; [reflexivity | ].
    split; [reflexivity | ].
    split; [reflexivity | ].
    split; [intros _; repeat split | ].
    split; [discriminate | exact Hzero].
  - eexists. split; [reflexivity | ]. cbn [state_ progressAlongSpline_
      velocity_ energy_ position_ rotationAngle_].
    split.
    { destruct (F32.gtb (stepProgress sp dt g) (back f0 (getKnots sp)));
        split; try tauto; try congruence.
      intros [H | H]; discriminate. }
    split.
    { destruct (F32.gtb (stepProgress sp dt g) (back f0 (getKnots sp)));
        congruence. }
    split; [reflexivity | ].
    split; [reflexivity | ].
    split; [reflexivity | ].
    split; [discriminate | ].
    split; [ | exact Hzero].
    intros _.
    split; [reflexivity | ]. split; [reflexivity | ]. split; [reflexivity | ].
    destruct (F32.gtb (stepProgress sp dt g) (back f0 (getKnots sp)));
      split; congruence.
Qed.
(** C10.  [start] does not look at the spline's size: with fewer than two
    control points it still leaves the Waiting phase.  Every [animate]
    call on such a spline stops at the tangent guard and returns the
    state it was given.  The last knot is read only past that guard, so
    only on a spline of two control points or more, and a call on a
    spline whose vectors have equal lengths never reads [back()] of an
    empty vector. *)
Theorem C10_short_spline (sp : Spline) (g : Gondola) (dts : list float) (dt : float) :
  ((length (cps_ sp) < 2)%nat ->
     (state_ g = Waiting -> state_ (start sp g) = Started) /\
     F32.ltb (stepTangentLength sp g) EPSILON = true /\
     animate sp dt g = Done g /\
     run (map Animate dts) (sp, g) = Some (sp, g)) /\
  (state_ g = Started ->
   F32.ltb (stepTangentLength sp g) EPSILON = false ->
     (2 <= length (cps_ sp))%nat) /\
  (wf_spline sp -> animate sp dt g <> Undefined).
Proof.
  assert (Hstep : forall d g0, (length (cps_ sp) < 2)%nat ->
                               animate sp d g0 = Done g0).
  { intros d g0 Hlen. rewrite animate_eq.
    rewrite (tangent_guard_short sp g0 Hlen).
    destruct (negb (GondolaState_eqb (state_ g0) Started)); reflexivity. }
  split; [ | split].
  - intro Hlen. split; [ | split; [ | split]].
    + intro Hw. unfold start. rewrite Hw. reflexivity.
    + apply tangent_guard_short, Hlen.
    + apply Hstep, Hlen.
    + induction dts as [ | d dts IH]; simpl; [reflexivity | ].
      rewrite Hstep by assumption. exact IH.
  - intros _ Hguard. exact (tangent_guard_two_points _ _ Hguard).
  - intros Hwf Hundef. rewrite animate_eq in Hundef.
    destruct (negb (GondolaState_eqb (state_ g) Started)); [discriminate | ].
    destruct (F32.ltb (stepTangentLength sp g) EPSILON) eqn:Hguard;
      [discriminate | ].
    destruct (F32.ltb (stepTotalForce sp g) f0); [discriminate | ].
    destruct (wf_knots_nonempty sp Hwf (tangent_guard_two_points _ _ Hguard))
      as (k & ks & Hk).
    rewrite Hk in Hundef.
    destruct (F32.gtb (stepProgress sp dt g) (back f0 (k :: ks)));
      discriminate.
Qed.

(** *** The stored energy is never read *)

Lemma start_agree (sp : Spline) (g1 g2 : Gondola) :
  agree_but_energy g1 g2 -> agree_but_energy (start sp g1) (start sp g2).
Proof.
  intros (Hp & Hv & Hpos & Hr & Hs). unfold start. rewrite Hs.
  destruct (GondolaState_eqb (state_ g2) Waiting).
  - unfold agree_but_energy.
    cbn [progressAlongSpline_ velocity_ position_ rotationAngle_ state_].
    tauto.
  - unfold agree_but_energy. tauto.
Qed.

Lemma step_quantities_agree (sp : Spline) (dt : float) (g1 g2 : Gondola) :
  agree_but_energy g1 g2 ->
  stepTangentLength sp g1 = stepTangentLength sp g2 /\
  stepTotalForce sp g1 = stepTotalForce sp g2 /\
  stepVelocity sp g1 = stepVelocity sp g2 /\
  stepProgress sp dt g1 = stepProgress sp dt g2 /\
  stepWorldPosition sp g1 = stepWorldPosition sp g2 /\
  stepRotation sp dt g1 = stepRotation sp dt g2.
Proof.
  intros (Hp & Hv & Hpos & Hr & Hs).
  unfold stepProgress, stepAdvance, stepRotation, stepWorldPosition,
    stepTotalForce, stepCurvature, stepVelocity, stepRadicand,
    stepInitialHeight, stepCurrentHeight, stepNormal, stepTangentLength,
    stepSecondTangent, stepTangent, stepPosition.
  rewrite Hp, Hr. repeat split; reflexivity.
Qed.

Lemma animate_agree (sp : Spline) (dt : float) (g1 g2 : Gondola) :
  agree_but_energy g1 g2 ->
  match animate sp dt g1, animate sp dt g2 with
  | Done g1', Done g2' => agree_but_energy g1' g2'
  | Undefined, Undefined => True
  | _, _ => False
  end.
Proof.
  intro Hag.
  destruct (step_quantities_agree sp dt g1 g2 Hag) as (Hl & Hf & Hv & Hp & Hw & Hr).
  rewrite !animate_eq, Hl, Hf, Hv, Hp, Hw, Hr.
  destruct Hag as (Hp0 & Hv0 & Hpos0 & Hr0 & Hs0). rewrite Hs0.
  destruct (negb (GondolaState_eqb (state_ g2) Started)).
  { unfold agree_but_energy; tauto. }
  destruct (F32.ltb (stepTangentLength sp g2) EPSILON).
  { unfold agree_but_energy; tauto. }
  destruct (F32.ltb (stepTotalForce sp g2) f0).
  { unfold agree_but_energy; simpl; tauto. }
  destruct (getKnots sp); [exact I | ].
  destruct (F32.gtb (stepProgress sp dt g2) (back f0 (f :: l)));
    unfold agree_but_energy; simpl; tauto.
Qed.

Lemma exec_agree (c : call) (sp : Spline) (g1 g2 : Gondola) :
  agree_but_energy g1 g2 ->
  agree_worlds (exec c (sp, g1)) (exec c (sp, g2)).
Proof.
  intro Hag. destruct c as [p | | dt]; simpl.
  - split; [reflexivity | exact Hag].
  - split; [reflexivity | apply start_agree, Hag].
  - pose proof (animate_agree sp dt g1 g2 Hag) as H.
    destruct (animate sp dt g1), (animate sp dt g2); simpl; tauto.
Qed.

(** C9.  The energy [start] stores is read by no operation: two gondolas
    that differ in nothing but the stored energy go, under every sequence
    of clicks, [start] and [animate] calls, through states with the same
    phase, arc parameter, world position, speed and heading (and run into
    undefined behaviour together or not at all). *)
Theorem C9_energy_never_read
  (cs : list call) (sp : Spline) (g1 g2 : Gondola) :
  agree_but_energy g1 g2 ->
  agree_worlds (run cs (sp, g1)) (run cs (sp, g2)).
Proof.
  revert sp g1 g2. induction cs as [ | c cs IH]; intros sp g1 g2 Hag; simpl.
  - split; [reflexivity | exact Hag].
  - pose proof (exec_agree c sp g1 g2 Hag) as H.
    destruct (exec c (sp, g1)) as [[sp1 g1'] | ],
             (exec c (sp, g2)) as [[sp2 g2'] | ]; simpl in H; try tauto.
    destruct H as [-> H]. apply IH, H.
Qed.

End ControlFlow.

(** ** Facts of binary32 arithmetic *)

Section FloatFacts.

Lemma f1_eq : f1 = S754_finite false 8388608 (-23).
Proof. vm_compute. reflexivity. Qed.

Lemma EPSILON_eq : EPSILON = S754_finite false 8589935 (-33).
Proof. vm_compute. reflexivity. Qed.

(** *** NaN is absorbing *)

Lemma add_nan_l (a : float) : (S754_nan + a)%f32 = S754_nan.
Proof. destruct a; reflexivity. Qed.

Lemma add_nan_r (a : float) : (a + S754_nan)%f32 = S754_nan.
Proof. destruct a; reflexivity. Qed.

Lemma sub_nan_l (a : float) : (S754_nan - a)%f32 = S754_nan.
Proof. destruct a; reflexivity. Qed.

Lemma sub_nan_r (a : float) : (a - S754_nan)%f32 = S754_nan.
Proof. destruct a; reflexivity. Qed.

Lemma mul_nan_l (a : float) : (S754_nan * a)%f32 = S754_nan.
Proof. destruct a; reflexivity. Qed.

Lemma mul_nan_r (a : float) : (a * S754_nan)%f32 = S754_nan.
Proof. destruct a; reflexivity. Qed.

Lemma div_nan_l (a : float) : (S754_nan / a)%f32 = S754_nan.
Proof. destruct a; reflexivity. Qed.

Lemma div_nan_r (a : float) : (a / S754_nan)%f32 = S754_nan.
Proof. destruct a; reflexivity. Qed.

Lemma sqrt_nan : F32.sqrt S754_nan = S754_nan.
Proof. reflexivity. Qed.

(** *** Arithmetic with a zero *)

Lemma add_zero_r_same (a : float) (s : bool) :
  same_float (a + S754_zero s)%f32 a.
Proof.
  destruct a as [sa | sa | | sa m e]; try (left; reflexivity).
  right. destruct sa, s; reflexivity.
Qed.

Lemma sub_zero_r_same (a : float) (s : bool) :
  same_float (a - S754_zero s)%f32 a.
Proof.
  destruct a as [sa | sa | | sa m e]; try (left; reflexivity).
  right. destruct sa, s; reflexivity.
Qed.

Lemma mul_zero_r (a : float) (s : bool) :
  F32.is_finite a = true -> exists s', (a * S754_zero s)%f32 = S754_zero s'.
Proof.
  destruct a as [sa | sa | | sa m e]; simpl; intro H; try discriminate;
    eexists; reflexivity.
Qed.

Lemma mul_zero_l (a : float) (s : bool) :
  F32.is_finite a = true -> exists s', (S754_zero s * a)%f32 = S754_zero s'.
Proof.
  destruct a as [sa | sa | | sa m e]; simpl; intro H; try discriminate;
    eexists; reflexivity.
Qed.

Lemma ltb_zero_EPSILON (s : bool) : F32.ltb (S754_zero s) EPSILON = true.
Proof. rewrite EPSILON_eq. reflexivity. Qed.

(** A zero divided by a length that passed the tangent guard. *)
Lemma div_zero_guarded (s : bool) (b : float) :
  F32.is_nan b = false -> F32.ltb b EPSILON = false ->
  exists s', (S754_zero s / b)%f32 = S754_zero s'.
Proof.
  intros Hnan Hguard. destruct b as [sb | sb | | sb m e].
  - rewrite ltb_zero_EPSILON in Hguard. discriminate.
  - eexists; reflexivity.
  - discriminate.
  - eexists; reflexivity.
Qed.

Lemma eqb_zero_inv (a : float) :
  F32.eqb a f0 = true -> exists s, a = S754_zero s.
Proof.
  destruct a as [sa | [] | | [] m e]; try discriminate. eauto.
Qed.

(** *** The square root *)

Lemma binary_round_aux_shape (s : bool) (m e : Z) (l : location) :
  let r := binary_round_aux F32.prec F32.emax s m e l in
  r = S754_nan \/ r = S754_zero s \/ r = S754_infinity s \/
  exists m' e', r = S754_finite s m' e'.
Proof.
  unfold binary_round_aux.
  destruct (shr_fexp F32.prec F32.emax m e l) as [mrs' e'].
  destruct (shr_fexp F32.prec F32.emax _ e' loc_Exact) as [mrs'' e''].
  destruct (shr_m mrs'') as [ | p | p]; cbv zeta; auto.
  destruct (e'' <=? F32.emax - F32.prec)%Z; eauto 6.
Qed.

Lemma sqrt_nonneg_or_nan (a : float) : nonneg_or_nan (F32.sqrt a).
Proof.
  destruct a as [s | [] | | [] m e];
    try (left; reflexivity); try (right; destruct s; reflexivity);
    try (right; reflexivity).
  unfold F32.sqrt, SFsqrt.
  destruct (SFsqrt_core_binary F32.prec F32.emax (Z.pos m) e) as [[mz ez] lz].
  destruct (binary_round_aux_shape false mz ez lz)
    as [-> | [-> | [-> | (m' & e' & ->)]]].
  - left; reflexivity.
  - right; reflexivity.
  - right; reflexivity.
  - right; reflexivity.
Qed.

Lemma nonneg_or_nan_cases (a : float) :
  nonneg_or_nan a ->
  a = S754_nan \/ (exists s, a = S754_zero s) \/ a = S754_infinity false \/
  exists m e, a = S754_finite false m e.
Proof.
  intros [H | H]; destruct a as [s | [] | | [] m e]; try discriminate; eauto 6.
Qed.

Lemma round_nonneg_or_nan (m e : Z) (l : location) :
  nonneg_or_nan (binary_round_aux F32.prec F32.emax false m e l).
Proof.
  destruct (binary_round_aux_shape false m e l)
    as [-> | [-> | [-> | (m' & e' & ->)]]];
    [left | right | right | right]; reflexivity.
Qed.

(** A length that passed the tangent guard is positive or not a number. *)
Lemma guarded_positive (a : float) :
  F32.ltb a EPSILON = false -> a = S754_nan \/ F32.ltb f0 a = true.
Proof.
  rewrite EPSILON_eq.
  destruct a as [s | [] | | [] m e]; intro H; try discriminate; auto.
Qed.

Lemma div_nonneg_or_nan (a b : float) :
  nonneg_or_nan a -> b = S754_nan \/ F32.ltb f0 b = true ->
  nonneg_or_nan (a / b)%f32.
Proof.
  intros Ha [-> | Hb]; [left; now rewrite div_nan_r | ].
  destruct (nonneg_or_nan_cases a Ha)
    as [-> | [[s ->] | [-> | (m & e & ->)]]];
    destruct b as [sb | [] | | [] mb eb]; try discriminate;
    try (left; reflexivity); try (right; destruct s; reflexivity);
    try (right; reflexivity).
  unfold F32.div, SFdiv.
  destruct (SFdiv_core_binary F32.prec F32.emax (Z.pos m) e (Z.pos mb) eb)
    as [[mz ez] lz].
  apply round_nonneg_or_nan.
Qed.

Lemma sqrt_negative (a : float) :
  F32.ltb a f0 = true -> F32.sqrt a = S754_nan.
Proof.
  destruct a as [s | [] | | [] m e]; try discriminate; reflexivity.
Qed.

End FloatFacts.

Lemma pos_compare_cont_Eq (a b : positive) :
  Pos.compare_cont Eq a b = (a ?= b)%positive.
Proof. reflexivity. Qed.

(** Case analysis on the comparisons inside [SFcompare]. *)
Ltac cmp_cases :=
  repeat match goal with
  | |- context [Z.compare ?a ?b] =>
      destruct (Z.compare_spec a b); subst
  | |- context [Pos.compare_cont Eq ?a ?b] =>
      rewrite (pos_compare_cont_Eq a b);
      destruct (Pos.compare_spec a b); subst
  | H : context [Z.compare ?a ?b] |- _ =>
      destruct (Z.compare_spec a b); subst
  | H : context [Pos.compare_cont Eq ?a ?b] |- _ =>
      rewrite (pos_compare_cont_Eq a b) in H;
      destruct (Pos.compare_spec a b); subst
  end;
  cbn [CompOpp] in *; try discriminate; try reflexivity; try lia.

Section Integers.

(** *** Shifts and rounding *)

Lemma iter_pos_eq {A : Type} (f : A -> A) (p : positive) (a : A) :
  iter_pos f p a = Pos.iter f a p.
Proof.
  revert a. induction p as [p IH | p IH | ]; intro a; simpl.
  - rewrite !IH. now rewrite <- !Pos.iter_swap.
  - now rewrite !IH.
  - reflexivity.
Qed.

Lemma shr_1_clean (m : positive) :
  shr_1 (Build_shr_record (Z.pos m~0) false false)
  = Build_shr_record (Z.pos m) false false.
Proof. reflexivity. Qed.

Lemma shr_iter_clean (k : positive) (m : positive) :
  iter_pos shr_1 k (Build_shr_record (Z.pos (Pos.iter xO m k)) false false)
  = Build_shr_record (Z.pos m) false false.
Proof.
  rewrite iter_pos_eq.
  induction k as [ | k IH] using Pos.peano_ind.
  - reflexivity.
  - rewrite Pos.iter_succ_r. rewrite Pos.iter_succ. rewrite shr_1_clean.
    exact IH.
Qed.

Lemma digits2_iter_xO (k m : positive) :
  digits2_pos (Pos.iter xO m k) = (digits2_pos m + k)%positive.
Proof.
  induction k as [ | k IH] using Pos.peano_ind.
  - simpl. lia.
  - rewrite Pos.iter_succ. simpl. rewrite IH. lia.
Qed.

Lemma canonical_fexp (m : positive) (e : Z) :
  canonical_mantissa F32.prec F32.emax m e = true ->
  fexp F32.prec F32.emax (Z.pos (digits2_pos m) + e) = e.
Proof. unfold canonical_mantissa. apply Z.eqb_eq. Qed.

(** Rounding a canonical mantissa changes nothing. *)
Lemma binary_round_aux_canonical (s : bool) (m : positive) (e : Z) :
  canonical_mantissa F32.prec F32.emax m e = true ->
  (e <= 104)%Z ->
  binary_round_aux F32.prec F32.emax s (Z.pos m) e loc_Exact
  = S754_finite s m e.
Proof.
  intros Hc He. unfold binary_round_aux, shr_fexp. cbn [Zdigits2].
  rewrite (canonical_fexp m e Hc), Z.sub_diag.
  cbn [shr shr_record_of_loc shr_m loc_of_shr_record round_nearest_even Zdigits2].
  rewrite (canonical_fexp m e Hc), Z.sub_diag.
  cbn [shr shr_record_of_loc shr_m].
  replace (e <=? F32.emax - F32.prec)%Z with true; [reflexivity | ].
  symmetry. apply Z.leb_le. unfold F32.emax, F32.prec. lia.
Qed.

(** Rounding a canonical mantissa that was shifted left gives it back. *)
Lemma binary_round_aux_shifted (s : bool) (m k : positive) (e : Z) :
  canonical_mantissa F32.prec F32.emax m e = true ->
  (e <= 104)%Z ->
  binary_round_aux F32.prec F32.emax s (Z.pos (Pos.iter xO m k))
                   (e - Z.pos k) loc_Exact
  = S754_finite s m e.
Proof.
  intros Hc He. unfold binary_round_aux, shr_fexp. cbn [Zdigits2].
  rewrite digits2_iter_xO.
  replace (Z.pos (digits2_pos m + k) + (e - Z.pos k))%Z
    with (Z.pos (digits2_pos m) + e)%Z by lia.
  rewrite (canonical_fexp m e Hc).
  replace (e - (e - Z.pos k))%Z with (Z.pos k) by lia.
  cbn [shr shr_record_of_loc].
  rewrite shr_iter_clean.
  cbn [shr_m loc_of_shr_record round_nearest_even Zdigits2].
  replace (e - Z.pos k + Z.pos k)%Z with e by lia.
  rewrite (canonical_fexp m e Hc), Z.sub_diag.
  cbn [shr shr_record_of_loc shr_m].
  replace (e <=? F32.emax - F32.prec)%Z with true; [reflexivity | ].
  symmetry. apply Z.leb_le. unfold F32.emax, F32.prec. lia.
Qed.

Lemma div_eucl_exact (q b : Z) :
  (0 < b)%Z -> Z.div_eucl (q * b) b = (q, 0%Z).
Proof.
  intro Hb. generalize (Z_div_mod (q * b) b (Z.lt_gt _ _ Hb)).
  destruct (Z.div_eucl (q * b) b) as [q' r']. intros [H1 H2].
  assert (q' = q) by nia. subst q'. f_equal. lia.
Qed.

Lemma valid_finite_cases (s : bool) (m : positive) (e : Z) :
  F32.valid (S754_finite s m e) = true ->
  canonical_mantissa F32.prec F32.emax m e = true /\
  (e <= 104)%Z /\
  ((e = -149 /\ Z.pos (digits2_pos m) <= 24) \/
   (-149 < e /\ Z.pos (digits2_pos m) = 24))%Z.
Proof.
  unfold F32.valid, valid_binary, bounded.
  intro H. apply andb_prop in H. destruct H as [Hc He].
  split; [exact Hc | ].
  unfold canonical_mantissa, fexp, emin, F32.prec, F32.emax in *.
  apply Z.eqb_eq in Hc. apply Z.leb_le in He.
  split; [lia | ]. lia.
Qed.

Lemma xorb_false_right (s : bool) : xorb s false = s.
Proof. destruct s; reflexivity. Qed.

(** Division by [1.0f] is exact. *)
Lemma div_one_valid (a : float) :
  F32.is_finite a = true -> F32.valid a = true -> (a / f1)%f32 = a.
Proof.
  destruct a as [s | s | | s m e]; intros Hf Hv; try discriminate.
  - rewrite f1_eq. destruct s; reflexivity.
  - destruct (valid_finite_cases s m e Hv) as (Hc & He & [[-> Hd] | [Hlo Hd]]).
    + rewrite f1_eq. unfold F32.div, SFdiv, SFdiv_core_binary.
      cbn [Zdigits2].
      change (Z.pos (digits2_pos 8388608)) with 24%Z.
      set (E := Z.min _ _).
      assert (HE : E = (-149)%Z).
      { subst E. unfold fexp, emin, F32.prec, F32.emax. lia. }
      rewrite HE. change (-149 - -23 - -149)%Z with 23%Z. cbv iota.
      rewrite Z.shiftl_mul_pow2 by lia.
      change (2 ^ 23)%Z with 8388608%Z.
      rewrite div_eucl_exact by lia.
      change (new_location 8388608 0) with loc_Exact.
      rewrite xorb_false_right.
      apply binary_round_aux_canonical; [exact Hc | lia].
    + rewrite f1_eq. unfold F32.div, SFdiv, SFdiv_core_binary.
      cbn [Zdigits2].
      change (Z.pos (digits2_pos 8388608)) with 24%Z.
      set (E := Z.min _ _).
      assert (HE : E = (e - 1)%Z).
      { subst E. unfold fexp, emin, F32.prec, F32.emax. lia. }
      rewrite HE. replace (e - -23 - (e - 1))%Z with 24%Z by lia. cbv iota.
      rewrite Z.shiftl_mul_pow2 by lia.
      replace (Z.pos m * 2 ^ 24)%Z with (Z.pos m~0 * 8388608)%Z by lia.
      rewrite div_eucl_exact by lia.
      change (new_location 8388608 0) with loc_Exact.
      rewrite xorb_false_right.
      change (m~0)%positive with (Pos.iter xO m 1).
      apply binary_round_aux_shifted; [exact Hc | lia].
Qed.

(** *** Integers up to 2^24 *)

Lemma iter_xO_pow (p k : positive) :
  Z.pos (Pos.iter xO p k) = (Z.pos p * 2 ^ Z.pos k)%Z.
Proof.
  induction k as [ | k IH] using Pos.peano_ind.
  - simpl. lia.
  - rewrite Pos.iter_succ, Pos2Z.inj_succ, Z.pow_succ_r by lia.
    rewrite Pos2Z.inj_xO, IH. lia.
Qed.

Lemma digits_bounds (p : positive) :
  (2 ^ (Z.pos (digits2_pos p) - 1) <= Z.pos p < 2 ^ Z.pos (digits2_pos p))%Z.
Proof.
  induction p as [p IH | p IH | ]; cbn [digits2_pos].
  - rewrite Pos2Z.inj_succ.
    replace (Z.succ (Z.pos (digits2_pos p)) - 1)%Z
      with (Z.succ (Z.pos (digits2_pos p) - 1)) by lia.
    rewrite !Z.pow_succ_r by lia. lia.
  - rewrite Pos2Z.inj_succ.
    replace (Z.succ (Z.pos (digits2_pos p)) - 1)%Z
      with (Z.succ (Z.pos (digits2_pos p) - 1)) by lia.
    rewrite !Z.pow_succ_r by lia. lia.
  - simpl. lia.
Qed.

Lemma digits_le_24 (p : positive) :
  (Z.pos p < 16777216)%Z -> (Z.pos (digits2_pos p) <= 24)%Z.
Proof.
  intro Hp. destruct (digits_bounds p) as [Hlo _].
  destruct (Z_le_gt_dec (Z.pos (digits2_pos p)) 24) as [H | H]; [exact H | ].
  exfalso.
  assert (2 ^ 24 <= 2 ^ (Z.pos (digits2_pos p) - 1))%Z
    by (apply Z.pow_le_mono_r; lia).
  change (2 ^ 24)%Z with 16777216%Z in *. lia.
Qed.

Lemma digits_mono (p q : positive) :
  (Z.pos p <= Z.pos q)%Z ->
  (Z.pos (digits2_pos p) <= Z.pos (digits2_pos q))%Z.
Proof.
  intro Hpq. destruct (digits_bounds p) as [Hlo _].
  destruct (digits_bounds q) as [_ Hhi].
  destruct (Z_le_gt_dec (Z.pos (digits2_pos p)) (Z.pos (digits2_pos q)))
    as [H | H]; [exact H | ].
  exfalso.
  assert (2 ^ Z.pos (digits2_pos q) <= 2 ^ (Z.pos (digits2_pos p) - 1))%Z
    by (apply Z.pow_le_mono_r; lia).
  lia.
Qed.

Lemma shl_align_left (m : positive) (e e' : Z) (k : positive) :
  (e' = e - Z.pos k)%Z -> shl_align m e e' = (Pos.iter xO m k, e').
Proof.
  intros ->. unfold shl_align.
  replace (e - Z.pos k - e)%Z with (Z.neg k) by lia. reflexivity.
Qed.

Lemma shl_align_none (m : positive) (e e' : Z) :
  (e <= e')%Z -> shl_align m e e' = (m, e).
Proof.
  intro H. unfold shl_align.
  destruct (e' - e)%Z eqn:E; try reflexivity. lia.
Qed.

Lemma fexp_normal (n : Z) :
  (-125 <= n)%Z -> fexp F32.prec F32.emax n = (n - 24)%Z.
Proof. unfold fexp, emin, F32.prec, F32.emax. lia. Qed.

Lemma int_form_exists (p : positive) :
  (Z.pos (digits2_pos p) <= 24)%Z -> exists m e, int_form p m e.
Proof.
  intro Hd. destruct (Z.eq_dec (Z.pos (digits2_pos p)) 24) as [H24 | Hne].
  - exists p, 0%Z. now constructor.
  - destruct (24 - Z.pos (digits2_pos p))%Z as [ | k | k] eqn:E; try lia.
    exists (Pos.iter xO p k), (- Z.pos k)%Z. constructor. lia.
Qed.

Lemma int_form_facts (p m : positive) (e : Z) :
  int_form p m e ->
  canonical_mantissa F32.prec F32.emax m e = true /\
  (e = Z.pos (digits2_pos p) - 24)%Z /\
  (Z.pos m = Z.pos p * 2 ^ (- e))%Z /\ (-23 <= e <= 0)%Z.
Proof.
  intros [H24 | k Hk]; unfold canonical_mantissa.
  - rewrite H24. repeat split; try lia. 
  - rewrite digits2_iter_xO, Pos2Z.inj_add.
    rewrite fexp_normal by lia.
    rewrite Z.opp_involutive, iter_xO_pow.
    repeat split; try lia; try (apply Z.eqb_eq; lia).
Qed.

Lemma of_Z_int_form (p m : positive) (e : Z) :
  int_form p m e -> F32.of_Z (Z.pos p) = S754_finite false m e.
Proof.
  intro Hf. destruct (int_form_facts p m e Hf) as (Hc & He & Hm & Hr).
  unfold F32.of_Z, binary_normalize, binary_round.
  rewrite fexp_normal by lia.
  destruct Hf as [H24 | k Hk].
  - rewrite shl_align_none by lia.
    apply binary_round_aux_canonical; [exact Hc | lia].
  - rewrite (shl_align_left p 0 _ k) by lia.
    replace (Z.pos (digits2_pos p) + 0 - 24)%Z with (- Z.pos k)%Z by lia.
    apply binary_round_aux_canonical; [exact Hc | lia].
Qed.

Lemma binary_round_int23 (q m : positive) (e : Z) :
  int_form q m e -> (2 <= Z.pos (digits2_pos q))%Z ->
  binary_round F32.prec F32.emax false (Pos.iter xO q 23) (-23)
  = S754_finite false m e.
Proof.
  intros Hf Hd. destruct (int_form_facts q m e Hf) as (Hc & He & Hm & Hr).
  unfold binary_round. rewrite digits2_iter_xO, Pos2Z.inj_add.
  rewrite fexp_normal by lia.
  rewrite shl_align_none by lia.
  destruct Hf as [H24 | k Hk].
  - apply (binary_round_aux_shifted false q 23 0); [exact Hc | lia].
  - destruct (23 - Z.pos k)%Z as [ | j | j] eqn:E; try lia.
    assert (Hiter : Pos.iter xO q 23 = Pos.iter xO (Pos.iter xO q k) j).
    { apply Pos2Z.inj. rewrite !iter_xO_pow.
      rewrite <- Z.mul_assoc, <- Z.pow_add_r by lia.
      do 2 f_equal. lia. }
    rewrite Hiter.
    replace (-23)%Z with (- Z.pos k - Z.pos j)%Z by lia.
    apply binary_round_aux_shifted; [exact Hc | lia].
Qed.

Lemma add_one_pos (p : positive) :
  (2 <= Z.pos p)%Z -> (Z.pos p + 1 < 16777216)%Z ->
  (F32.of_Z (Z.pos p) + f1)%f32 = F32.of_Z (Z.pos p + 1).
Proof.
  intros Hlo Hhi.
  destruct (int_form_exists p) as (m & e & Hf); [apply digits_le_24; lia | ].
  destruct (int_form_exists (p + 1)) as (m' & e' & Hf');
    [apply digits_le_24; lia | ].
  replace (Z.pos p + 1)%Z with (Z.pos (p + 1)) by lia.
  rewrite (of_Z_int_form p m e Hf), (of_Z_int_form (p + 1) m' e' Hf'), f1_eq.
  destruct (int_form_facts p m e Hf) as (Hc & He & Hm & Hr).
  assert (Hd : (2 <= Z.pos (digits2_pos p))%Z).
  { destruct (digits_bounds p) as [_ Hb].
    destruct (Z_le_gt_dec 2 (Z.pos (digits2_pos p))) as [H | H]; [exact H | ].
    exfalso. assert (Z.pos (digits2_pos p) = 1)%Z by lia.
    rewrite H0 in Hb. simpl in Hb. lia. }
  unfold F32.add, SFadd.
  replace (Z.min e (-23)) with (-23)%Z by lia.
  destruct (e + 23)%Z as [ | k | k] eqn:E; try lia.
  rewrite (shl_align_left m e (-23) k) by lia.
  rewrite shl_align_none by lia.
  cbn [fst cond_Zopp Z.add binary_normalize].
  assert (Hsum : (Pos.iter xO m k + 8388608 = Pos.iter xO (p + 1) 23)%positive).
  { apply Pos2Z.inj. rewrite Pos2Z.inj_add, !iter_xO_pow, Hm.
    rewrite <- Z.mul_assoc, <- Z.pow_add_r by lia.
    replace (- e + Z.pos k)%Z with 23%Z by lia.
    change (2 ^ 23)%Z with 8388608%Z. lia. }
  rewrite Hsum.
  apply binary_round_int23; [exact Hf' | ].
  pose proof (digits_mono p (p + 1)). lia.
Qed.

(** One more than an integer below 2^24 is the next integer. *)
Lemma of_Z_succ (n : Z) :
  (0 <= n < 16777216)%Z -> (F32.of_Z n + f1)%f32 = F32.of_Z (n + 1).
Proof.
  intro Hn.
  destruct (Z.eq_dec n 0) as [-> | H0]; [vm_compute; reflexivity | ].
  destruct (Z.eq_dec n 1) as [-> | H1]; [vm_compute; reflexivity | ].
  destruct (Z.eq_dec n 16777215) as [-> | H2]; [vm_compute; reflexivity | ].
  destruct n as [ | p | p]; try lia.
  apply add_one_pos; lia.
Qed.

(** At 2^24 the addition of one is absorbed. *)
Lemma of_Z_saturated :
  (F32.of_Z 16777216 + f1)%f32 = F32.of_Z 16777216.
Proof. vm_compute. reflexivity. Qed.

Lemma ltb_of_Z_pos (p q : positive) :
  (Z.pos p < Z.pos q)%Z -> (Z.pos q < 16777216)%Z ->
  F32.ltb (F32.of_Z (Z.pos p)) (F32.of_Z (Z.pos q)) = true.
Proof.
  intros Hpq Hq.
  destruct (int_form_exists p) as (m & e & Hf); [apply digits_le_24; lia | ].
  destruct (int_form_exists q) as (m' & e' & Hf'); [apply digits_le_24; lia | ].
  rewrite (of_Z_int_form p m e Hf), (of_Z_int_form q m' e' Hf').
  destruct (int_form_facts p m e Hf) as (Hc & He & Hm & Hr).
  destruct (int_form_facts q m' e' Hf') as (Hc' & He' & Hm' & Hr').
  pose proof (digits_mono p q ltac:(lia)) as Hmono.
  unfold F32.ltb, SFltb, SFcompare.
  destruct (Z.compare_spec e e') as [Heq | Hlt | Hgt]; try reflexivity; try lia.
  rewrite pos_compare_cont_Eq.
  replace (m ?= m')%positive with Lt; [reflexivity | ].
  symmetry. apply Pos.compare_lt_iff.
  assert (Z.pos m < Z.pos m')%Z; [ | lia].
  rewrite Hm, Hm', Heq.
  apply Z.mul_lt_mono_pos_r; [apply Z.pow_pos_nonneg; lia | exact Hpq].
Qed.

Lemma of_Z_lt (a b : Z) :
  (0 <= a < b)%Z -> (b <= 16777216)%Z ->
  F32.ltb (F32.of_Z a) (F32.of_Z b) = true.
Proof.
  intros Ha Hb.
  destruct (Z.eq_dec b 16777216) as [-> | Hb'].
  - change (F32.of_Z 16777216) with (S754_finite false 8388608 1).
    destruct a as [ | p | p]; try lia; [reflexivity | ].
    destruct (int_form_exists p) as (m & e & Hf); [apply digits_le_24; lia | ].
    rewrite (of_Z_int_form p m e Hf).
    destruct (int_form_facts p m e Hf) as (Hc & He & Hm & Hr).
    unfold F32.ltb, SFltb, SFcompare.
    destruct (Z.compare_spec e 1); try reflexivity; lia.
  - destruct b as [ | q | q]; try lia.
    destruct a as [ | p | p]; try lia.
    + destruct (int_form_exists q) as (m & e & Hf);
        [apply digits_le_24; lia | ].
      rewrite (of_Z_int_form q m e Hf). reflexivity.
    + apply ltb_of_Z_pos; lia.
Qed.

(** *** Differences and products that are exact *)

Lemma shl_align_value (m : positive) (e e' : Z) :
  (e' <= e)%Z ->
  Z.pos (fst (shl_align m e e')) = (Z.pos m * 2 ^ (e - e'))%Z.
Proof.
  intro H. unfold shl_align.
  destruct (e' - e)%Z as [ | d | d] eqn:E; try lia; cbn [fst].
  - replace (e - e')%Z with 0%Z by lia. lia.
  - rewrite iter_xO_pow. do 2 f_equal. lia.
Qed.

Lemma binary_round_pow2 (j : positive) :
  (Z.pos j <= 23)%Z ->
  binary_round F32.prec F32.emax false (Pos.iter xO 1%positive j) (- Z.pos j)
  = S754_finite false 8388608 (-23).
Proof.
  intro Hj. unfold binary_round. rewrite digits2_iter_xO.
  replace (Z.pos (digits2_pos 1%positive + j) + - Z.pos j)%Z with 1%Z
    by (cbn [digits2_pos]; lia).
  change (fexp F32.prec F32.emax 1) with (-23)%Z.
  destruct (23 - Z.pos j)%Z as [ | k | k] eqn:E; try lia.
  - rewrite shl_align_none by lia.
    assert (j = 23%positive) by lia. subst j.
    apply binary_round_aux_canonical; [reflexivity | lia].
  - rewrite (shl_align_left _ (- Z.pos j) (-23) k) by lia.
    assert (Hm : Pos.iter xO (Pos.iter xO 1%positive j) k = 8388608%positive).
    { apply Pos2Z.inj. rewrite !iter_xO_pow.
      rewrite <- Z.mul_assoc, <- Z.pow_add_r by lia.
      replace (Z.pos j + Z.pos k)%Z with 23%Z by lia. reflexivity. }
    rewrite Hm. apply binary_round_aux_canonical; [reflexivity | lia].
Qed.

Lemma sub_consecutive_pos (p : positive) :
  (Z.pos p + 1 < 16777216)%Z ->
  (F32.of_Z (Z.pos p + 1) - F32.of_Z (Z.pos p))%f32 = f1.
Proof.
  intro Hhi.
  destruct (int_form_exists p) as (m & e & Hf); [apply digits_le_24; lia | ].
  destruct (int_form_exists (p + 1)) as (m' & e' & Hf');
    [apply digits_le_24; lia | ].
  replace (Z.pos p + 1)%Z with (Z.pos (p + 1)) by lia.
  rewrite (of_Z_int_form p m e Hf), (of_Z_int_form (p + 1) m' e' Hf'), f1_eq.
  destruct (int_form_facts p m e Hf) as (Hc & He & Hm & Hr).
  destruct (int_form_facts (p + 1) m' e' Hf') as (Hc' & He' & Hm' & Hr').
  pose proof (digits_mono p (p + 1) ltac:(lia)) as Hmono.
  unfold F32.sub, SFsub.
  replace (Z.min e' e) with e by lia.
  cbn [cond_Zopp].
  rewrite (shl_align_value m' e' e) by lia.
  rewrite (shl_align_value m e e) by lia.
  rewrite Hm, Hm', Z.sub_diag.
  rewrite <- Z.mul_assoc, <- Z.pow_add_r by lia.
  replace (- e' + (e' - e))%Z with (- e)%Z by lia.
  replace (Z.pos (p + 1) * 2 ^ (- e) - Z.pos p * 2 ^ (- e) * 2 ^ 0)%Z
    with (2 ^ (- e))%Z by (rewrite Pos2Z.inj_add; change (2 ^ 0)%Z with 1%Z; lia).
  clear He He' Hmono Hm Hm'.
  destruct (- e)%Z as [ | j | j] eqn:E; try lia.
  - assert (e = 0%Z) by lia. subst e. reflexivity.
  - replace e with (- Z.pos j)%Z by lia.
    replace (2 ^ Z.pos j)%Z with (Z.pos (Pos.iter xO 1%positive j))
      by (rewrite iter_xO_pow; lia).
    cbn [binary_normalize]. apply binary_round_pow2. lia.
Qed.

(** Two consecutive integers up to 2^24 differ by [1.0f]. *)
Lemma of_Z_diff (n : Z) :
  (0 <= n < 16777216)%Z -> (F32.of_Z (n + 1) - F32.of_Z n)%f32 = f1.
Proof.
  intro Hn.
  destruct (Z.eq_dec n 0) as [-> | H0]; [vm_compute; reflexivity | ].
  destruct (Z.eq_dec n 16777215) as [-> | H2]; [vm_compute; reflexivity | ].
  destruct n as [ | p | p]; try lia.
  apply sub_consecutive_pos; lia.
Qed.

(** Multiplication by [1.0f] is exact. *)
Lemma mul_one_valid (a : float) : F32.valid a = true -> (a * f1)%f32 = a.
Proof.
  rewrite f1_eq.
  destruct a as [s | s | | s m e]; intro Hv;
    try (destruct s; reflexivity); try reflexivity.
  destruct (valid_finite_cases s m e Hv) as (Hc & He & _).
  unfold F32.mul, SFmul. rewrite xorb_false_right.
  replace (m * 8388608)%positive with (Pos.iter xO m 23)
    by (apply Pos2Z.inj; rewrite iter_xO_pow; lia).
  replace (e + -23)%Z with (e - 23)%Z by lia.
  apply binary_round_aux_shifted; [exact Hc | lia].
Qed.

(** *** Sums of positive values *)

Lemma shr_1_value (mrs : shr_record) :
  (0 <= shr_m mrs)%Z -> shr_m (shr_1 mrs) = (shr_m mrs / 2)%Z.
Proof.
  destruct mrs as [m r s]. cbn [shr_m]. intro Hm.
  destruct m as [ | [p | p | ] | p]; cbn [shr_1 shr_m]; try lia.
  - reflexivity.
  - apply (Z.div_unique_pos _ _ _ 1); lia.
  - apply (Z.div_unique_pos _ _ _ 0); lia.
  - reflexivity.
Qed.

Lemma shr_iter_value (n : positive) (mrs : shr_record) :
  (0 <= shr_m mrs)%Z ->
  shr_m (iter_pos shr_1 n mrs) = (shr_m mrs / 2 ^ Z.pos n)%Z.
Proof.
  intro Hm. rewrite iter_pos_eq.
  induction n as [ | n IH] using Pos.peano_ind.
  - cbn [Pos.iter]. rewrite shr_1_value by exact Hm. reflexivity.
  - rewrite Pos.iter_succ, shr_1_value, IH.
    + rewrite Pos2Z.inj_succ, Z.pow_succ_r by lia.
      rewrite Z.div_div by lia. f_equal. lia.
    + rewrite IH. apply Z.div_pos; [exact Hm | ].
      apply Z.pow_pos_nonneg; lia.
Qed.

(** The mantissa and the exponent [shr] leaves. *)
Lemma shr_value (m e n : Z) (r s : bool) :
  (0 <= m)%Z -> (0 <= n)%Z ->
  shr_m (fst (shr (Build_shr_record m r s) e n)) = (m / 2 ^ n)%Z /\
  snd (shr (Build_shr_record m r s) e n) = (e + n)%Z.
Proof.
  intros Hm Hn. destruct n as [ | p | p]; try lia; cbn [shr fst snd].
  - cbn [shr_m]. rewrite Z.div_1_r. split; [reflexivity | lia].
  - rewrite shr_iter_value by exact Hm. split; reflexivity.
Qed.

Lemma shr_nonpos (mrs : shr_record) (e n : Z) :
  (n <= 0)%Z -> shr mrs e n = (mrs, e).
Proof. destruct n as [ | p | p]; intro H; try reflexivity. lia. Qed.

Lemma round_nearest_even_ge (m : Z) (l : location) :
  (m <= round_nearest_even m l)%Z.
Proof.
  destruct l as [ | [ | | ]]; cbn [round_nearest_even]; try lia.
  destruct (Z.even m); lia.
Qed.

Lemma Zdigits2_bounds (m : Z) :
  (0 < m)%Z -> (2 ^ (Zdigits2 m - 1) <= m < 2 ^ Zdigits2 m)%Z.
Proof.
  destruct m as [ | p | p]; intro H; try lia. apply digits_bounds.
Qed.

(** The renormalisation after rounding: the exponent does not go down,
    the mantissa stays positive, and it is unchanged when the exponent
    is. *)
Lemma shr_fexp_renormalise (m e : Z) :
  (0 < m)%Z -> (-149 <= e)%Z ->
  let res := shr_fexp F32.prec F32.emax m e loc_Exact in
  (e <= snd res)%Z /\ (0 < shr_m (fst res))%Z /\
  (snd res = e -> shr_m (fst res) = m).
Proof.
  intros Hm He. unfold shr_fexp. cbn [shr_record_of_loc].
  set (n := (fexp F32.prec F32.emax (Zdigits2 m + e) - e)%Z).
  destruct (Z_le_gt_dec n 0) as [Hn | Hn].
  - rewrite shr_nonpos by exact Hn. cbn [fst snd shr_m]. lia.
  - destruct (shr_value m e n false false ltac:(lia) ltac:(lia)) as [Hv He'].
    cbv zeta. rewrite Hv, He'.
    split; [lia | ]. split; [ | lia].
    assert (Hn' : n = (Zdigits2 m - 24)%Z).
    { subst n. unfold fexp, emin, F32.prec, F32.emax in *. lia. }
    destruct (Zdigits2_bounds m Hm) as [Hlo _].
    apply Z.div_str_pos. split; [apply Z.pow_pos_nonneg; lia | ].
    apply Z.le_trans with (2 ^ (Zdigits2 m - 1))%Z; [ | exact Hlo].
    apply Z.pow_le_mono_r; lia.
Qed.

Lemma fexp_ge_emin (n : Z) : (-149 <= fexp F32.prec F32.emax n)%Z.
Proof. unfold fexp, emin, F32.prec, F32.emax. lia. Qed.

Lemma fexp_mono (a b : Z) :
  (a <= b)%Z -> (fexp F32.prec F32.emax a <= fexp F32.prec F32.emax b)%Z.
Proof. unfold fexp. lia. Qed.

Lemma digits_unique (p : positive) (n : Z) :
  (2 ^ (n - 1) <= Z.pos p < 2 ^ n)%Z -> Z.pos (digits2_pos p) = n.
Proof.
  intros [Hlo Hhi]. destruct (digits_bounds p) as [Dlo Dhi].
  assert (Hn : (0 <= n)%Z).
  { destruct (Z_lt_ge_dec n 0) as [H | H]; [ | lia].
    rewrite Z.pow_neg_r in Hhi by lia. lia. }
  assert (H1 : (n - 1 < Z.pos (digits2_pos p))%Z).
  { apply (Z.pow_lt_mono_r_iff 2); lia. }
  assert (H2 : (Z.pos (digits2_pos p) - 1 < n)%Z).
  { apply (Z.pow_lt_mono_r_iff 2); lia. }
  lia.
Qed.

Lemma Zdigits2_div (m n : Z) :
  (0 < m)%Z -> (0 <= n < Zdigits2 m)%Z ->
  (0 < m / 2 ^ n)%Z /\ Zdigits2 (m / 2 ^ n) = (Zdigits2 m - n)%Z.
Proof.
  intros Hm Hn. destruct (Zdigits2_bounds m Hm) as [Hlo Hhi].
  assert (Hp : (0 < 2 ^ n)%Z) by (apply Z.pow_pos_nonneg; lia).
  assert (Hq1 : (2 ^ (Zdigits2 m - n - 1) <= m / 2 ^ n)%Z).
  { apply Z.div_le_lower_bound; [exact Hp | ].
    rewrite <- Z.pow_add_r by lia.
    replace (n + (Zdigits2 m - n - 1))%Z with (Zdigits2 m - 1)%Z by lia.
    exact Hlo. }
  assert (Hq2 : (m / 2 ^ n < 2 ^ (Zdigits2 m - n))%Z).
  { apply Z.div_lt_upper_bound; [exact Hp | ].
    rewrite <- Z.pow_add_r by lia.
    replace (n + (Zdigits2 m - n))%Z with (Zdigits2 m) by lia.
    exact Hhi. }
  assert (Hpos : (0 < m / 2 ^ n)%Z).
  { apply Z.lt_le_trans with (2 ^ (Zdigits2 m - n - 1))%Z; [ | exact Hq1].
    apply Z.pow_pos_nonneg; lia. }
  split; [exact Hpos | ].
  destruct (m / 2 ^ n)%Z as [ | q | q]; try lia.
  cbn [Zdigits2]. apply digits_unique. split; assumption.
Qed.

Lemma Zdigits2_mono (a b : Z) :
  (0 < a <= b)%Z -> (Zdigits2 a <= Zdigits2 b)%Z.
Proof.
  intros [Ha Hab]. destruct a as [ | p | p], b as [ | q | q]; try lia.
  cbn [Zdigits2]. apply digits_mono. lia.
Qed.

(** A right shift to the exponent [fexp] asks for leaves a canonical
    mantissa, unless it leaves nothing. *)
Lemma shr_fexp_canonical (m e : Z) (l : location) :
  (0 < m)%Z ->
  (e <= fexp F32.prec F32.emax (Zdigits2 m + e))%Z ->
  let F := fexp F32.prec F32.emax (Zdigits2 m + e) in
  let res := shr_fexp F32.prec F32.emax m e l in
  snd res = F /\
  shr_m (fst res) = (m / 2 ^ (F - e))%Z /\
  ((0 < m / 2 ^ (F - e))%Z ->
   fexp F32.prec F32.emax (Zdigits2 (shr_m (fst res)) + snd res) = snd res).
Proof.
  intros Hm Hn. cbv zeta. unfold shr_fexp.
  set (F := fexp F32.prec F32.emax (Zdigits2 m + e)) in *.
  destruct (shr_record_of_loc m l) as [m0 r0 s0] eqn:Erec.
  assert (Hm0 : m0 = m).
  { destruct l as [ | [ | | ]]; cbn [shr_record_of_loc] in Erec;
      injection Erec as <- _ _; reflexivity. }
  subst m0.
  destruct (shr_value m e (F - e) r0 s0 ltac:(lia) ltac:(lia)) as [Hv He'].
  rewrite Hv, He'.
  replace (e + (F - e))%Z with F by lia.
  split; [reflexivity | ]. split; [reflexivity | ].
  intro Hpos.
  assert (Hd : (0 <= F - e < Zdigits2 m)%Z).
  { split; [lia | ].
    destruct (Z_lt_ge_dec (F - e) (Zdigits2 m)) as [H | H]; [exact H | ].
    exfalso. destruct (Zdigits2_bounds m Hm) as [_ Hhi].
    assert (2 ^ Zdigits2 m <= 2 ^ (F - e))%Z
      by (apply Z.pow_le_mono_r; lia).
    rewrite Z.div_small in Hpos by lia. lia. }
  destruct (Zdigits2_div m (F - e) Hm Hd) as [_ ->].
  replace (Zdigits2 m - (F - e) + F)%Z with (Zdigits2 m + e)%Z by lia.
  reflexivity.
Qed.

(** The sum of a positive binary32 value and a positive finite number is
    again a positive binary32 value, or [+inf], and it is not below the
    first summand. *)
Lemma add_pos_spec (mx my : positive) (ex ey : Z) :
  F32.valid (S754_finite false mx ex) = true ->
  let r := (S754_finite false mx ex + S754_finite false my ey)%f32 in
  F32.leb (S754_finite false mx ex) r = true /\
  (r = S754_infinity false \/
   exists m e, r = S754_finite false m e /\ F32.valid r = true).
Proof.
  intro Hv. cbv zeta.
  destruct (valid_finite_cases false mx ex Hv) as (Hc & He & _).
  apply canonical_fexp in Hc.
  unfold F32.add, SFadd. cbn [cond_Zopp].
  set (ez := Z.min ex ey).
  assert (Hez : (ez <= ex)%Z) by (subst ez; lia).
  pose proof (shl_align_value mx ex ez Hez) as Ha.
  set (a := fst (shl_align mx ex ez)) in *.
  set (b := fst (shl_align my ey ez)).
  cbn [Z.add binary_normalize].
  set (M := (a + b)%positive).
  assert (HM : (Z.pos mx * 2 ^ (ex - ez) <= Z.pos M)%Z) by (subst M; lia).
  assert (Hpow : (0 < 2 ^ (ex - ez))%Z) by (apply Z.pow_pos_nonneg; lia).
  (* the digits of the sum *)
  assert (HD : (Z.pos (digits2_pos mx) + ex <= Z.pos (digits2_pos M) + ez)%Z).
  { destruct (digits_bounds mx) as [Hlo _].
    destruct (digits_bounds M) as [_ Hhi].
    assert (H : (2 ^ (Z.pos (digits2_pos mx) - 1 + (ex - ez))
                 < 2 ^ Z.pos (digits2_pos M))%Z).
    { rewrite Z.pow_add_r by lia.
      apply Z.le_lt_trans with (Z.pos M); [ | exact Hhi].
      apply Z.le_trans with (Z.pos mx * 2 ^ (ex - ez))%Z; [ | exact HM].
      apply Z.mul_le_mono_nonneg_r; lia. }
    apply Z.pow_lt_mono_r_iff in H; lia. }
  pose proof (fexp_mono _ _ HD) as HF. rewrite Hc in HF.
  pose proof (fexp_ge_emin (Z.pos (digits2_pos M) + ez)) as HFmin.
  unfold binary_round.
  rewrite shl_align_none by lia.
  unfold binary_round_aux.
  (* the first shift *)
  pose proof (shr_fexp_canonical (Z.pos M) ez loc_Exact) as H1.
  cbn [Zdigits2] in H1. cbv zeta in H1.
  set (F := fexp F32.prec F32.emax (Z.pos (digits2_pos M) + ez)) in *.
  destruct (shr_fexp F32.prec F32.emax (Z.pos M) ez loc_Exact) as [mrs' e'].
  cbn [fst snd] in H1.
  destruct H1 as (He' & Hm1 & Hcan1); [lia | lia | ]. subst e'.
  cbv beta iota.
  assert (Hm1pos : (0 < Z.pos M / 2 ^ (F - ez))%Z).
  { apply Z.div_str_pos.
    split; [apply Z.pow_pos_nonneg; lia | ].
    destruct (Z.eq_dec F ex) as [HFe | HFe].
    - rewrite HFe.
      apply Z.le_trans with (Z.pos mx * 2 ^ (ex - ez))%Z; [ | exact HM].
      nia.
    - assert (HF' : F = (Z.pos (digits2_pos M) + ez - 24)%Z).
      { subst F. unfold fexp, emin, F32.prec, F32.emax in *. lia. }
      destruct (digits_bounds M) as [Hlo _].
      apply Z.le_trans with (2 ^ (Z.pos (digits2_pos M) - 1))%Z;
        [ | exact Hlo].
      apply Z.pow_le_mono_r; lia. }
  specialize (Hcan1 Hm1pos). rewrite <- Hm1 in Hm1pos.
  set (m2 := round_nearest_even (shr_m mrs') (loc_of_shr_record mrs')).
  assert (Hm2 : (shr_m mrs' <= m2)%Z) by apply round_nearest_even_ge.
  assert (Hm2pos : (0 < m2)%Z) by lia.
  (* the renormalisation *)
  assert (HF2 : (F <= fexp F32.prec F32.emax (Zdigits2 m2 + F))%Z).
  { rewrite <- Hcan1 at 1. apply fexp_mono.
    pose proof (Zdigits2_mono (shr_m mrs') m2 ltac:(lia)). lia. }
  pose proof (shr_fexp_renormalise m2 F Hm2pos HFmin) as Hren.
  pose proof (shr_fexp_canonical m2 F loc_Exact Hm2pos HF2) as H2.
  cbv zeta in Hren, H2.
  destruct (shr_fexp F32.prec F32.emax m2 F loc_Exact) as [mrs'' e''].
  cbn [fst snd] in Hren, H2.
  destruct Hren as (Hge & Hpos & Hsame).
  destruct H2 as (He'' & Hm3 & Hcan2).
  rewrite <- Hm3 in Hcan2. specialize (Hcan2 Hpos).
  destruct (shr_m mrs'') as [ | m3 | m3] eqn:Em3; try lia.
  destruct (e'' <=? F32.emax - F32.prec)%Z eqn:Eover;
    [ | split; [reflexivity | left; reflexivity]].
  split.
  - unfold F32.leb, SFleb, SFcompare.
    destruct (Z.compare_spec ex e'') as [Heq | Hlt | Hgt];
      [ | reflexivity | lia].
    rewrite pos_compare_cont_Eq.
    assert (Hle : (Z.pos mx <= Z.pos m3)%Z).
    { rewrite Hsame by lia.
      apply Z.le_trans with (shr_m mrs'); [ | exact Hm2].
      rewrite Hm1. replace F with ex by lia.
      apply Z.div_le_lower_bound; lia. }
    destruct (Pos.compare_spec mx m3); try reflexivity. lia.
  - right. exists m3, e''. split; [reflexivity | ].
    unfold F32.valid, valid_binary, bounded, canonical_mantissa.
    rewrite Eover. cbn [Zdigits2] in Hcan2. rewrite Hcan2, Z.eqb_refl.
    reflexivity.
Qed.

(** *** The order of binary32 values *)

Lemma ltb_leb (a b : float) : F32.ltb a b = true -> F32.leb a b = true.
Proof.
  unfold F32.ltb, F32.leb, SFltb, SFleb.
  destruct (SFcompare a b) as [[ | | ] | ]; congruence.
Qed.

Lemma ltb_not_leb (a b : float) : F32.ltb a b = true -> F32.leb b a = false.
Proof.
  unfold F32.ltb, F32.leb, SFltb, SFleb, SFcompare.
  destruct a as [[] | [] | | [] ma ea], b as [[] | [] | | [] mb eb];
    intro H; try discriminate; try reflexivity; cmp_cases.
Qed.

(** [b <= a < t] leaves no room for [t <= b]. *)
Lemma leb_ltb_not_leb (b a t : float) :
  F32.leb b a = true -> F32.ltb a t = true -> F32.leb t b = false.
Proof.
  unfold F32.ltb, F32.leb, SFltb, SFleb, SFcompare.
  destruct a as [[] | [] | | [] ma ea], b as [[] | [] | | [] mb eb],
           t as [[] | [] | | [] mt et];
    intros H1 H2; try discriminate; try reflexivity; cmp_cases.
Qed.

(** [t < a <= b] leaves no room for [b <= t]. *)
Lemma ltb_leb_not_leb (t a b : float) :
  F32.ltb t a = true -> F32.leb a b = true -> F32.leb b t = false.
Proof.
  unfold F32.ltb, F32.leb, SFltb, SFleb, SFcompare.
  destruct a as [[] | [] | | [] ma ea], b as [[] | [] | | [] mb eb],
           t as [[] | [] | | [] mt et];
    intros H1 H2; try discriminate; try reflexivity; cmp_cases.
Qed.

Lemma gtb_irrefl (a : float) : F32.gtb a a = false.
Proof.
  unfold F32.gtb, SFltb, SFcompare.
  destruct a as [[] | [] | | [] m e]; try reflexivity; cmp_cases.
Qed.

Lemma eqb_not_gtb (a b : float) : F32.eqb a b = true -> F32.gtb a b = false.
Proof.
  unfold F32.eqb, F32.gtb, SFeqb, SFltb, SFcompare.
  destruct a as [[] | [] | | [] ma ea], b as [[] | [] | | [] mb eb];
    intro H; try discriminate; try reflexivity; cmp_cases.
Qed.

Lemma leb_refl (a : float) : F32.is_nan a = false -> F32.leb a a = true.
Proof.
  unfold F32.leb, SFleb, SFcompare.
  destruct a as [[] | [] | | [] m e]; intro H; try discriminate;
    try reflexivity; cmp_cases.
Qed.

Lemma of_Z_not_nan (a : Z) :
  (0 <= a <= 16777216)%Z -> F32.is_nan (F32.of_Z a) = false.
Proof.
  intro Ha.
  destruct (Z.eq_dec a 16777216) as [-> | Hne]; [vm_compute; reflexivity | ].
  destruct a as [ | p | p]; try lia; [reflexivity | ].
  destruct (int_form_exists p) as (m & e & Hf); [apply digits_le_24; lia | ].
  rewrite (of_Z_int_form p m e Hf). reflexivity.
Qed.

Lemma of_Z_le (a b : Z) :
  (0 <= a <= b)%Z -> (b <= 16777216)%Z ->
  F32.leb (F32.of_Z a) (F32.of_Z b) = true.
Proof.
  intros Ha Hb. destruct (Z.eq_dec a b) as [-> | Hne].
  - apply leb_refl, of_Z_not_nan. lia.
  - apply ltb_leb, of_Z_lt; lia.
Qed.

(** *** Square roots of numbers that are not negative *)

Lemma shr_record_of_loc_m (m : Z) (l : location) :
  shr_m (shr_record_of_loc m l) = m.
Proof. destruct l as [ | [ | | ]]; reflexivity. Qed.

Lemma shr_nonneg (mrs : shr_record) (e n : Z) :
  (0 <= shr_m mrs)%Z -> (0 <= shr_m (fst (shr mrs e n)))%Z.
Proof.
  intro Hm. destruct n as [ | p | p]; cbn [shr fst]; try exact Hm.
  rewrite shr_iter_value by exact Hm.
  apply Z.div_pos; [exact Hm | apply Z.pow_pos_nonneg; lia].
Qed.

(** Rounding a mantissa that is not negative never gives NaN. *)
Lemma round_not_nan (s : bool) (m e : Z) (l : location) :
  (0 <= m)%Z ->
  F32.is_nan (binary_round_aux F32.prec F32.emax s m e l) = false.
Proof.
  intro Hm. unfold binary_round_aux, shr_fexp.
  pose proof (shr_nonneg (shr_record_of_loc m l) e
                (fexp F32.prec F32.emax (Zdigits2 m + e) - e)) as H1.
  rewrite shr_record_of_loc_m in H1. specialize (H1 Hm).
  destruct (shr (shr_record_of_loc m l) e _) as [mrs' e'].
  cbn [fst] in H1.
  set (m2 := round_nearest_even (shr_m mrs') (loc_of_shr_record mrs')).
  assert (Hm2 : (0 <= m2)%Z)
    by (pose proof (round_nearest_even_ge (shr_m mrs')
                      (loc_of_shr_record mrs')); subst m2; lia).
  pose proof (shr_nonneg (shr_record_of_loc m2 loc_Exact) e'
                (fexp F32.prec F32.emax (Zdigits2 m2 + e') - e')) as H2.
  rewrite shr_record_of_loc_m in H2. specialize (H2 Hm2).
  destruct (shr (shr_record_of_loc m2 loc_Exact) e' _) as [mrs'' e''].
  cbn [fst] in H2.
  destruct (shr_m mrs'') as [ | p | p]; try lia; try reflexivity.
  destruct (e'' <=? F32.emax - F32.prec)%Z; reflexivity.
Qed.

(** The square root of a number that is at least zero is a number that is
    at least zero. *)
Lemma sqrt_of_nonneg (a : float) :
  F32.leb f0 a = true -> F32.leb f0 (F32.sqrt a) = true.
Proof.
  destruct a as [s | [] | | [] m e]; intro Ha; try discriminate;
    try (destruct s; reflexivity); try reflexivity.
  unfold F32.sqrt, SFsqrt, SFsqrt_core_binary.
  set (m' := match (e - 2 * _)%Z with
             | 0%Z => Z.pos m
             | Z.pos _ => Z.shiftl (Z.pos m) _
             | Z.neg _ => 0%Z
             end).
  assert (Hm' : (0 <= m')%Z).
  { subst m'. destruct (e - 2 * _)%Z; try lia.
    apply Z.shiftl_nonneg. lia. }
  pose proof (Z.sqrtrem_spec m' Hm') as Hspec.
  destruct (Z.sqrtrem m') as [q r].
  assert (Hq : (0 <= q)%Z) by nia.
  set (l := if (r =? 0)%Z then loc_Exact else _).
  set (e' := Z.min _ _).
  pose proof (round_not_nan false q e' l Hq) as Hnn.
  destruct (binary_round_aux_shape false q e' l)
    as [H | [H | [H | (m3 & e3 & H)]]]; rewrite H in *;
    try discriminate; reflexivity.
Qed.

End Integers.

(** ** Knots and segments of a built spline *)

Section Knots.
Context {libm : Libm}.

Lemma knot_0 : knot 0 = f0.
Proof. reflexivity. Qed.

Lemma knot_succ (i : nat) : (knot i + f1)%f32 = knot (S i).
Proof.
  unfold knot, knot_max.
  destruct (Z_lt_ge_dec (Z.of_nat i) 16777216) as [Hlt | Hge].
  - rewrite Z.min_l by lia. rewrite of_Z_succ by lia.
    f_equal. lia.
  - rewrite !Z.min_r by lia. apply of_Z_saturated.
Qed.

Lemma knot_small (i : nat) :
  (Z.of_nat i <= knot_max)%Z -> knot i = F32.of_Z (Z.of_nat i).
Proof. intro H. unfold knot. now rewrite Z.min_l. Qed.

Lemma knot_le (i j : nat) : (i <= j)%nat -> F32.leb (knot i) (knot j) = true.
Proof. intro H. unfold knot, knot_max. apply of_Z_le; lia. Qed.

Lemma knot_lt (i j : nat) :
  (i < j)%nat -> (Z.of_nat j <= knot_max)%Z ->
  F32.ltb (knot i) (knot j) = true.
Proof. unfold knot, knot_max. intros H Hj. apply of_Z_lt; lia. Qed.

Lemma knot_diff (k : nat) :
  (1 <= k)%nat -> (Z.of_nat k <= knot_max)%Z ->
  (knot k - knot (k - 1))%f32 = f1.
Proof.
  intros Hk Hmax. unfold knot, knot_max in *.
  rewrite !Z.min_l by lia.
  replace (Z.of_nat k) with (Z.of_nat (k - 1) + 1)%Z by lia.
  apply of_Z_diff. lia.
Qed.

Lemma knots_S (n : nat) : knots (S n) = knots n ++ [knot n].
Proof. unfold knots. now rewrite seq_S, map_app. Qed.

Lemma nth_knots (n i : nat) : (i < n)%nat -> at_ f0 (knots n) i = knot i.
Proof.
  intro H. unfold at_, knots. rewrite <- knot_0.
  rewrite map_nth. now rewrite seq_nth.
Qed.

Lemma back_snoc {A : Type} (d a : A) (l : list A) : back d (l ++ [a]) = a.
Proof. unfold back. apply last_last. Qed.

(** The invariant of [addControlPoint]: after [n] calls the knot vector
    is [knots n]. *)
Lemma addControlPoint_knots (p : vec2) (sp : Spline) (n : nat) :
  length (cps_ sp) = n -> ts_ sp = knots n ->
  length (cps_ (addControlPoint p sp)) = S n /\
  ts_ (addControlPoint p sp) = knots (S n).
Proof.
  intros Hlen Hts. unfold addControlPoint. cbn [cps_ ts_].
  split; [rewrite length_app; simpl; lia | ].
  rewrite knots_S, Hts. f_equal. f_equal.
  destruct n as [ | n'].
  - destruct (cps_ sp); [reflexivity | discriminate].
  - destruct (cps_ sp); [discriminate | ].
    rewrite knots_S, back_snoc. apply knot_succ.
Qed.

Lemma fold_addControlPoint_knots (ps : list vec2) (sp : Spline) (n : nat) :
  length (cps_ sp) = n -> ts_ sp = knots n ->
  ts_ (fold_left (fun sp p => addControlPoint p sp) ps sp)
  = knots (n + length ps).
Proof.
  revert sp n. induction ps as [ | p ps IH]; intros sp n Hlen Hts; simpl.
  - now rewrite Nat.add_0_r.
  - destruct (addControlPoint_knots p sp n Hlen Hts) as [Hlen' Hts'].
    rewrite (IH _ (S n) Hlen' Hts'). f_equal. lia.
Qed.

Lemma build_ts (ps : list vec2) : ts_ (build ps) = knots (length ps).
Proof. unfold build. now rewrite (fold_addControlPoint_knots ps emptySpline 0). Qed.

Local Open Scope vec2_scope.

Lemma evaluate_scan_step (sp : Spline) (t : float) (i n : nat) :
  evaluate_scan sp t i (S n) =
  if in_segment sp t i then segment sp i t else evaluate_scan sp t (S i) n.
Proof. reflexivity. Qed.

Lemma Hermite_eq (p0 v0 : vec2) (t0 : float) (p1 v1 : vec2) (t1 t : float) :
  Hermite p0 v0 t0 p1 v1 t1 t =
  let s := ((t - t0) / (t1 - t0))%f32 in
  ((Hermite_a3 p0 v0 t0 p1 v1 t1 *: s + Hermite_a2 p0 v0 t0 p1 v1 t1) *: s
   + v0) *: s + p0.
Proof. reflexivity. Qed.

Lemma evaluate_scan_skip (sp : Spline) (t : float) (m i n : nat) :
  (forall j, (i <= j < i + m)%nat -> in_segment sp t j = false) ->
  evaluate_scan sp t i (m + n) = evaluate_scan sp t (i + m) n.
Proof.
  revert i. induction m as [ | m IH]; intros i Hskip.
  - now rewrite Nat.add_0_r.
  - cbn [Nat.add]. rewrite evaluate_scan_step, Hskip by lia.
    rewrite IH by (intros j Hj; apply Hskip; lia).
    f_equal. lia.
Qed.

Lemma evaluate_scan_miss (sp : Spline) (t : float) (m i : nat) :
  (forall j, (i <= j < i + m)%nat -> in_segment sp t j = false) ->
  evaluate_scan sp t i m = back origin (cps_ sp).
Proof.
  intro Hskip. rewrite <- (Nat.add_0_r m).
  now rewrite evaluate_scan_skip.
Qed.

Lemma evaluate_long (sp : Spline) (t : float) :
  (2 <= length (cps_ sp))%nat ->
  evaluate sp t = evaluate_scan sp t 0 (length (cps_ sp) - 1).
Proof.
  intro H. unfold evaluate.
  destruct (Nat.ltb_spec (length (cps_ sp)) 2); [lia | reflexivity].
Qed.

Lemma build_knot (ps : list vec2) (i : nat) :
  (i < length ps)%nat -> at_ f0 (ts_ (build ps)) i = knot i.
Proof. intro H. rewrite build_ts. now apply nth_knots. Qed.

(** Clamping, as the loop does it: on both sides of the knots the scan
    finds no segment and the last control point is returned. *)
Lemma evaluate_outside (ps : list vec2) (t : float) :
  (2 <= length ps)%nat ->
  F32.ltb t (knot 0) = true \/ F32.gtb t (knot (length ps - 1)) = true ->
  evaluate (build ps) t = back origin ps.
Proof.
  intros Hlen Hout.
  rewrite evaluate_long by (rewrite build_cps; exact Hlen).
  rewrite build_cps.
  rewrite evaluate_scan_miss; [now rewrite build_cps | ].
  intros j Hj. unfold in_segment.
  rewrite !build_knot by lia.
  destruct Hout as [Hbelow | Habove].
  - rewrite (ltb_leb_not_leb t (knot 0) (knot j) Hbelow); [reflexivity | ].
    apply knot_le. lia.
  - unfold F32.gtb in Habove.
    rewrite (leb_ltb_not_leb (knot (j + 1)) (knot (length ps - 1)) t);
      [apply andb_false_r | apply knot_le; lia | exact Habove].
Qed.

(** The scan stops at the first segment that contains the parameter: for
    the knot of index [k >= 1] that is the segment ending there. *)
Lemma evaluate_at_later_knot (ps : list vec2) (k : nat) :
  (Z.of_nat (length ps) <= knot_max + 1)%Z ->
  (1 <= k < length ps)%nat ->
  evaluate (build ps) (knot k) = segment (build ps) (k - 1) (knot k).
Proof.
  intros Hmax Hk.
  rewrite evaluate_long by (rewrite build_cps; lia).
  rewrite build_cps.
  replace (length ps - 1)%nat with ((k - 1) + S (length ps - 1 - k))%nat by lia.
  rewrite evaluate_scan_skip.
  - cbn [Nat.add]. rewrite evaluate_scan_step.
    unfold in_segment. rewrite !build_knot by lia.
    replace (k - 1 + 1)%nat with k by lia.
    rewrite knot_le by lia. rewrite knot_le by lia. reflexivity.
  - intros j Hj. unfold in_segment. rewrite !build_knot by lia.
    rewrite (ltb_not_leb (knot (j + 1)) (knot k));
      [apply andb_false_r | ].
    apply knot_lt; [lia | ]. unfold knot_max in *. lia.
Qed.

Lemma evaluate_at_first_knot (ps : list vec2) :
  (2 <= length ps)%nat ->
  evaluate (build ps) (knot 0) = segment (build ps) 0 (knot 0).
Proof.
  intro Hlen.
  rewrite evaluate_long by (rewrite build_cps; lia).
  rewrite build_cps.
  replace (length ps - 1)%nat with (S (length ps - 2))%nat by lia.
  rewrite evaluate_scan_step. unfold in_segment.
  rewrite !build_knot by lia.
  rewrite !knot_le by lia. reflexivity.
Qed.
End Knots.

(** ** The arithmetic of one step *)

Section StepArithmetic.
Context {libm : Libm}.

Lemma is_nan_eq (a : float) : F32.is_nan a = true -> a = S754_nan.
Proof. destruct a; simpl; congruence. Qed.

Lemma not_nan_finite (a : float) :
  F32.is_finite a = true -> F32.is_nan a = false.
Proof. destruct a; simpl; congruence. Qed.

(** A tangent length that is not a number makes the speed not a number. *)
Lemma length_nan_velocity_nan (sp : Spline) (g : Gondola) :
  stepTangentLength sp g = S754_nan -> stepVelocity sp g = S754_nan.
Proof.
  intro Hlen.
  unfold stepVelocity, stepRadicand, stepInitialHeight, stepCurrentHeight,
    stepNormal.
  rewrite Hlen. unfold V2.add, V2.scale, V2.div. cbn [x y].
  rewrite !div_nan_r, !mul_nan_l, !add_nan_r, sub_nan_l, mul_nan_r, div_nan_l.
  apply sqrt_nan.
Qed.

Lemma velocity_number_length_number (sp : Spline) (g : Gondola) :
  F32.is_nan (stepVelocity sp g) = false ->
  F32.is_nan (stepTangentLength sp g) = false.
Proof.
  intro Hv. destruct (F32.is_nan (stepTangentLength sp g)) eqn:Hl;
    [ | reflexivity].
  rewrite (length_nan_velocity_nan sp g (is_nan_eq _ Hl)) in Hv.
  discriminate.
Qed.

(** With a zero speed or a zero time step the arc parameter advances by a
    zero. *)
Lemma stepAdvance_zero (sp : Spline) (dt : float) (g : Gondola) :
  F32.ltb (stepTangentLength sp g) EPSILON = false ->
  (exists s, stepVelocity sp g = S754_zero s) /\ F32.is_finite dt = true \/
  F32.is_finite (stepVelocity sp g) = true /\ (exists s, dt = S754_zero s) ->
  exists s', stepAdvance sp dt g = S754_zero s'.
Proof.
  intros Hguard Hzero. unfold stepAdvance.
  assert (Hlen : F32.is_nan (stepTangentLength sp g) = false).
  { apply velocity_number_length_number.
    destruct Hzero as [[[s ->] _] | [Hv _]];
      [reflexivity | now apply not_nan_finite]. }
  assert (Hprod : exists s1, (stepVelocity sp g * dt)%f32 = S754_zero s1).
  { destruct Hzero as [[[s ->] Hdt] | [Hv [s ->]]].
    - now apply mul_zero_l.
    - now apply mul_zero_r. }
  destruct Hprod as [s1 ->].
  now apply div_zero_guarded.
Qed.

Lemma stepProgress_zero (sp : Spline) (dt : float) (g : Gondola) :
  F32.ltb (stepTangentLength sp g) EPSILON = false ->
  (exists s, stepVelocity sp g = S754_zero s) /\ F32.is_finite dt = true \/
  F32.is_finite (stepVelocity sp g) = true /\ (exists s, dt = S754_zero s) ->
  same_float (stepProgress sp dt g) (progressAlongSpline_ g).
Proof.
  intros Hguard Hzero. unfold stepProgress.
  destruct (stepAdvance_zero sp dt g Hguard Hzero) as [s' ->].
  apply add_zero_r_same.
Qed.

Lemma stepRotation_zero (sp : Spline) (s : bool) (g : Gondola) :
  F32.is_finite (stepVelocity sp g) = true ->
  F32.valid (stepVelocity sp g) = true ->
  same_float (stepRotation sp (S754_zero s) g) (rotationAngle_ g).
Proof.
  intros Hfin Hval. unfold stepRotation, gondolaRadius_.
  rewrite (div_one_valid _ Hfin Hval).
  destruct (mul_zero_r (stepVelocity sp g) s Hfin) as [s' ->].
  apply sub_zero_r_same.
Qed.

Lemma animate_done (sp : Spline) (dt : float) (g : Gondola) :
  wf_spline sp -> exists g', animate sp dt g = Done g'.
Proof.
  intro Hwf. rewrite animate_eq.
  destruct (negb (GondolaState_eqb (state_ g) Started)); [eauto | ].
  destruct (F32.ltb (stepTangentLength sp g) EPSILON) eqn:Hguard; [eauto | ].
  destruct (F32.ltb (stepTotalForce sp g) f0); [eauto | ].
  destruct (wf_knots_nonempty sp Hwf (tangent_guard_two_points _ _ Hguard))
    as (k & ks & Hk).
  rewrite Hk.
  destruct (F32.gtb (stepProgress sp dt g) (back f0 (k :: ks))); eauto.
Qed.

(** C3, as the code has it.  A step of duration zero in the Started phase
    returns a state.  If it stops at the tangent guard or at the force
    check, arc parameter, world position and heading keep their values.
    Otherwise the world position is overwritten with the curve point at
    the current arc parameter plus normal times radius; arc parameter
    and heading keep their values (as numbers) when the recomputed speed
    is a finite binary32 number, and both become NaN when it is NaN. *)
Theorem C3_zero_step (sp : Spline) (s : bool) (g : Gondola) :
  wf_spline sp ->
  state_ g = Started ->
  exists g',
    animate sp (S754_zero s) g = Done g' /\
    (F32.ltb (stepTangentLength sp g) EPSILON = true \/
     F32.ltb (stepTotalForce sp g) f0 = true ->
       progressAlongSpline_ g' = progressAlongSpline_ g /\
       position_ g' = position_ g /\
       rotationAngle_ g' = rotationAngle_ g) /\
    (F32.ltb (stepTangentLength sp g) EPSILON = false ->
     F32.ltb (stepTotalForce sp g) f0 = false ->
       position_ g' = stepWorldPosition sp g /\
       (F32.is_finite (stepVelocity sp g) = true ->
        F32.valid (stepVelocity sp g) = true ->
          same_float (progressAlongSpline_ g') (progressAlongSpline_ g) /\
          same_float (rotationAngle_ g') (rotationAngle_ g)) /\
       (F32.is_nan (stepVelocity sp g) = true ->
          progressAlongSpline_ g' = S754_nan /\
          rotationAngle_ g' = S754_nan)).
Proof.
  intros Hwf Hst.
  destruct (F32.ltb (stepTangentLength sp g) EPSILON) eqn:Hguard.
  - exists g. rewrite animate_eq, Hst, Hguard. simpl negb. cbv iota.
    repeat split; intros; congruence.
  - rewrite (animate_started sp (S754_zero s) g Hwf Hst Hguard).
    destruct (F32.ltb (stepTotalForce sp g) f0) eqn:Hforce.
    + eexists. split; [reflexivity | ].
      cbn [progressAlongSpline_ position_ rotationAngle_].
      repeat split; intros; congruence.
    + eexists. split; [reflexivity | ].
      cbn [progressAlongSpline_ position_ rotationAngle_].
      split; [intros [H | H]; discriminate | ].
      intros _ _. split; [reflexivity | ]. split.
      * intros Hfin Hval. split.
        -- apply stepProgress_zero; [exact Hguard | right; eauto].
        -- now apply stepRotation_zero.
      * intro Hnan. apply is_nan_eq in Hnan.
        unfold stepProgress, stepAdvance, stepRotation. rewrite Hnan.
        rewrite mul_nan_l, !div_nan_l, mul_nan_l, add_nan_r, sub_nan_r.
        split; reflexivity.
Qed.

(** C5, as the code has it.  The speed is [+0] in a new gondola and after
    a [start] in the Waiting phase.  A step that gets past the tangent
    guard stores the square root of the radicand; the stored speed is
    therefore never a negative number: it is at least zero when the
    radicand is, but it is NaN, not a number at least zero, as soon as
    the radicand is negative. *)
Theorem C5_speed (sp : Spline) (dt : float) (g g' : Gondola) :
  velocity_ newGondola = f0 /\
  (state_ g = Waiting -> velocity_ (start sp g) = f0) /\
  (nonneg_or_nan (velocity_ g) ->
     nonneg_or_nan (velocity_ (start sp g)) /\
     (animate sp dt g = Done g' -> nonneg_or_nan (velocity_ g'))) /\
  (state_ g = Started ->
   F32.ltb (stepTangentLength sp g) EPSILON = false ->
   animate sp dt g = Done g' ->
     velocity_ g' = F32.sqrt (stepRadicand sp g) /\
     (F32.leb f0 (stepRadicand sp g) = true ->
        F32.leb f0 (velocity_ g') = true) /\
     (F32.ltb (stepRadicand sp g) f0 = true ->
        velocity_ g' = S754_nan /\ F32.leb f0 (velocity_ g') = false)).
Proof.
  split; [reflexivity | ]. split; [ | split].
  - intro Hw. unfold start. rewrite Hw. reflexivity.
  - intro Hinv. split.
    + unfold start. destruct (GondolaState_eqb (state_ g) Waiting);
        [right; reflexivity | exact Hinv].
    + rewrite animate_eq.
      destruct (negb (GondolaState_eqb (state_ g) Started));
        [intro H; injection H as <-; exact Hinv | ].
      destruct (F32.ltb (stepTangentLength sp g) EPSILON);
        [intro H; injection H as <-; exact Hinv | ].
      destruct (F32.ltb (stepTotalForce sp g) f0);
        [intro H; injection H as <-; apply sqrt_nonneg_or_nan | ].
      destruct (getKnots sp); [discriminate | ].
      destruct (F32.gtb (stepProgress sp dt g) (back f0 (f :: l)));
        intro H; injection H as <-; apply sqrt_nonneg_or_nan.
  - intros Hst Hguard. rewrite animate_eq, Hst, Hguard. simpl negb. cbv iota.
    assert (Hv : forall gx, velocity_ gx = stepVelocity sp g ->
              velocity_ gx = F32.sqrt (stepRadicand sp g) /\
              (F32.leb f0 (stepRadicand sp g) = true ->
               F32.leb f0 (velocity_ gx) = true) /\
              (F32.ltb (stepRadicand sp g) f0 = true ->
               velocity_ gx = S754_nan /\ F32.leb f0 (velocity_ gx) = false)).
    { intros gx ->. split; [reflexivity | ]. split.
      - intro Hpos. unfold stepVelocity. now apply sqrt_of_nonneg.
      - intro Hneg. unfold stepVelocity.
        rewrite (sqrt_negative _ Hneg). split; reflexivity. }
    destruct (F32.ltb (stepTotalForce sp g) f0);
      [intro H; injection H as <-; apply Hv; reflexivity | ].
    destruct (getKnots sp); [discriminate | ].
    destruct (F32.gtb (stepProgress sp dt g) (back f0 (f :: l)));
      intro H; injection H as <-; apply Hv; reflexivity.
Qed.

(** *** The arc parameter along a run *)

Lemma add_arc_ok (a b : float) :
  arc_ok a -> nonneg_or_nan b ->
  arc_ok (a + b)%f32 /\
  (F32.is_nan (a + b)%f32 = true \/ F32.leb a (a + b)%f32 = true).
Proof.
  intros Ha Hb.
  destruct Ha as [-> | [-> | (m & e & -> & Hv)]].
  - rewrite add_nan_l. split; [left; reflexivity | left; reflexivity].
  - destruct (nonneg_or_nan_cases b Hb)
      as [-> | [[s' ->] | [-> | (m' & e' & ->)]]];
      (split; [unfold arc_ok; auto | auto]).
  - destruct (nonneg_or_nan_cases b Hb)
      as [-> | [[s' ->] | [-> | (m' & e' & ->)]]].
    + split; [left; reflexivity | left; reflexivity].
    + split; [right; right; exists m, e; split; [reflexivity | exact Hv] | ].
      right. apply (leb_refl (S754_finite false m e)). reflexivity.
    + split; [right; left; reflexivity | right; reflexivity].
    + destruct (add_pos_spec m m' e e' Hv) as [Hle Hshape].
      split; [ | right; exact Hle].
      destruct Hshape as [-> | (m3 & e3 & Hr & Hv3)].
      * right; left; reflexivity.
      * right; right. exists m3, e3. split; assumption.
Qed.

Lemma mul_nonneg_nonneg (a b : float) :
  nonneg_or_nan a -> nonneg_or_nan b -> nonneg_or_nan (a * b)%f32.
Proof.
  intros Ha Hb.
  destruct (nonneg_or_nan_cases a Ha)
    as [-> | [[s ->] | [-> | (m & e & ->)]]];
    destruct (nonneg_or_nan_cases b Hb)
      as [-> | [[s' ->] | [-> | (m' & e' & ->)]]];
    try (left; reflexivity); try (right; reflexivity);
    try (right; destruct s; reflexivity);
    try (right; destruct s'; reflexivity);
    try (right; destruct s, s'; reflexivity).
  apply round_nonneg_or_nan.
Qed.

Lemma stepAdvance_nonneg (sp : Spline) (dt : float) (g : Gondola) :
  F32.ltb (stepTangentLength sp g) EPSILON = false ->
  nonneg_or_nan dt ->
  nonneg_or_nan (stepAdvance sp dt g).
Proof.
  intros Hguard Hdt. unfold stepAdvance.
  apply div_nonneg_or_nan; [ | now apply guarded_positive].
  apply mul_nonneg_nonneg; [apply sqrt_nonneg_or_nan | exact Hdt].
Qed.

Lemma arc_ok_start : arc_ok f0_01.
Proof.
  right; right. exists 10737418%positive, (-30)%Z. split; vm_compute; reflexivity.
Qed.

Lemma start_ok (sp : Spline) (g : Gondola) :
  gondola_ok g -> gondola_ok (start sp g).
Proof.
  intro Hg. unfold start.
  destruct (GondolaState_eqb (state_ g) Waiting); [ | exact Hg].
  right. cbn [progressAlongSpline_]. exact arc_ok_start.
Qed.

Lemma animate_ok (sp : Spline) (dt : float) (g g' : Gondola) :
  gondola_ok g -> nonneg_or_nan dt ->
  animate sp dt g = Done g' -> gondola_ok g'.
Proof.
  intros Hg Hdt. rewrite animate_eq.
  destruct (GondolaState_eqb (state_ g) Started) eqn:Hst; cbn [negb];
    [ | intro H; injection H as <-; exact Hg].
  apply GondolaState_eqb_eq in Hst.
  assert (Harc : arc_ok (progressAlongSpline_ g))
    by (destruct Hg as [Hw | Hok]; [congruence | exact Hok]).
  destruct (F32.ltb (stepTangentLength sp g) EPSILON) eqn:Hguard;
    [intro H; injection H as <-; exact Hg | ].
  assert (Hnext : arc_ok (stepProgress sp dt g)).
  { unfold stepProgress.
    apply add_arc_ok; [exact Harc | now apply stepAdvance_nonneg]. }
  destruct (F32.ltb (stepTotalForce sp g) f0);
    [intro H; injection H as <-; right; exact Harc | ].
  destruct (getKnots sp); [discriminate | ].
  destruct (F32.gtb (stepProgress sp dt g) (back f0 (f :: l)));
    intro H; injection H as <-; right; exact Hnext.
Qed.

Lemma run_ok (cs : list call) (sp sp' : Spline) (g g' : Gondola) :
  Forall dt_ok cs -> wf_spline sp -> gondola_ok g ->
  run cs (sp, g) = Some (sp', g') ->
  wf_spline sp' /\ gondola_ok g'.
Proof.
  intro Hcs. revert sp g.
  induction Hcs as [ | c cs Hc Hcs IH]; intros sp g Hwf Hg; cbn [run].
  - intro H. injection H as <- <-. split; assumption.
  - destruct c as [p | | dt]; cbn [exec fst snd].
    + apply IH; [now apply addControlPoint_wf | exact Hg].
    + apply IH; [exact Hwf | now apply start_ok].
    + destruct (animate sp dt g) as [g1 | ] eqn:Ean; [ | discriminate].
      apply IH; [exact Hwf | ].
      exact (animate_ok sp dt g g1 Hg Hc Ean).
Qed.

Lemma reachable_ok (cs : list call) (sp : Spline) (g : Gondola) :
  Forall dt_ok cs ->
  run cs (emptySpline, newGondola) = Some (sp, g) ->
  wf_spline sp /\ gondola_ok g.
Proof.
  intros Hcs Hrun.
  apply (run_ok cs emptySpline sp newGondola g Hcs); [reflexivity | | exact Hrun].
  left. reflexivity.
Qed.

(** C8, as the code has it.  Take any state the program reaches from a
    new gondola and an empty spline by clicks, [start] and steps of
    durations that are not negative.  A further step with [dt > 0] that
    gets past the tangent guard and the force check stores the arc
    parameter plus (speed times dt) over the tangent length, and that sum
    is never below the old arc parameter: it is at least as large, or it
    is NaN.  It is not always larger: when the recomputed speed is zero
    the arc parameter keeps its value. *)
Theorem C8_advance
  (cs : list call) (sp : Spline) (dt : float) (g : Gondola) :
  Forall dt_ok cs ->
  run cs (emptySpline, newGondola) = Some (sp, g) ->
  state_ g = Started ->
  F32.ltb (stepTangentLength sp g) EPSILON = false ->
  F32.ltb (stepTotalForce sp g) f0 = false ->
  F32.ltb f0 dt = true ->
  exists g',
    animate sp dt g = Done g' /\
    progressAlongSpline_ g' =
      (progressAlongSpline_ g
       + (stepVelocity sp g * dt) / stepTangentLength sp g)%f32 /\
    (F32.is_nan (progressAlongSpline_ g') = true \/
     F32.leb (progressAlongSpline_ g) (progressAlongSpline_ g') = true) /\
    (F32.eqb (stepVelocity sp g) f0 = true -> F32.is_finite dt = true ->
       same_float (progressAlongSpline_ g') (progressAlongSpline_ g) /\
       F32.gtb (progressAlongSpline_ g') (progressAlongSpline_ g) = false).
Proof.
  intros Hcs Hrun Hst Hguard Hforce Hdt.
  destruct (reachable_ok cs sp g Hcs Hrun) as [Hwf Hok].
  assert (Harc : arc_ok (progressAlongSpline_ g))
    by (destruct Hok as [Hw | Hok]; [congruence | exact Hok]).
  rewrite (animate_started sp dt g Hwf Hst Hguard), Hforce.
  eexists. split; [reflexivity | ].
  cbn [progressAlongSpline_]. split; [reflexivity | ]. split.
  { apply add_arc_ok; [exact Harc | ].
    apply stepAdvance_nonneg; [exact Hguard | ].
    right. now apply ltb_leb. }
  intros Hzero Hfin.
  assert (Hsame : same_float (stepProgress sp dt g) (progressAlongSpline_ g)).
  { apply stepProgress_zero; [exact Hguard | left].
    split; [now apply eqb_zero_inv | exact Hfin]. }
  split; [exact Hsame | ].
  destruct Hsame as [-> | Heq].
  - apply gtb_irrefl.
  - now apply eqb_not_gtb.
Qed.

End StepArithmetic.

(** ** The knot vector and the curve at the knots *)

Section KnotStatements.
Context {libm : Libm}.

Lemma add_zero_l_same (a : float) (s : bool) :
  same_float (S754_zero s + a)%f32 a.
Proof.
  destruct a as [sa | sa | | sa m e]; try (left; reflexivity).
  right. destruct sa, s; reflexivity.
Qed.

Lemma add_zero_l_finite (a : float) (s : bool) :
  F32.is_finite a = true -> F32.is_finite (S754_zero s + a)%f32 = true.
Proof.
  destruct a as [sa | sa | | sa m e]; intro H; try discriminate.
  - destruct s, sa; reflexivity.
  - reflexivity.
Qed.

(** Horner's scheme at [s = 0] with finite coefficients. *)
Lemma horner_zero (A3 A2 P : float) :
  F32.is_finite A3 = true -> F32.is_finite A2 = true ->
  same_float ((((A3 * f0 + A2) * f0 + f0) * f0) + P)%f32 P.
Proof.
  intros H3 H2. unfold f0, F32.zero.
  destruct (mul_zero_r A3 false H3) as [s1 ->].
  destruct (mul_zero_r _ false (add_zero_l_finite A2 s1 H2)) as [s2 ->].
  assert (Hz : exists s3, ((S754_zero s2 + S754_zero false) * S754_zero false)%f32
                          = S754_zero s3)
    by (destruct s2; eexists; reflexivity).
  destruct Hz as [s3 ->]. apply add_zero_l_same.
Qed.

Lemma segment_at_start (sp : Spline) :
  at_ f0 (ts_ sp) 0 = f0 -> at_ f0 (ts_ sp) 1 = f1 ->
  finite_vec2 (segment_a2 sp 0) = true ->
  finite_vec2 (segment_a3 sp 0) = true ->
  same_vec2 (segment sp 0 f0) (at_ origin (cps_ sp) 0).
Proof.
  unfold finite_vec2, segment_a2, segment_a3, segment.
  intros Ht0 Ht1 Ha2 Ha3.
  apply andb_prop in Ha2. apply andb_prop in Ha3.
  destruct Ha2 as [Ha2x Ha2y], Ha3 as [Ha3x Ha3y].
  rewrite Hermite_eq. cbv zeta.
  change (segment_v0 sp 0) with origin in *.
  change (0 + 1)%nat with 1%nat in *.
  rewrite Ht0, Ht1 in Ha2x, Ha2y, Ha3x, Ha3y |- *.
  replace ((f0 - f0) / (f1 - f0))%f32 with f0 by (vm_compute; reflexivity).
  unfold same_vec2, V2.add, V2.scale. cbn [x y origin].
  split; apply horner_zero; assumption.
Qed.

Lemma knots_exact (n : nat) :
  (Z.of_nat n <= knot_max + 1)%Z ->
  knots n = map (fun i => F32.of_Z (Z.of_nat i)) (seq 0 n).
Proof.
  intro Hn. unfold knots. apply map_ext_in.
  intros i Hi. apply in_seq in Hi. apply knot_small. lia.
Qed.

(** C7, as the code has it.  For up to 16777217 calls of
    [addControlPoint] on an empty spline the knot vector is 0, 1, 2, ...
    in binary32: the first point gets 0, every later point the last knot
    plus one, the knots increase strictly, and the first and the last
    knot are the first and the last parameter handed out. *)
Theorem C7_knots (ps : list vec2) (p : vec2) :
  (Z.of_nat (length ps) <= 16777217)%Z ->
  getKnots (build ps)
    = map (fun i => F32.of_Z (Z.of_nat i)) (seq 0 (length ps)) /\
  getKnots (addControlPoint p (build ps))
    = getKnots (build ps)
      ++ [match ps with
          | [] => f0
          | _ => (back f0 (getKnots (build ps)) + f1)%f32
          end] /\
  (forall i j, (i < j < length ps)%nat ->
     F32.ltb (at_ f0 (getKnots (build ps)) i)
             (at_ f0 (getKnots (build ps)) j) = true) /\
  (ps <> [] ->
     hd f0 (getKnots (build ps)) = F32.of_Z 0 /\
     back f0 (getKnots (build ps))
       = F32.of_Z (Z.of_nat (length ps) - 1)).
Proof.
  intro Hlen. unfold getKnots. rewrite build_ts.
  split; [ | split; [ | split]].
  - apply knots_exact. unfold knot_max. lia.
  - unfold addControlPoint. cbn [ts_]. rewrite build_cps, build_ts.
    reflexivity.
  - intros i j Hij. rewrite !nth_knots by lia.
    apply knot_lt; [lia | unfold knot_max; lia].
  - intro Hne. destruct (length ps) as [ | n] eqn:Hn.
    + destruct ps; [congruence | discriminate].
    + split; [reflexivity | ].
      rewrite knots_S, back_snoc, knot_small by (unfold knot_max; lia).
      f_equal. lia.
Qed.

(** The last knot after [n + 1] clicks, with no list of that length
    built. *)
Lemma click_n_last_knot (n : N) (p : vec2) :
  cps_ (click_n (N.succ n) p) <> [] /\
  back f0 (ts_ (click_n (N.succ n) p))
    = F32.of_Z (Z.min (Z.of_N n) knot_max).
Proof.
  unfold click_n. induction n as [ | n IH] using N.peano_ind.
  - split; [discriminate | reflexivity].
  - destruct IH as [Hne Hback].
    rewrite N.iter_succ. set (sp := N.iter (N.succ n) _ _) in *.
    unfold addControlPoint. cbn [cps_ ts_]. split.
    + intro H. apply app_eq_nil in H. destruct H; discriminate.
    + rewrite back_snoc.
      destruct (cps_ sp); [congruence | ].
      rewrite Hback. unfold knot_max.
      destruct (Z_lt_ge_dec (Z.of_N n) 16777216) as [Hlt | Hge].
      * rewrite Z.min_l by lia. rewrite of_Z_succ by lia.
        rewrite Z.min_l by lia. f_equal. lia.
      * rewrite !Z.min_r by lia. apply of_Z_saturated.
Qed.

Lemma scale_one (v : vec2) : valid_vec2 v = true -> (v *: f1)%v2 = v.
Proof.
  unfold valid_vec2. intro H. apply andb_prop in H. destruct H as [Hx Hy].
  destruct v as [vx vy]. unfold V2.scale. cbn [x y] in *.
  now rewrite !mul_one_valid.
Qed.

(** Horner's scheme at [s = 1] with partial sums that are binary32
    values: the sum of the four coefficients. *)
Lemma horner_one (a3 a2 a1 a0 : vec2) :
  valid_vec2 a3 = true ->
  valid_vec2 (a3 + a2)%v2 = true ->
  valid_vec2 (a3 + a2 + a1)%v2 = true ->
  horner a3 a2 a1 a0 f1 = (a3 + a2 + a1 + a0)%v2.
Proof.
  intros H3 H2 H1. unfold horner.
  now rewrite (scale_one a3 H3), (scale_one _ H2), (scale_one _ H1).
Qed.

Lemma segment_horner (sp : Spline) (i : nat) (t : float) :
  segment sp i t =
  horner (segment_a3 sp i) (segment_a2 sp i) (segment_v0 sp i)
         (at_ origin (cps_ sp) i)
         ((t - at_ f0 (ts_ sp) i)
          / (at_ f0 (ts_ sp) (i + 1) - at_ f0 (ts_ sp) i))%f32.
Proof. reflexivity. Qed.

Lemma f1_div_f1 : (f1 / f1)%f32 = f1.
Proof. vm_compute. reflexivity. Qed.

Lemma f0_div_f1 : ((f0 - f0) / (f1 - f0))%f32 = f0.
Proof. vm_compute. reflexivity. Qed.

(** C1, what the code does.  Outside the knots the scan of [evaluate]
    finds no segment, and the fall-through returns the last control
    point: above the last knot, and below the first knot as well. *)
Theorem C1_outside_returns_last (ps : list vec2) (t : float) :
  (2 <= length ps)%nat ->
  F32.ltb t (hd f0 (getKnots (build ps))) = true \/
  F32.gtb t (back f0 (getKnots (build ps))) = true ->
  evaluate (build ps) t = back origin (cps_ (build ps)).
Proof.
  intros Hlen Hout. rewrite build_cps.
  apply evaluate_outside; [exact Hlen | ].
  unfold getKnots in Hout. rewrite build_ts in Hout.
  destruct (length ps) as [ | n] eqn:Hn; [lia | ].
  replace (S n - 1)%nat with n by lia.
  rewrite knots_S, back_snoc in Hout.
  destruct Hout as [H | H]; [left | right; exact H].
  rewrite <- knots_S in H. exact H.
Qed.

End KnotStatements.

(** ** Call sequences *)

Section Runs.
Context {libm : Libm}.

Lemma build_snoc (ps : list vec2) (p : vec2) :
  build (ps ++ [p]) = addControlPoint p (build ps).
Proof. unfold build. rewrite fold_left_app. reflexivity. Qed.

Lemma run_app (cs1 cs2 : list call) (w : world) :
  run (cs1 ++ cs2) w =
  match run cs1 w with Some w' => run cs2 w' | None => None end.
Proof.
  revert w. induction cs1 as [ | c cs1 IH]; intro w; cbn [run app].
  - reflexivity.
  - destruct (exec c w) as [w' | ]; [apply IH | reflexivity].
Qed.

Lemma run_wf (cs : list call) (sp sp' : Spline) (g g' : Gondola) :
  wf_spline sp -> run cs (sp, g) = Some (sp', g') -> wf_spline sp'.
Proof.
  revert sp g. induction cs as [ | c cs IH]; intros sp g Hwf; cbn [run].
  - intro H. injection H as <- <-. exact Hwf.
  - destruct c as [p | | dt]; cbn [exec fst snd].
    + apply IH. now apply addControlPoint_wf.
    + now apply IH.
    + destruct (animate sp dt g) as [g1 | ]; [ | discriminate]. now apply IH.
Qed.

Lemma run_from_build (cs : list call) (ps : list vec2) (g : Gondola) :
  exists g', run cs (build ps, g) = Some (build (ps ++ clicks cs), g').
Proof.
  revert ps g. induction cs as [ | c cs IH]; intros ps g.
  - exists g. cbn [run clicks]. now rewrite app_nil_r.
  - destruct c as [p | | dt]; cbn [run exec fst snd clicks].
    + rewrite <- build_snoc. destruct (IH (ps ++ [p]) g) as [g' H].
      exists g'. rewrite H, <- app_assoc. reflexivity.
    + apply IH.
    + destruct (animate_done (build ps) dt g (build_wf ps)) as [g1 ->].
      apply IH.
Qed.

(** X1.  Every sequence of clicks, [start] and [animate] calls, from the
    empty spline and the new gondola, runs to its end: no call reads
    [back()] of an empty vector.  The spline it leaves is the one the
    clicks alone build: its control points are the clicked points in
    their order, with one knot each; [start] and [animate] never touch
    it. *)
Theorem X1_run_keeps_track (cs : list call) :
  exists sp g,
    run cs (emptySpline, newGondola) = Some (sp, g) /\
    sp = build (clicks cs) /\
    cps_ sp = clicks cs /\
    length (getKnots sp) = length (clicks cs).
Proof.
  destruct (run_from_build cs [] newGondola) as [g H].
  exists (build (clicks cs)), g. split; [exact H | ].
  split; [reflexivity | ]. split; [apply build_cps | ].
  unfold getKnots. rewrite (build_wf (clicks cs)), build_cps. reflexivity.
Qed.

(** *** The phase along a call sequence *)

Lemma start_state (sp : Spline) (g : Gondola) : state_ (start sp g) <> Waiting.
Proof.
  unfold start. destruct (GondolaState_eqb (state_ g) Waiting) eqn:E.
  - cbn [state_]. discriminate.
  - now apply GondolaState_eqb_neq.
Qed.

Lemma animate_state (sp : Spline) (dt : float) (g g' : Gondola) :
  animate sp dt g = Done g' -> state_ g <> Waiting -> state_ g' <> Waiting.
Proof.
  rewrite animate_eq.
  destruct (negb (GondolaState_eqb (state_ g) Started));
    [intro H; injection H as <-; auto | ].
  destruct (F32.ltb (stepTangentLength sp g) EPSILON);
    [intro H; injection H as <-; auto | ].
  destruct (F32.ltb (stepTotalForce sp g) f0);
    [intro H; injection H as <-; cbn [state_]; discriminate | ].
  destruct (getKnots sp); [discriminate | ].
  destruct (F32.gtb (stepProgress sp dt g) (back f0 (f :: l)));
    intro H; injection H as <-; cbn [state_]; discriminate.
Qed.

Lemma run_state (cs : list call) (sp sp' : Spline) (g g' : Gondola) :
  run cs (sp, g) = Some (sp', g') -> state_ g <> Waiting ->
  state_ g' <> Waiting.
Proof.
  revert sp g. induction cs as [ | c cs IH]; intros sp g; cbn [run].
  - intro H. injection H as <- <-. auto.
  - destruct c as [p | | dt]; cbn [exec fst snd].
    + apply IH.
    + intros H Hs. apply (IH _ _ H). apply start_state.
    + destruct (animate sp dt g) as [g1 | ] eqn:Ean; [ | discriminate].
      intros H Hs. apply (IH _ _ H). exact (animate_state sp dt g g1 Ean Hs).
Qed.

Lemma run_started (cs : list call) (sp sp' : Spline) (g g' : Gondola) :
  In Start cs -> run cs (sp, g) = Some (sp', g') -> state_ g' <> Waiting.
Proof.
  revert sp g. induction cs as [ | c cs IH]; intros sp g Hin; [destruct Hin | ].
  cbn [run]. destruct c as [p | | dt]; cbn [exec fst snd].
  - destruct Hin as [Hc | Hin]; [discriminate | ]. now apply IH.
  - intro H. apply (run_state cs sp sp' (start sp g) g' H), start_state.
  - destruct Hin as [Hc | Hin]; [discriminate | ].
    destruct (animate sp dt g) as [g1 | ]; [ | discriminate]. now apply IH.
Qed.

Lemma run_waiting (cs : list call) (sp sp' : Spline) (g g' : Gondola) :
  ~ In Start cs -> state_ g = Waiting ->
  run cs (sp, g) = Some (sp', g') -> g' = g.
Proof.
  revert sp. induction cs as [ | c cs IH]; intros sp Hin Hw; cbn [run].
  - intro H. injection H as <- <-. reflexivity.
  - destruct c as [p | | dt]; cbn [exec fst snd].
    + apply IH; [intro; apply Hin; now right | exact Hw].
    + exfalso. apply Hin. now left.
    + rewrite animate_not_started by congruence.
      apply IH; [intro; apply Hin; now right | exact Hw].
Qed.

(** X2.  The space bar acts once.  Until the first [start] the gondola is
    exactly as the constructor left it, whatever was clicked and however
    often [animate] ran; from the first [start] on it is never Waiting
    again, and a further [start] changes nothing. *)
Theorem X2_start_acts_once (cs : list call) (sp : Spline) (g : Gondola) :
  run cs (emptySpline, newGondola) = Some (sp, g) ->
  (~ In Start cs -> g = newGondola) /\
  (In Start cs ->
     state_ g <> Waiting /\
     run (cs ++ [Start]) (emptySpline, newGondola) = Some (sp, g)).
Proof.
  intro Hrun. split.
  - intro Hin.
    exact (run_waiting cs emptySpline sp newGondola g Hin eq_refl Hrun).
  - intro Hin.
    pose proof (run_started cs _ _ _ _ Hin Hrun) as Hs.
    split; [exact Hs | ].
    rewrite run_app, Hrun. cbn [run exec fst snd].
    now rewrite start_not_waiting.
Qed.

(** *** What the calls read of the gondola *)

Lemma start_motion (sp : Spline) (g1 g2 : Gondola) :
  agree_on_motion g1 g2 -> agree_on_motion (start sp g1) (start sp g2).
Proof.
  intros (Hp & Hr & Hs). unfold start. rewrite Hs.
  destruct (GondolaState_eqb (state_ g2) Waiting); unfold agree_on_motion.
  - cbn [progressAlongSpline_ rotationAngle_ state_]. tauto.
  - tauto.
Qed.

Lemma step_quantities_motion (sp : Spline) (dt : float) (g1 g2 : Gondola) :
  agree_on_motion g1 g2 ->
  stepTangentLength sp g1 = stepTangentLength sp g2 /\
  stepTotalForce sp g1 = stepTotalForce sp g2 /\
  stepVelocity sp g1 = stepVelocity sp g2 /\
  stepProgress sp dt g1 = stepProgress sp dt g2 /\
  stepWorldPosition sp g1 = stepWorldPosition sp g2 /\
  stepRotation sp dt g1 = stepRotation sp dt g2.
Proof.
  intros (Hp & Hr & Hs).
  unfold stepProgress, stepAdvance, stepRotation, stepWorldPosition,
    stepTotalForce, stepCurvature, stepVelocity, stepRadicand,
    stepInitialHeight, stepCurrentHeight, stepNormal, stepTangentLength,
    stepSecondTangent, stepTangent, stepPosition.
  rewrite Hp, Hr. repeat split; reflexivity.
Qed.

Lemma animate_motion (sp : Spline) (dt : float) (g1 g2 : Gondola) :
  agree_on_motion g1 g2 ->
  match animate sp dt g1, animate sp dt g2 with
  | Done g1', Done g2' =>
      agree_on_motion g1' g2' /\
      (state_ g1 = Started ->
       F32.ltb (stepTangentLength sp g1) EPSILON = false ->
       velocity_ g1' = velocity_ g2')
  | Undefined, Undefined => True
  | _, _ => False
  end.
Proof.
  intro Hag.
  destruct (step_quantities_motion sp dt g1 g2 Hag)
    as (Hl & Hf & Hv & Hp & Hw & Hr).
  rewrite !animate_eq, Hl, Hf, Hv, Hp, Hw, Hr.
  destruct Hag as (Hp0 & Hr0 & Hs0). rewrite Hs0.
  destruct (GondolaState_eqb (state_ g2) Started) eqn:Est; cbn [negb].
  2:{ unfold agree_on_motion. split; [tauto | ].
      intro H. apply GondolaState_eqb_neq in Est. congruence. }
  destruct (F32.ltb (stepTangentLength sp g2) EPSILON).
  { unfold agree_on_motion. split; [tauto | discriminate]. }
  destruct (F32.ltb (stepTotalForce sp g2) f0).
  { unfold agree_on_motion;
      cbn [progressAlongSpline_ rotationAngle_ state_ velocity_]; tauto. }
  destruct (getKnots sp); [exact I | ].
  destruct (F32.gtb (stepProgress sp dt g2) (back f0 (f :: l)));
    unfold agree_on_motion;
    cbn [progressAlongSpline_ rotationAngle_ state_ velocity_]; tauto.
Qed.

(** X3.  The stored speed and the stored world position are outputs
    only, like the stored energy: two gondolas with the same arc
    parameter, heading and phase go, under every call sequence, through
    states with the same arc parameter, heading and phase (and reach
    undefined behaviour together or not at all), whatever speed, position
    and energy they started with.  A step that gets past the tangent
    guard stores the same speed in both. *)
Theorem X3_speed_and_position_never_read
  (cs : list call) (sp : Spline) (dt : float) (g1 g2 : Gondola) :
  agree_on_motion g1 g2 ->
  agree_motion_worlds (run cs (sp, g1)) (run cs (sp, g2)) /\
  (state_ g1 = Started ->
   F32.ltb (stepTangentLength sp g1) EPSILON = false ->
   forall g1' g2',
     animate sp dt g1 = Done g1' -> animate sp dt g2 = Done g2' ->
     velocity_ g1' = velocity_ g2').
Proof.
  intro Hag. split.
  - revert sp g1 g2 Hag.
    induction cs as [ | c cs IH]; intros sp g1 g2 Hag; cbn [run].
    + split; [reflexivity | exact Hag].
    + destruct c as [p | | d]; cbn [exec fst snd].
      * apply IH, Hag.
      * apply IH, start_motion, Hag.
      * pose proof (animate_motion sp d g1 g2 Hag) as H.
        destruct (animate sp d g1), (animate sp d g2);
          cbn [agree_motion_worlds]; try tauto.
        apply IH, H.
  - intros Hst Hguard g1' g2' H1 H2.
    pose proof (animate_motion sp dt g1 g2 Hag) as H.
    rewrite H1, H2 in H. now apply H.
Qed.

End Runs.

(** ** A parameter that is not a number *)

Section NotANumber.
Context {libm : Libm}.

Lemma leb_nan_r (a : float) : F32.leb a S754_nan = false.
Proof. destruct a as [s | s | | s m e]; reflexivity. Qed.

Lemma gtb_nan_l (a : float) : F32.gtb S754_nan a = false.
Proof. destruct a as [s | s | | s m e]; reflexivity. Qed.

Lemma in_segment_nan (sp : Spline) (j : nat) :
  in_segment sp S754_nan j = false.
Proof. unfold in_segment. now rewrite leb_nan_r. Qed.

Lemma evaluate_nan_long (sp : Spline) :
  (2 <= length (cps_ sp))%nat ->
  evaluate sp S754_nan = back origin (cps_ sp).
Proof.
  intro Hlen. rewrite evaluate_long by exact Hlen.
  apply evaluate_scan_miss. intros j _. apply in_segment_nan.
Qed.

Lemma sub_self (a : float) :
  F32.is_finite a = true -> (a - a)%f32 = f0.
Proof.
  destruct a as [[] | s | | s m e]; intro H; try discriminate;
    try reflexivity.
  unfold F32.sub, SFsub. rewrite Z.min_id.
  rewrite shl_align_none by lia. cbn [fst].
  rewrite Z.sub_diag. reflexivity.
Qed.

Lemma vec_sub_self (p : vec2) :
  finite_vec2 p = true -> (p - p)%v2 = origin.
Proof.
  unfold finite_vec2. intro H. apply andb_prop in H. destruct H as [Hx Hy].
  unfold V2.sub. rewrite (sub_self _ Hx), (sub_self _ Hy). reflexivity.
Qed.

Lemma derivative_nan (sp : Spline) :
  (2 <= length (cps_ sp))%nat ->
  finite_vec2 (back origin (cps_ sp)) = true ->
  derivative sp S754_nan = origin.
Proof.
  intros Hlen Hfin. unfold derivative.
  rewrite add_nan_l, sub_nan_l, (evaluate_nan_long sp Hlen).
  rewrite (vec_sub_self _ Hfin). vm_compute. reflexivity.
Qed.

(** With an arc parameter that is not a number the tangent is zero and
    the step stops at the guard. *)
Lemma animate_nan_arc (sp : Spline) (dt : float) (g : Gondola) :
  (2 <= length (cps_ sp))%nat ->
  finite_vec2 (back origin (cps_ sp)) = true ->
  progressAlongSpline_ g = S754_nan ->
  animate sp dt g = Done g.
Proof.
  intros Hlen Hfin Hp. rewrite animate_eq.
  destruct (negb (GondolaState_eqb (state_ g) Started)); [reflexivity | ].
  assert (Hguard : F32.ltb (stepTangentLength sp g) EPSILON = true).
  { unfold stepTangentLength, stepTangent. rewrite Hp.
    rewrite (derivative_nan sp Hlen Hfin). vm_compute. reflexivity. }
  now rewrite Hguard.
Qed.

(** X4.  [evaluate] at a parameter that is NaN: no segment test holds,
    and on a spline of two points or more the loop falls through to the
    last control point; when that point is finite the finite-difference
    tangent there is the zero vector. *)
Theorem X4_evaluate_nan (sp : Spline) :
  (2 <= length (cps_ sp))%nat ->
  evaluate sp S754_nan = back origin (cps_ sp) /\
  (finite_vec2 (back origin (cps_ sp)) = true ->
     derivative sp S754_nan = origin).
Proof.
  intro Hlen. split; [now apply evaluate_nan_long | ].
  intro Hfin. now apply derivative_nan.
Qed.

Lemma total_force_nan (sp : Spline) (g : Gondola) :
  stepVelocity sp g = S754_nan -> stepTotalForce sp g = S754_nan.
Proof.
  intro Hv. unfold stepTotalForce. rewrite Hv.
  now rewrite !mul_nan_r, add_nan_l.
Qed.

(** X5.  A speed that is NaN is not caught.  When the recomputed speed of
    a step past the tangent guard is NaN, the total force is NaN, the
    test [totalForce < 0] fails and so does the test against the last
    knot: the gondola stays Started, with a NaN speed, arc parameter and
    heading.  From then on, on a spline whose last control point is
    finite, every [animate] call stops at the tangent guard: the gondola
    never moves again and never becomes Fallen. *)
Theorem X5_nan_speed_freezes
  (sp : Spline) (dt : float) (g : Gondola) (dts : list float) :
  wf_spline sp ->
  state_ g = Started ->
  F32.ltb (stepTangentLength sp g) EPSILON = false ->
  F32.is_nan (stepVelocity sp g) = true ->
  exists g',
    animate sp dt g = Done g' /\
    state_ g' = Started /\
    velocity_ g' = S754_nan /\
    progressAlongSpline_ g' = S754_nan /\
    rotationAngle_ g' = S754_nan /\
    (finite_vec2 (back origin (cps_ sp)) = true ->
       run (map Animate dts) (sp, g') = Some (sp, g')).
Proof.
  intros Hwf Hst Hguard Hnan. apply is_nan_eq in Hnan.
  rewrite (animate_started sp dt g Hwf Hst Hguard).
  rewrite (total_force_nan sp g Hnan).
  change (F32.ltb S754_nan f0) with false. cbv iota.
  assert (Hp : stepProgress sp dt g = S754_nan).
  { unfold stepProgress, stepAdvance.
    now rewrite Hnan, mul_nan_l, div_nan_l, add_nan_r. }
  assert (Hr : stepRotation sp dt g = S754_nan).
  { unfold stepRotation.
    now rewrite Hnan, div_nan_l, mul_nan_l, sub_nan_r. }
  rewrite Hp, Hr, Hnan, gtb_nan_l.
  eexists. split; [reflexivity | ].
  cbn [state_ velocity_ progressAlongSpline_ rotationAngle_].
  repeat (split; [reflexivity | ]).
  intro Hfin.
  pose proof (tangent_guard_two_points _ _ Hguard) as Hlen.
  induction dts as [ | d dts IH]; cbn [map run exec fst snd];
    [reflexivity | ].
  rewrite animate_nan_arc by (try assumption; reflexivity). exact IH.
Qed.

(** X6.  [start] before the track exists.  On a spline of fewer than two
    control points a waiting gondola is started all the same: the curve
    point is the origin, the tangent is the zero vector, [normalize]
    turns it into NaN, and the state [start] leaves is fixed: arc
    parameter 0.01, speed 0, energy 0.5, heading 0, phase Started, and a
    world position whose two coordinates are NaN. *)
Theorem X6_start_on_short_spline (sp : Spline) (g : Gondola) :
  (length (cps_ sp) < 2)%nat ->
  state_ g = Waiting ->
  start sp g = MkGondola f0_01 f0 f0_5 nan_vec2 f0 Started.
Proof.
  intros Hlen Hw. unfold start. rewrite Hw. cbn [GondolaState_eqb].
  rewrite derivative_short, evaluate_short by assumption.
  vm_compute. reflexivity.
Qed.

End NotANumber.

(** ** The arc parameter and the knots *)

Section OnTrack.
Context {libm : Libm}.

Lemma leb_ltb_trans (a b c : float) :
  F32.leb a b = true -> F32.ltb b c = true -> F32.ltb a c = true.
Proof.
  unfold F32.ltb, F32.leb, SFltb, SFleb, SFcompare.
  destruct a as [[] | [] | | [] ma ea], b as [[] | [] | | [] mb eb],
           c as [[] | [] | | [] mc ec];
    intros H1 H2; try discriminate; try reflexivity; cmp_cases.
Qed.

Lemma leb_trans (a b c : float) :
  F32.leb a b = true -> F32.leb b c = true -> F32.leb a c = true.
Proof.
  unfold F32.leb, SFleb, SFcompare.
  destruct a as [[] | [] | | [] ma ea], b as [[] | [] | | [] mb eb],
           c as [[] | [] | | [] mc ec];
    intros H1 H2; try discriminate; try reflexivity; cmp_cases.
Qed.

(** What is not above [a] is not above a larger [b]. *)
Lemma gtb_mono (p a b : float) :
  F32.gtb p a = false -> F32.leb a b = true -> F32.gtb p b = false.
Proof.
  unfold F32.gtb. intros Hpa Hab.
  destruct (SFltb b p) eqn:E; [ | reflexivity].
  pose proof (leb_ltb_trans a b p Hab E) as H.
  unfold F32.ltb in H. congruence.
Qed.

Lemma back_knots (n : nat) : (1 <= n)%nat -> back f0 (knots n) = knot (n - 1).
Proof.
  intro Hn. destruct n as [ | n]; [lia | ].
  rewrite knots_S, back_snoc. f_equal. lia.
Qed.

Lemma build_last_knot (ps : list vec2) :
  (1 <= length ps)%nat ->
  back f0 (getKnots (build ps)) = knot (length ps - 1).
Proof. intro H. unfold getKnots. rewrite build_ts. now apply back_knots. Qed.

Lemma gtb_start_knot (n : nat) :
  (1 <= n)%nat -> F32.gtb f0_01 (knot n) = false.
Proof.
  intro Hn. apply (gtb_mono f0_01 (knot 1) (knot n)).
  - vm_compute. reflexivity.
  - now apply knot_le.
Qed.

Lemma track_inv_add (ps : list vec2) (p : vec2) (g : Gondola) :
  track_inv ps g -> track_inv (ps ++ [p]) g.
Proof.
  intros Hinv Hst. rewrite length_app. cbn [length].
  destruct (Hinv Hst) as [[Hlen Hp] | [Hlen Hgt]].
  - destruct (Nat.lt_ge_cases (length ps + 1) 2) as [H | H].
    + left. split; [exact H | exact Hp].
    + right. split; [exact H | ]. rewrite Hp. apply gtb_start_knot. lia.
  - right. split; [lia | ].
    apply (gtb_mono _ (knot (length ps - 1))); [exact Hgt | ].
    apply knot_le. lia.
Qed.

Lemma track_inv_started (ps : list vec2) (g : Gondola) :
  track_inv ps g -> track_inv ps (start (build ps) g).
Proof.
  intro Hinv. unfold start.
  destruct (GondolaState_eqb (state_ g) Waiting); [ | exact Hinv].
  intros _. cbn [progressAlongSpline_].
  destruct (Nat.lt_ge_cases (length ps) 2) as [H | H].
  - left. split; [exact H | reflexivity].
  - right. split; [exact H | ]. apply gtb_start_knot. lia.
Qed.

Lemma track_inv_animate (ps : list vec2) (dt : float) (g g' : Gondola) :
  track_inv ps g -> animate (build ps) dt g = Done g' -> track_inv ps g'.
Proof.
  intros Hinv. rewrite animate_eq.
  destruct (negb (GondolaState_eqb (state_ g) Started));
    [intro H; injection H as <-; exact Hinv | ].
  destruct (F32.ltb (stepTangentLength (build ps) g) EPSILON) eqn:Hguard;
    [intro H; injection H as <-; exact Hinv | ].
  pose proof (tangent_guard_two_points _ _ Hguard) as Hlen.
  rewrite build_cps in Hlen.
  destruct (F32.ltb (stepTotalForce (build ps) g) f0);
    [intro H; injection H as <-; intro Hs; discriminate | ].
  rewrite build_last_knot by lia.
  destruct (getKnots (build ps)); [discriminate | ].
  destruct (F32.gtb (stepProgress (build ps) dt g) (knot (length ps - 1)))
    eqn:Hgt; intro H; injection H as <-; intro Hs; [discriminate | ].
  right. split; [exact Hlen | exact Hgt].
Qed.

Lemma run_track_inv (cs : list call) (ps : list vec2) (sp : Spline)
  (g g' : Gondola) :
  track_inv ps g -> run cs (build ps, g) = Some (sp, g') ->
  exists ps', sp = build ps' /\ track_inv ps' g'.
Proof.
  revert ps g. induction cs as [ | c cs IH]; intros ps g Hinv; cbn [run].
  - intro H. injection H as <- <-. eauto.
  - destruct c as [p | | dt]; cbn [exec fst snd].
    + rewrite <- build_snoc. apply IH. now apply track_inv_add.
    + apply IH. now apply track_inv_started.
    + destruct (animate (build ps) dt g) as [g1 | ] eqn:Ean; [ | discriminate].
      apply IH. exact (track_inv_animate ps dt g g1 Hinv Ean).
Qed.

Lemma start_from_start (sp : Spline) (g : Gondola) :
  arc_from_start g -> arc_from_start (start sp g).
Proof.
  intro Hg. unfold start.
  destruct (GondolaState_eqb (state_ g) Waiting); [ | exact Hg].
  right. cbn [progressAlongSpline_]. split; [exact arc_ok_start | ].
  right. vm_compute. reflexivity.
Qed.

Lemma animate_from_start (sp : Spline) (dt : float) (g g' : Gondola) :
  arc_from_start g -> nonneg_or_nan dt ->
  animate sp dt g = Done g' -> arc_from_start g'.
Proof.
  intros Hg Hdt. rewrite animate_eq.
  destruct (GondolaState_eqb (state_ g) Started) eqn:Hst; cbn [negb];
    [ | intro H; injection H as <-; exact Hg].
  apply GondolaState_eqb_eq in Hst.
  destruct Hg as [Hw | [Harc Hlow]]; [congruence | ].
  destruct (F32.ltb (stepTangentLength sp g) EPSILON) eqn:Hguard;
    [intro H; injection H as <-; right; split; assumption | ].
  assert (Hnext : arc_ok (stepProgress sp dt g) /\
                  (F32.is_nan (stepProgress sp dt g) = true \/
                   F32.leb f0_01 (stepProgress sp dt g) = true)).
  { unfold stepProgress.
    destruct (add_arc_ok (progressAlongSpline_ g) (stepAdvance sp dt g) Harc
                (stepAdvance_nonneg sp dt g Hguard Hdt)) as [Hok Hmono].
    split; [exact Hok | ].
    destruct Hmono as [Hn | Hle]; [left; exact Hn | ].
    destruct Hlow as [Hn | Hlo].
    - left. apply is_nan_eq in Hn. rewrite Hn, add_nan_l. reflexivity.
    - right. exact (leb_trans _ _ _ Hlo Hle). }
  destruct (F32.ltb (stepTotalForce sp g) f0);
    [intro H; injection H as <-; right; split; assumption | ].
  destruct (getKnots sp); [discriminate | ].
  destruct (F32.gtb (stepProgress sp dt g) (back f0 (f :: l)));
    intro H; injection H as <-; right; exact Hnext.
Qed.

Lemma run_from_start (cs : list call) (sp sp' : Spline) (g g' : Gondola) :
  Forall dt_ok cs -> arc_from_start g ->
  run cs (sp, g) = Some (sp', g') -> arc_from_start g'.
Proof.
  intro Hcs. revert sp g.
  induction Hcs as [ | c cs Hc Hcs IH]; intros sp g Hg; cbn [run].
  - intro H. injection H as <- <-. exact Hg.
  - destruct c as [p | | dt]; cbn [exec fst snd].
    + now apply IH.
    + apply IH. now apply start_from_start.
    + destruct (animate sp dt g) as [g1 | ] eqn:Ean; [ | discriminate].
      apply IH. exact (animate_from_start sp dt g g1 Hg Hc Ean).
Qed.

(** X7.  A started gondola is on the track.  In every state the program
    reaches from the empty spline and the new gondola, a gondola in the
    Started phase on a spline of two control points or more has an arc
    parameter that is not above the last knot; and when no [animate]
    call was given a negative duration, the arc parameter is NaN or at
    least the 0.01 that [start] set. *)
Theorem X7_started_gondola_on_track
  (cs : list call) (sp : Spline) (g : Gondola) :
  run cs (emptySpline, newGondola) = Some (sp, g) ->
  state_ g = Started ->
  ((2 <= length (cps_ sp))%nat ->
     F32.gtb (progressAlongSpline_ g) (back f0 (getKnots sp)) = false) /\
  (Forall dt_ok cs ->
     F32.is_nan (progressAlongSpline_ g) = true \/
     F32.leb f0_01 (progressAlongSpline_ g) = true).
Proof.
  intros Hrun Hst. split.
  - intro Hlen.
    destruct (run_track_inv cs [] sp newGondola g) as (ps & -> & Hinv);
      [intro H; discriminate | exact Hrun | ].
    rewrite build_cps in Hlen.
    rewrite build_last_knot by lia.
    destruct (Hinv Hst) as [[H _] | [_ H]]; [lia | exact H].
  - intro Hcs.
    destruct (run_from_start cs emptySpline sp newGondola g Hcs) as [H | [_ H]];
      [left; reflexivity | exact Hrun | congruence | exact H].
Qed.

(** The scan stops at the first segment that fits. *)
Lemma evaluate_in_segment (ps : list vec2) (k : nat) (t : float) :
  (S k < length ps)%nat ->
  F32.ltb (knot k) t = true \/ (k = 0%nat /\ F32.leb (knot 0) t = true) ->
  F32.leb t (knot (S k)) = true ->
  evaluate (build ps) t = segment (build ps) k t.
Proof.
  intros Hk Hlo Hhi.
  rewrite evaluate_long by (rewrite build_cps; lia).
  rewrite build_cps.
  replace (length ps - 1)%nat with (k + S (length ps - 2 - k))%nat by lia.
  rewrite evaluate_scan_skip.
  - cbn [Nat.add]. rewrite evaluate_scan_step.
    unfold in_segment. rewrite !build_knot by lia.
    replace (k + 1)%nat with (S k) by lia.
    assert (Hle : F32.leb (knot k) t = true).
    { destruct Hlo as [Hlt | [-> H0]]; [now apply ltb_leb | exact H0]. }
    rewrite Hle, Hhi. reflexivity.
  - intros j Hj. unfold in_segment. rewrite !build_knot by lia.
    destruct Hlo as [Hlt | [-> _]]; [ | lia].
    rewrite (leb_ltb_not_leb (knot (j + 1)) (knot k) t);
      [apply andb_false_r | apply knot_le; lia | exact Hlt].
Qed.

(** X8.  The segments tile the parameter domain and the scan takes the
    first that fits: on a spline built by clicks, a parameter above the
    knot of index [k] and not above the next knot is evaluated on the
    segment of index [k] (and so is a parameter from the first knot on,
    for [k = 0]). *)
Theorem X8_evaluate_between_knots (ps : list vec2) (k : nat) (t : float) :
  (S k < length ps)%nat ->
  F32.ltb (knot k) t = true \/ (k = 0%nat /\ F32.leb (knot 0) t = true) ->
  F32.leb t (knot (S k)) = true ->
  evaluate (build ps) t = segment (build ps) k t /\
  in_segment (build ps) t k = true /\
  (forall j, (j < k)%nat -> in_segment (build ps) t j = false).
Proof.
  intros Hk Hlo Hhi. split; [now apply evaluate_in_segment | ]. split.
  - unfold in_segment. rewrite !build_knot by lia.
    replace (k + 1)%nat with (S k) by lia.
    assert (Hle : F32.leb (knot k) t = true).
    { destruct Hlo as [Hlt | [-> H0]]; [now apply ltb_leb | exact H0]. }
    rewrite Hle, Hhi. reflexivity.
  - intros j Hj. unfold in_segment. rewrite !build_knot by lia.
    destruct Hlo as [Hlt | [-> _]]; [ | lia].
    rewrite (leb_ltb_not_leb (knot (j + 1)) (knot k) t);
      [apply andb_false_r | apply knot_le; lia | exact Hlt].
Qed.

Lemma at_snoc {A : Type} (d a : A) (l : list A) (i : nat) :
  (i < length l)%nat -> at_ d (l ++ [a]) i = at_ d l i.
Proof. intro H. unfold at_. now apply app_nth1. Qed.

(** A segment that is not the last one reads nothing of a new point. *)
Lemma segment_snoc (ps : list vec2) (p : vec2) (k : nat) (t : float) :
  (k + 2 < length ps)%nat ->
  segment (build (ps ++ [p])) k t = segment (build ps) k t.
Proof.
  intro Hk.
  assert (Hlen : length (ps ++ [p]) = S (length ps))
    by (rewrite length_app; cbn [length]; lia).
  unfold segment, segment_v0, segment_v1.
  rewrite !build_cps, Hlen.
  rewrite !build_knot by lia.
  rewrite !at_snoc by lia.
  destruct (Nat.ltb_spec k (S (length ps) - 2)) as [_ | H]; [ | lia].
  destruct (Nat.ltb_spec k (length ps - 2)) as [_ | H]; [ | lia].
  reflexivity.
Qed.

(** X14.  A click changes the curve on its last segment only: the curve
    point at a parameter of a segment that is not the last one is the
    same before and after a further control point is added. *)
Theorem X14_click_keeps_earlier_segments
  (ps : list vec2) (p : vec2) (k : nat) (t : float) :
  (k + 2 < length ps)%nat ->
  F32.ltb (knot k) t = true \/ (k = 0%nat /\ F32.leb (knot 0) t = true) ->
  F32.leb t (knot (S k)) = true ->
  evaluate (build (ps ++ [p])) t = evaluate (build ps) t.
Proof.
  intros Hk Hlo Hhi.
  rewrite (evaluate_in_segment (ps ++ [p]) k t)
    by (try assumption; rewrite length_app; cbn [length]; lia).
  rewrite (evaluate_in_segment ps k t) by (try assumption; lia).
  now apply segment_snoc.
Qed.

End OnTrack.

(** ** Rounded results are binary32 values *)

Section Validity.

Lemma shr_zero (e n : Z) (r s : bool) :
  shr_m (fst (shr (Build_shr_record 0 r s) e n)) = 0%Z.
Proof.
  destruct (Z_le_gt_dec n 0) as [Hn | Hn].
  - now rewrite shr_nonpos.
  - destruct (shr_value 0 e n r s ltac:(lia) ltac:(lia)) as [H _].
    rewrite H. apply Z.div_0_l.
    apply Z.pow_nonzero; lia.
Qed.

(** What rounding returns when the exponent is not above the one [fexp]
    asks for: a zero, an infinity, or a binary32 value, of the sign
    given; and no zero when the number is not below the smallest
    positive value. *)
Lemma binary_round_aux_valid (s : bool) (m e : Z) (l : location) :
  (0 < m)%Z ->
  (e <= fexp F32.prec F32.emax (Zdigits2 m + e))%Z ->
  let r := binary_round_aux F32.prec F32.emax s m e l in
  F32.valid r = true /\
  (r = S754_zero s \/ r = S754_infinity s \/
   exists m3 e3, r = S754_finite s m3 e3) /\
  ((-149 < Zdigits2 m + e)%Z -> r <> S754_zero s).
Proof.
  intros Hm Hle. cbv zeta. unfold binary_round_aux.
  pose proof (shr_fexp_canonical m e l Hm Hle) as H1. cbv zeta in H1.
  set (F := fexp F32.prec F32.emax (Zdigits2 m + e)) in *.
  pose proof (fexp_ge_emin (Zdigits2 m + e)) as HFmin. fold F in HFmin.
  destruct (shr_fexp F32.prec F32.emax m e l) as [mrs' e'].
  cbn [fst snd] in H1. destruct H1 as (He' & Hm1 & Hcan1). subst e'.
  assert (Hpow : (0 < 2 ^ (F - e))%Z) by (apply Z.pow_pos_nonneg; lia).
  assert (Hm1nn : (0 <= shr_m mrs')%Z)
    by (rewrite Hm1; apply Z.div_pos; lia).
  set (m2 := round_nearest_even (shr_m mrs') (loc_of_shr_record mrs')).
  assert (Hm2 : (shr_m mrs' <= m2)%Z) by apply round_nearest_even_ge.
  (* the number is not below the smallest positive value *)
  assert (Hbig : (-149 < Zdigits2 m + e)%Z -> (0 < shr_m mrs')%Z).
  { intro Hd. rewrite Hm1. apply Z.div_str_pos. split; [exact Hpow | ].
    destruct (Zdigits2_bounds m Hm) as [Hlo _].
    apply Z.le_trans with (2 ^ (Zdigits2 m - 1))%Z; [ | exact Hlo].
    apply Z.pow_le_mono_r; [lia | ].
    subst F. unfold fexp, emin, F32.prec, F32.emax in *. lia. }
  destruct (Z.eq_dec m2 0) as [Hz | Hnz].
  - (* everything was rounded away *)
    rewrite Hz. unfold shr_fexp. cbn [shr_record_of_loc].
    pose proof (shr_zero F
                  (fexp F32.prec F32.emax (Zdigits2 0 + F) - F) false false)
      as H0.
    destruct (shr _ F _) as [mrs'' e'']. cbn [fst] in H0. rewrite H0.
    split; [reflexivity | ]. split; [left; reflexivity | ].
    intro Hd. specialize (Hbig Hd). lia.
  - assert (Hm2pos : (0 < m2)%Z) by lia.
    assert (HF2 : (F <= fexp F32.prec F32.emax (Zdigits2 m2 + F))%Z).
    { destruct (Z.eq_dec (shr_m mrs') 0) as [H0 | H0].
      - (* the mantissa was shifted out: the exponent is the smallest *)
        assert (HF : F = (-149)%Z).
        { rewrite H0 in Hm1. symmetry in Hm1.
          apply Z.div_small_iff in Hm1; [ | lia].
          destruct Hm1 as [[_ Hlt] | Hneg]; [ | lia].
          destruct (Zdigits2_bounds m Hm) as [Hlo _].
          assert (Hd : (Zdigits2 m - 1 < F - e)%Z).
          { apply (Z.pow_lt_mono_r_iff 2); lia. }
          subst F. unfold fexp, emin, F32.prec, F32.emax in *. lia. }
        rewrite HF. apply fexp_ge_emin.
      - rewrite Hm1 in Hcan1.
        assert (Hp1 : (0 < m / 2 ^ (F - e))%Z) by lia.
        specialize (Hcan1 Hp1). rewrite <- Hm1 in Hcan1.
        rewrite <- Hcan1 at 1. apply fexp_mono.
        pose proof (Zdigits2_mono (shr_m mrs') m2 ltac:(lia)). lia. }
    pose proof (shr_fexp_renormalise m2 F Hm2pos HFmin) as Hren.
    pose proof (shr_fexp_canonical m2 F loc_Exact Hm2pos HF2) as H2.
    cbv zeta in Hren, H2.
    destruct (shr_fexp F32.prec F32.emax m2 F loc_Exact) as [mrs'' e''].
    cbn [fst snd] in Hren, H2.
    destruct Hren as (Hge & Hpos & Hsame).
    destruct H2 as (He'' & Hm3 & Hcan2).
    rewrite <- Hm3 in Hcan2. specialize (Hcan2 Hpos).
    destruct (shr_m mrs'') as [ | m3 | m3] eqn:Em3; try lia.
    destruct (e'' <=? F32.emax - F32.prec)%Z eqn:Eover.
    + split; [ | split; [right; right; eauto | discriminate]].
      unfold F32.valid, valid_binary, bounded, canonical_mantissa.
      rewrite Eover. cbn [Zdigits2] in Hcan2. rewrite Hcan2, Z.eqb_refl.
      reflexivity.
    + split; [reflexivity | split; [right; left; reflexivity | discriminate]].
Qed.

Lemma binary_round_valid (s : bool) (m : positive) (e : Z) :
  let r := binary_round F32.prec F32.emax s m e in
  F32.valid r = true /\
  (r = S754_zero s \/ r = S754_infinity s \/
   exists m3 e3, r = S754_finite s m3 e3) /\
  ((-149 < Z.pos (digits2_pos m) + e)%Z -> r <> S754_zero s).
Proof.
  cbv zeta. unfold binary_round.
  set (F := fexp F32.prec F32.emax (Z.pos (digits2_pos m) + e)).
  destruct (Z_lt_ge_dec F e) as [Hlt | Hge].
  - destruct (e - F)%Z as [ | k | k] eqn:Ek; try lia.
    rewrite (shl_align_left m e F k) by lia.
    assert (Hd : (Zdigits2 (Z.pos (Pos.iter xO m k)) + F
                  = Z.pos (digits2_pos m) + e)%Z).
    { cbn [Zdigits2]. rewrite digits2_iter_xO. lia. }
    pose proof (binary_round_aux_valid s (Z.pos (Pos.iter xO m k)) F loc_Exact)
      as H.
    cbv zeta in H. rewrite Hd in H. fold F in H.
    apply H; lia.
  - rewrite shl_align_none by lia.
    apply (binary_round_aux_valid s (Z.pos m) e loc_Exact); [lia | ].
    cbn [Zdigits2]. fold F. lia.
Qed.

Lemma valid_exponent (s : bool) (m : positive) (e : Z) :
  F32.valid (S754_finite s m e) = true ->
  (-149 <= e)%Z /\ (Z.pos m < 16777216)%Z /\
  ((-149 < e)%Z -> (8388608 <= Z.pos m)%Z).
Proof.
  intro Hv. destruct (valid_finite_cases s m e Hv) as (_ & _ & Hc).
  destruct (digits_bounds m) as [Hlo Hhi].
  assert (H24 : (Z.pos (digits2_pos m) <= 24)%Z) by lia.
  split; [lia | ]. split.
  - apply Z.lt_le_trans with (2 ^ Z.pos (digits2_pos m))%Z; [exact Hhi | ].
    change 16777216%Z with (2 ^ 24)%Z. apply Z.pow_le_mono_r; lia.
  - intro He. destruct Hc as [[H _] | [_ H]]; [lia | ].
    rewrite H in Hlo. exact Hlo.
Qed.

(** The difference of two positive binary32 values, the larger first, is
    a positive binary32 value. *)
Lemma sub_pos_spec (mx my : positive) (ex ey : Z) :
  F32.valid (S754_finite false mx ex) = true ->
  F32.valid (S754_finite false my ey) = true ->
  F32.ltb (S754_finite false mx ex) (S754_finite false my ey) = true ->
  let r := (S754_finite false my ey - S754_finite false mx ex)%f32 in
  F32.valid r = true /\
  (r = S754_infinity false \/ exists m e, r = S754_finite false m e).
Proof.
  intros Hvx Hvy Hlt. cbv zeta.
  destruct (valid_exponent _ _ _ Hvx) as (Hex & Hmx & _).
  destruct (valid_exponent _ _ _ Hvy) as (Hey & _ & Hmy).
  unfold F32.sub, SFsub. cbn [cond_Zopp].
  set (ez := Z.min ey ex).
  assert (Hd : (0 < Z.pos (fst (shl_align my ey ez))
                    - Z.pos (fst (shl_align mx ex ez)))%Z).
  { rewrite (shl_align_value my ey ez) by (subst ez; lia).
    rewrite (shl_align_value mx ex ez) by (subst ez; lia).
    unfold F32.ltb, SFltb, SFcompare in Hlt.
    destruct (Z.compare_spec ex ey) as [Heq | Hlt' | Hgt];
      try discriminate.
    - rewrite pos_compare_cont_Eq in Hlt.
      destruct (Pos.compare_spec mx my); try discriminate.
      subst ey. subst ez. rewrite Z.min_id, Z.sub_diag.
      change (2 ^ 0)%Z with 1%Z. lia.
    - subst ez. rewrite Z.min_r by lia. rewrite Z.sub_diag.
      change (2 ^ 0)%Z with 1%Z.
      assert (H2 : (2 ^ 1 <= 2 ^ (ey - ex))%Z)
        by (apply Z.pow_le_mono_r; lia).
      change (2 ^ 1)%Z with 2%Z in H2.
      specialize (Hmy ltac:(lia)). nia. }
  destruct (Z.pos (fst (shl_align my ey ez))
            - Z.pos (fst (shl_align mx ex ez)))%Z as [ | D | D] eqn:ED;
    try lia.
  cbn [binary_normalize].
  destruct (binary_round_valid false D ez) as (Hv & Hshape & Hnz).
  split; [exact Hv | ].
  destruct Hshape as [Hz | [Hi | Hf]]; [ | left; exact Hi | right; exact Hf].
  exfalso. apply Hnz; [ | exact Hz].
  assert (0 < Z.pos (digits2_pos D))%Z by lia. subst ez. lia.
Qed.

Lemma digits_mul_ge (p q : positive) :
  (Z.pos (digits2_pos p) + Z.pos (digits2_pos q) - 1
   <= Z.pos (digits2_pos (p * q)))%Z.
Proof.
  destruct (digits_bounds p) as [Hp _].
  destruct (digits_bounds q) as [Hq _].
  destruct (digits_bounds (p * q)) as [_ Hpq].
  assert (H : (2 ^ (Z.pos (digits2_pos p) - 1 + (Z.pos (digits2_pos q) - 1))
               < 2 ^ Z.pos (digits2_pos (p * q)))%Z).
  { rewrite Z.pow_add_r by lia.
    apply Z.le_lt_trans with (Z.pos (p * q)); [ | exact Hpq].
    rewrite Pos2Z.inj_mul.
    apply Z.mul_le_mono_nonneg; try lia;
      apply Z.pow_nonneg; lia. }
  apply Z.pow_lt_mono_r_iff in H; lia.
Qed.

(** The product of two binary32 values is a binary32 value. *)
Lemma mul_valid (a b : float) :
  F32.valid a = true -> F32.valid b = true -> F32.valid (a * b)%f32 = true.
Proof.
  destruct a as [sa | sa | | sa ma ea], b as [sb | sb | | sb mb eb];
    intros Ha Hb; try reflexivity.
  unfold F32.mul, SFmul.
  destruct (valid_finite_cases sa ma ea Ha) as (_ & _ & Hca).
  destruct (valid_finite_cases sb mb eb Hb) as (_ & _ & Hcb).
  pose proof (digits_mul_ge ma mb) as Hd.
  apply (binary_round_aux_valid (xorb sa sb) (Z.pos (ma * mb)) (ea + eb)
           loc_Exact); [lia | ].
  cbn [Zdigits2]. unfold fexp, emin, F32.prec, F32.emax. lia.
Qed.

Lemma binary_round_aux_opp (m e : Z) (l : location) :
  binary_round_aux F32.prec F32.emax true m e l
  = SFopp (binary_round_aux F32.prec F32.emax false m e l).
Proof.
  unfold binary_round_aux.
  destruct (shr_fexp F32.prec F32.emax m e l) as [mrs' e'].
  destruct (shr_fexp F32.prec F32.emax _ e' loc_Exact) as [mrs'' e''].
  destruct (shr_m mrs''); try reflexivity.
  destruct (e'' <=? F32.emax - F32.prec)%Z; reflexivity.
Qed.

Lemma binary_round_opp (m : positive) (e : Z) :
  binary_round F32.prec F32.emax true m e
  = SFopp (binary_round F32.prec F32.emax false m e).
Proof.
  unfold binary_round.
  destruct (shl_align m e _) as [mz ez]. apply binary_round_aux_opp.
Qed.

(** Subtracting a positive number from a negative one is the sum of the
    two magnitudes, negated. *)
Lemma sub_neg_pos (mx my : positive) (ex ey : Z) :
  (S754_finite true mx ex - S754_finite false my ey)%f32
  = SFopp (S754_finite false mx ex + S754_finite false my ey)%f32.
Proof.
  unfold F32.sub, F32.add, SFsub, SFadd. cbn [cond_Zopp].
  cbn [Z.opp Z.sub Z.add Z.opp binary_normalize].
  apply binary_round_opp.
Qed.

Lemma leb_opp (a b : float) :
  F32.leb (SFopp b) (SFopp a) = F32.leb a b.
Proof.
  unfold F32.leb, SFleb, SFcompare.
  destruct a as [[] | [] | | [] ma ea], b as [[] | [] | | [] mb eb];
    try reflexivity; cbn [SFopp negb]; cmp_cases.
Qed.

Lemma sqrt_core_valid (m : positive) (e : Z) :
  let '(q, e', l) := SFsqrt_core_binary F32.prec F32.emax (Z.pos m) e in
  (0 < q)%Z /\ (e' <= fexp F32.prec F32.emax (Zdigits2 q + e'))%Z.
Proof.
  unfold SFsqrt_core_binary. cbn [Zdigits2].
  set (d := Z.pos (digits2_pos m)).
  set (G := Z.div2 (d + e + 1)).
  set (e' := Z.min (fexp F32.prec F32.emax G) (Z.div2 e)).
  set (s := (e - 2 * e')%Z).
  assert (HG : G = ((d + e + 1) / 2)%Z) by apply Z.div2_div.
  assert (He2 : (2 * Z.div2 e <= e)%Z).
  { rewrite Z.div2_div. pose proof (Z.mul_div_le e 2). lia. }
  assert (Hs : (0 <= s)%Z) by (subst s e'; lia).
  set (m' := match s with
             | 0%Z => Z.pos m
             | Z.pos _ => Z.shiftl (Z.pos m) s
             | Z.neg _ => 0%Z
             end).
  assert (Hm' : m' = (Z.pos m * 2 ^ s)%Z).
  { subst m'. destruct s as [ | p | p] eqn:Es; try lia.
    rewrite Z.shiftl_mul_pow2 by lia. reflexivity. }
  assert (Hpow : (0 < 2 ^ s)%Z) by (apply Z.pow_pos_nonneg; lia).
  assert (Hm'pos : (0 < m')%Z) by (rewrite Hm'; lia).
  pose proof (Z.sqrtrem_spec m' ltac:(lia)) as Hspec.
  destruct (Z.sqrtrem m') as [q r].
  assert (Hq : (0 < q)%Z) by nia.
  split; [exact Hq | ].
  (* the digits of the root *)
  set (j := ((d - 1 + s) / 2)%Z).
  assert (Hd : (1 <= d)%Z) by (subst d; lia).
  assert (Hj : (0 <= j)%Z) by (subst j; apply Z.div_pos; lia).
  assert (Hj2 : (2 * j <= d - 1 + s)%Z)
    by (subst j; apply Z.mul_div_le; lia).
  assert (Hlow : (2 ^ (2 * j) <= m')%Z).
  { rewrite Hm'. destruct (digits_bounds m) as [Hlo _]. fold d in Hlo.
    apply Z.le_trans with (2 ^ (d - 1 + s))%Z;
      [apply Z.pow_le_mono_r; lia | ].
    rewrite Z.pow_add_r by lia.
    apply Z.mul_le_mono_nonneg_r; lia. }
  assert (Hroot : (2 ^ j <= q)%Z).
  { replace (2 * j)%Z with (j + j)%Z in Hlow by lia.
    rewrite Z.pow_add_r in Hlow by lia.
    assert (0 < 2 ^ j)%Z by (apply Z.pow_pos_nonneg; lia).
    nia. }
  assert (Hdq : (j < Zdigits2 q)%Z).
  { destruct (Zdigits2_bounds q Hq) as [_ Hhi].
    apply (Z.pow_lt_mono_r_iff 2); [lia | | lia].
    destruct q; cbn [Zdigits2]; lia. }
  assert (HjG : (j + 1 + e' = G)%Z).
  { rewrite HG. subst j s.
    replace (d - 1 + (e - 2 * e'))%Z with (d - 1 + e + (- e') * 2)%Z by lia.
    rewrite Z.div_add by lia.
    replace (d + e + 1)%Z with (d - 1 + e + 1 * 2)%Z by lia.
    rewrite Z.div_add by lia. lia. }
  apply Z.le_trans with (fexp F32.prec F32.emax G).
  - subst e'. apply Z.le_min_l.
  - apply fexp_mono. lia.
Qed.

(** A square root is a binary32 value, whatever it is taken of. *)
Lemma sqrt_valid (a : float) : F32.valid (F32.sqrt a) = true.
Proof.
  destruct a as [s | [] | | [] m e]; try reflexivity.
  unfold F32.sqrt, SFsqrt.
  pose proof (sqrt_core_valid m e) as H.
  destruct (SFsqrt_core_binary F32.prec F32.emax (Z.pos m) e) as [[q e'] l].
  destruct H as [Hq Hle].
  apply (binary_round_aux_valid false q e' l Hq Hle).
Qed.

Lemma div_one_keeps_valid (a : float) :
  F32.valid a = true -> F32.valid (a / f1)%f32 = true.
Proof.
  intro Hv. destruct (F32.is_finite a) eqn:Hf.
  - now rewrite div_one_valid.
  - rewrite f1_eq. destruct a as [s | s | | s m e]; try discriminate;
      reflexivity.
Qed.

End Validity.

(** ** The heading *)

Section Heading.
Context {libm : Libm}.

(** Taking a number that is not negative off a heading leaves a heading,
    and one that is not above the first. *)
Lemma sub_heading_ok (r b : float) :
  heading_ok r -> nonneg_or_nan b -> F32.valid b = true ->
  heading_ok (r - b)%f32 /\
  (F32.is_nan (r - b)%f32 = true \/ F32.leb (r - b)%f32 r = true).
Proof.
  intros Hr Hb Hvb.
  destruct Hr as [-> | [[s ->] | [-> | (m & e & -> & Hv)]]].
  - rewrite sub_nan_l. split; [left; reflexivity | left; reflexivity].
  - destruct (nonneg_or_nan_cases b Hb)
      as [-> | [[s' ->] | [-> | (m' & e' & ->)]]].
    + split; [left; reflexivity | left; reflexivity].
    + split; [right; left; destruct s, s'; eexists; reflexivity | ].
      right. destruct s, s'; reflexivity.
    + split; [right; right; left; reflexivity | ].
      right. destruct s; reflexivity.
    + split; [right; right; right; exists m', e'; split;
              [reflexivity | exact Hvb] | ].
      right. destruct s; reflexivity.
  - destruct (nonneg_or_nan_cases b Hb)
      as [-> | [[s' ->] | [-> | (m' & e' & ->)]]].
    + split; [left; reflexivity | left; reflexivity].
    + split; [right; right; left; reflexivity | right; reflexivity].
    + split; [right; right; left; reflexivity | right; reflexivity].
    + split; [right; right; left; reflexivity | right; reflexivity].
  - destruct (nonneg_or_nan_cases b Hb)
      as [-> | [[s' ->] | [-> | (m' & e' & ->)]]].
    + split; [left; reflexivity | left; reflexivity].
    + split; [right; right; right; exists m, e; split;
              [reflexivity | exact Hv] | ].
      right. apply (leb_refl (S754_finite true m e)). reflexivity.
    + split; [right; right; left; reflexivity | right; reflexivity].
    + rewrite sub_neg_pos.
      destruct (add_pos_spec m m' e e' Hv) as [Hle Hshape].
      split.
      * destruct Hshape as [-> | (m3 & e3 & -> & Hv3)].
        -- right; right; left; reflexivity.
        -- right; right; right. exists m3, e3. split; [reflexivity | exact Hv3].
      * right.
        change (S754_finite true m e) with (SFopp (S754_finite false m e)).
        rewrite leb_opp. exact Hle.
Qed.

(** The angle a step turns the gondola by. *)
Lemma stepTurn_ok (sp : Spline) (dt : float) (g : Gondola) :
  nonneg_or_nan dt -> F32.valid dt = true ->
  nonneg_or_nan ((stepVelocity sp g / gondolaRadius_) * dt)%f32 /\
  F32.valid ((stepVelocity sp g / gondolaRadius_) * dt)%f32 = true.
Proof.
  intros Hdt Hv. split.
  - apply mul_nonneg_nonneg; [ | exact Hdt].
    apply div_nonneg_or_nan; [apply sqrt_nonneg_or_nan | ].
    right. vm_compute. reflexivity.
  - apply mul_valid; [ | exact Hv].
    apply div_one_keeps_valid. apply sqrt_valid.
Qed.

Lemma start_heading (sp : Spline) (g : Gondola) :
  heading_ok (rotationAngle_ g) -> heading_ok (rotationAngle_ (start sp g)).
Proof.
  intro Hg. unfold start.
  destruct (GondolaState_eqb (state_ g) Waiting); [ | exact Hg].
  cbn [rotationAngle_]. right; left. exists false. reflexivity.
Qed.

Lemma animate_heading (sp : Spline) (dt : float) (g g' : Gondola) :
  heading_ok (rotationAngle_ g) -> nonneg_or_nan dt -> F32.valid dt = true ->
  animate sp dt g = Done g' -> heading_ok (rotationAngle_ g').
Proof.
  intros Hg Hdt Hv. rewrite animate_eq.
  destruct (negb (GondolaState_eqb (state_ g) Started));
    [intro H; injection H as <-; exact Hg | ].
  destruct (F32.ltb (stepTangentLength sp g) EPSILON);
    [intro H; injection H as <-; exact Hg | ].
  destruct (F32.ltb (stepTotalForce sp g) f0);
    [intro H; injection H as <-; exact Hg | ].
  assert (Hnext : heading_ok (stepRotation sp dt g)).
  { unfold stepRotation.
    destruct (stepTurn_ok sp dt g Hdt Hv) as [Hn Hvb].
    apply sub_heading_ok; assumption. }
  destruct (getKnots sp); [discriminate | ].
  destruct (F32.gtb (stepProgress sp dt g) (back f0 (f :: l)));
    intro H; injection H as <-; exact Hnext.
Qed.

Lemma run_heading (cs : list call) (sp sp' : Spline) (g g' : Gondola) :
  Forall step_ok cs -> heading_ok (rotationAngle_ g) ->
  run cs (sp, g) = Some (sp', g') -> heading_ok (rotationAngle_ g').
Proof.
  intro Hcs. revert sp g.
  induction Hcs as [ | c cs Hc Hcs IH]; intros sp g Hg; cbn [run].
  - intro H. injection H as <- <-. exact Hg.
  - destruct c as [p | | dt]; cbn [exec fst snd].
    + now apply IH.
    + apply IH. now apply start_heading.
    + destruct (animate sp dt g) as [g1 | ] eqn:Ean; [ | discriminate].
      apply IH. destruct Hc as [Hn Hv].
      exact (animate_heading sp dt g g1 Hg Hn Hv Ean).
Qed.

(** X9.  The heading never increases.  Take any state the program
    reaches from the empty spline and the new gondola by clicks, [start]
    and steps whose durations are binary32 values that are not negative.
    A further such step that gets past the tangent guard and the force
    check stores the heading minus (speed over radius) times [dt], and
    that difference is never above the old heading: it is at most as
    large, or it is NaN.  Along the way the heading is NaN, a zero,
    [-inf] or a negative number. *)
Theorem X9_heading_never_increases
  (cs : list call) (sp : Spline) (dt : float) (g : Gondola) :
  Forall step_ok cs ->
  run cs (emptySpline, newGondola) = Some (sp, g) ->
  state_ g = Started ->
  F32.ltb (stepTangentLength sp g) EPSILON = false ->
  F32.ltb (stepTotalForce sp g) f0 = false ->
  nonneg_or_nan dt -> F32.valid dt = true ->
  heading_ok (rotationAngle_ g) /\
  exists g',
    animate sp dt g = Done g' /\
    rotationAngle_ g' =
      (rotationAngle_ g - (stepVelocity sp g / gondolaRadius_) * dt)%f32 /\
    heading_ok (rotationAngle_ g') /\
    (F32.is_nan (rotationAngle_ g') = true \/
     F32.leb (rotationAngle_ g') (rotationAngle_ g) = true).
Proof.
  intros Hcs Hrun Hst Hguard Hforce Hdt Hv.
  assert (Hwf : wf_spline sp)
    by (apply (run_wf cs emptySpline sp newGondola g); [reflexivity | exact Hrun]).
  assert (Hh : heading_ok (rotationAngle_ g)).
  { apply (run_heading cs emptySpline sp newGondola g Hcs); [ | exact Hrun].
    right; left. exists false. reflexivity. }
  split; [exact Hh | ].
  rewrite (animate_started sp dt g Hwf Hst Hguard), Hforce.
  eexists. split; [reflexivity | ].
  cbn [rotationAngle_]. split; [reflexivity | ].
  destruct (stepTurn_ok sp dt g Hdt Hv) as [Hn Hvb].
  destruct (sub_heading_ok (rotationAngle_ g) _ Hh Hn Hvb) as [H1 H2].
  split; assumption.
Qed.

End Heading.

(** ** The clock *)

Section Clock.
Context {libm : Libm}.

Lemma dt_eq : MyApp.dt = S754_finite false 10737418 (-30).
Proof. vm_compute. reflexivity. Qed.

Lemma fmin_dt_ok (r : float) :
  F32.valid r = true ->
  r = S754_infinity false \/ (exists m e, r = S754_finite false m e) ->
  duration_ok (MyApp.fmin MyApp.dt r).
Proof.
  intros Hv Hr. unfold MyApp.fmin. rewrite dt_eq. cbn [F32.is_nan].
  assert (Hnan : F32.is_nan r = false)
    by (destruct Hr as [-> | (m & e & ->)]; reflexivity).
  rewrite Hnan.
  destruct (F32.ltb r (S754_finite false 10737418 (-30))) eqn:Hlt.
  - split; [ | split; [ | exact Hv]].
    + destruct Hr as [-> | (m & e & ->)]; reflexivity.
    + rewrite dt_eq. now apply ltb_leb.
  - rewrite <- dt_eq. repeat split; vm_compute; reflexivity.
Qed.

(** One round of the loop: the duration it hands on, and the time it
    goes on with. *)
Lemma duration_step_ok (t endTime : float) :
  time_ok t -> F32.valid endTime = true -> F32.ltb t endTime = true ->
  duration_ok (MyApp.fmin MyApp.dt (endTime - t)%f32) /\
  time_ok (t + MyApp.dt)%f32.
Proof.
  intros Ht Hve Hlt. split.
  - apply fmin_dt_ok.
    + destruct Ht as [[s ->] | [-> | (m & e & -> & Hvt)]].
      * destruct endTime as [se | [] | | [] me ee]; try discriminate;
          [reflexivity | exact Hve].
      * destruct endTime as [se | [] | | [] me ee]; discriminate.
      * destruct endTime as [se | [] | | [] me ee]; try discriminate;
          try reflexivity.
        apply (sub_pos_spec m me e ee Hvt Hve Hlt).
    + destruct Ht as [[s ->] | [-> | (m & e & -> & Hvt)]].
      * destruct endTime as [se | [] | | [] me ee]; try discriminate;
          [left; reflexivity | right; exists me, ee; reflexivity].
      * destruct endTime as [se | [] | | [] me ee]; discriminate.
      * destruct endTime as [se | [] | | [] me ee]; try discriminate;
          try (left; reflexivity).
        apply (sub_pos_spec m me e ee Hvt Hve Hlt).
  - rewrite dt_eq.
    destruct Ht as [[s ->] | [-> | (m & e & -> & Hvt)]].
    + right; right. exists 10737418%positive, (-30)%Z.
      split; reflexivity.
    + right; left. reflexivity.
    + destruct (add_pos_spec m 10737418 e (-30) Hvt) as [_ Hshape].
      destruct Hshape as [-> | (m3 & e3 & -> & Hv3)].
      * right; left; reflexivity.
      * right; right. exists m3, e3. split; [reflexivity | exact Hv3].
Qed.

Lemma durations_ok (fuel : nat) (t endTime : float) :
  time_ok t -> F32.valid endTime = true ->
  Forall duration_ok (MyApp.durations fuel t endTime).
Proof.
  revert t. induction fuel as [ | fuel IH]; intros t Ht Hve;
    cbn [MyApp.durations]; [constructor | ].
  destruct (F32.ltb t endTime) eqn:Hlt; [ | constructor].
  destruct (duration_step_ok t endTime Ht Hve Hlt) as [Hd Ht'].
  constructor; [exact Hd | now apply IH].
Qed.

Lemma loop_runs_durations (fuel : nat) (sp : Spline) (t endTime : float)
  (g g' : Gondola) :
  MyApp.onTimeElapsed_loop fuel sp t endTime g = Some (Done g') ->
  run (map Animate (MyApp.durations fuel t endTime)) (sp, g) = Some (sp, g').
Proof.
  revert t g. induction fuel as [ | fuel IH]; intros t g;
    cbn [MyApp.onTimeElapsed_loop MyApp.durations]; [discriminate | ].
  destruct (F32.ltb t endTime).
  - cbn [map run exec fst snd].
    destruct (animate sp _ g) as [g1 | ]; [apply IH | discriminate].
  - intro H. injection H as <-. reflexivity.
Qed.

(** X10.  What the clock hands to [animate].  When the frame starts at a
    time that is zero or a positive binary32 value, every duration [Dt]
    the loop of [onTimeElapsed] computes, in however many rounds, is a
    binary32 value that is positive and at most 0.01: never zero,
    negative or NaN.  When the loop ends, the gondola it leaves is the
    one these [animate] calls lead to, one after the other. *)
Theorem X10_onTimeElapsed_durations
  (fuel : nat) (sp : Spline) (startTime endTime : float) (g : Gondola) :
  time_ok startTime -> F32.valid endTime = true ->
  Forall duration_ok (MyApp.durations fuel startTime endTime) /\
  Forall step_ok (map Animate (MyApp.durations fuel startTime endTime)) /\
  (forall g',
     MyApp.onTimeElapsed fuel sp startTime endTime g = Some (Done g') ->
     run (map Animate (MyApp.durations fuel startTime endTime)) (sp, g)
     = Some (sp, g')).
Proof.
  intros Ht Hve.
  pose proof (durations_ok fuel startTime endTime Ht Hve) as Hd.
  split; [exact Hd | ]. split.
  - induction Hd as [ | d ds (Hpos & _ & Hv) _ IH]; cbn [map];
      constructor; [ | exact IH].
    split; [right; now apply ltb_leb | exact Hv].
  - intros g' H. now apply loop_runs_durations.
Qed.

(** X11.  The loop of [onTimeElapsed] need not end.  Its counter advances
    by [t += 0.01f]; at a time so large that this sum rounds back to [t]
    (from 262144 s on) the counter stands still, the test [t < endTime]
    stays true, and the loop calls [animate] for ever: no number of
    rounds suffices. *)
Theorem X11_onTimeElapsed_never_returns
  (sp : Spline) (t endTime : float) (g : Gondola) (fuel : nat) :
  wf_spline sp ->
  (t + MyApp.dt)%f32 = t ->
  F32.ltb t endTime = true ->
  MyApp.onTimeElapsed fuel sp t endTime g = None.
Proof.
  intros Hwf Hstuck Hlt. unfold MyApp.onTimeElapsed.
  revert g. induction fuel as [ | fuel IH]; intro g;
    cbn [MyApp.onTimeElapsed_loop]; [reflexivity | ].
  rewrite Hlt, Hstuck.
  destruct (animate_done sp (MyApp.fmin MyApp.dt (endTime - t)%f32) g Hwf)
    as [g1 ->].
  apply IH.
Qed.

End Clock.

(** ** Exact arithmetic on integers *)

Section IntegerArithmetic.

Lemma int_form_digits (p m : positive) (e : Z) :
  int_form p m e -> Z.pos (digits2_pos m) = 24%Z.
Proof.
  intro Hf. destruct (int_form_facts p m e Hf) as (Hc & _ & _ & Hr).
  apply canonical_fexp in Hc.
  unfold fexp, emin, F32.prec, F32.emax in Hc. lia.
Qed.

(** An integer below 2^24, held exactly by a mantissa of 24 bits or more,
    rounds to itself. *)
Lemma round_aux_int (p M : positive) (E : Z) :
  (Z.pos (digits2_pos p) <= 24)%Z ->
  (E <= Z.pos (digits2_pos p) - 24)%Z ->
  (Z.pos M = Z.pos p * 2 ^ (- E))%Z ->
  binary_round_aux F32.prec F32.emax false (Z.pos M) E loc_Exact
  = F32.of_Z (Z.pos p).
Proof.
  intros Hd HE HM.
  destruct (int_form_exists p Hd) as (m & e & Hf).
  rewrite (of_Z_int_form p m e Hf).
  destruct (int_form_facts p m e Hf) as (Hc & He & Hm & Hr).
  destruct (e - E)%Z as [ | k | k] eqn:Ek; try lia.
  - assert (E = e) by lia. subst E.
    assert (M = m) by (apply Pos2Z.inj; lia). subst M.
    apply binary_round_aux_canonical; [exact Hc | lia].
  - assert (HMk : M = Pos.iter xO m k).
    { apply Pos2Z.inj. rewrite iter_xO_pow, HM, Hm.
      rewrite <- Z.mul_assoc, <- Z.pow_add_r by lia.
      do 2 f_equal. lia. }
    rewrite HMk. replace E with (e - Z.pos k)%Z by lia.
    apply binary_round_aux_shifted; [exact Hc | lia].
Qed.

Lemma digits_shift (p D : positive) (k : Z) :
  (0 <= k)%Z -> (Z.pos D = Z.pos p * 2 ^ k)%Z ->
  Z.pos (digits2_pos D) = (Z.pos (digits2_pos p) + k)%Z.
Proof.
  intros Hk HD. apply digits_unique. rewrite HD.
  destruct (digits_bounds p) as [Hlo Hhi].
  assert (Hpow : (0 < 2 ^ k)%Z) by (apply Z.pow_pos_nonneg; lia).
  replace (Z.pos (digits2_pos p) + k - 1)%Z
    with (Z.pos (digits2_pos p) - 1 + k)%Z by lia.
  rewrite !Z.pow_add_r by lia. split; nia.
Qed.

Lemma binary_round_int (p D : positive) (E : Z) :
  (Z.pos (digits2_pos p) <= 24)%Z -> (E <= 0)%Z ->
  (Z.pos D = Z.pos p * 2 ^ (- E))%Z ->
  binary_round F32.prec F32.emax false D E = F32.of_Z (Z.pos p).
Proof.
  intros Hd HE HD. unfold binary_round.
  rewrite (digits_shift p D (- E)) by (try lia; exact HD).
  replace (Z.pos (digits2_pos p) + - E + E)%Z with (Z.pos (digits2_pos p))
    by lia.
  assert (HF : fexp F32.prec F32.emax (Z.pos (digits2_pos p))
               = (Z.pos (digits2_pos p) - 24)%Z).
  { unfold fexp, emin, F32.prec, F32.emax.
    assert (0 < Z.pos (digits2_pos p))%Z by lia. lia. }
  rewrite HF. set (e := (Z.pos (digits2_pos p) - 24)%Z).
  destruct (Z_lt_ge_dec e E) as [Hlt | Hge].
  - destruct (E - e)%Z as [ | k | k] eqn:Ek; try lia.
    rewrite (shl_align_left D E e k) by lia.
    apply round_aux_int; [exact Hd | subst e; lia | ].
    rewrite iter_xO_pow, HD, <- Z.mul_assoc, <- Z.pow_add_r by lia.
    do 2 f_equal. lia.
  - rewrite shl_align_none by lia.
    apply round_aux_int; [exact Hd | subst e; lia | exact HD].
Qed.

(** The difference of two integers below 2^24 is exact. *)
Lemma of_Z_sub_pos (a b : positive) :
  (Z.pos b < Z.pos a < 16777216)%Z ->
  (F32.of_Z (Z.pos a) - F32.of_Z (Z.pos b))%f32 = F32.of_Z (Z.pos a - Z.pos b).
Proof.
  intros [Hba Ha].
  destruct (int_form_exists a) as (ma & ea & Hfa); [apply digits_le_24; lia | ].
  destruct (int_form_exists b) as (mb & eb & Hfb); [apply digits_le_24; lia | ].
  rewrite (of_Z_int_form a ma ea Hfa), (of_Z_int_form b mb eb Hfb).
  destruct (int_form_facts a ma ea Hfa) as (_ & Hea & Hma & Hra).
  destruct (int_form_facts b mb eb Hfb) as (_ & Heb & Hmb & Hrb).
  pose proof (digits_mono b a ltac:(lia)) as Hmono.
  unfold F32.sub, SFsub. cbn [cond_Zopp].
  replace (Z.min ea eb) with eb by lia.
  rewrite (shl_align_value ma ea eb) by lia.
  rewrite (shl_align_value mb eb eb) by lia.
  rewrite Hma, Hmb, Z.sub_diag.
  rewrite <- Z.mul_assoc, <- Z.pow_add_r by lia.
  replace (- ea + (ea - eb))%Z with (- eb)%Z by lia.
  change (2 ^ 0)%Z with 1%Z. rewrite Z.mul_1_r.
  rewrite <- Z.mul_sub_distr_r.
  assert (Hpow : (0 < 2 ^ (- eb))%Z) by (apply Z.pow_pos_nonneg; lia).
  destruct (Z.pos a - Z.pos b)%Z as [ | p | p] eqn:Ep; try lia.
  destruct (Z.pos p * 2 ^ (- eb))%Z as [ | D | D] eqn:ED; try lia.
  cbn [binary_normalize].
  apply binary_round_int; [apply digits_le_24; lia | lia | symmetry; exact ED].
Qed.

Lemma digits_mul_le (p q : positive) :
  (Z.pos (digits2_pos (p * q))
   <= Z.pos (digits2_pos p) + Z.pos (digits2_pos q))%Z.
Proof.
  destruct (digits_bounds p) as [_ Hp].
  destruct (digits_bounds q) as [_ Hq].
  destruct (digits_bounds (p * q)) as [Hpq _].
  assert (H : (2 ^ (Z.pos (digits2_pos (p * q)) - 1)
               < 2 ^ (Z.pos (digits2_pos p) + Z.pos (digits2_pos q)))%Z).
  { rewrite Z.pow_add_r by lia.
    apply Z.le_lt_trans with (Z.pos (p * q)); [exact Hpq | ].
    rewrite Pos2Z.inj_mul. nia. }
  apply Z.pow_lt_mono_r_iff in H; lia.
Qed.

(** The product of two integers is exact when it is below 2^24. *)
Lemma of_Z_mul_pos (a b : positive) :
  (Z.pos a * Z.pos b < 16777216)%Z ->
  (F32.of_Z (Z.pos a) * F32.of_Z (Z.pos b))%f32 = F32.of_Z (Z.pos a * Z.pos b).
Proof.
  intro Hab.
  assert (Ha : (Z.pos a < 16777216)%Z) by nia.
  assert (Hb : (Z.pos b < 16777216)%Z) by nia.
  destruct (int_form_exists a) as (ma & ea & Hfa); [apply digits_le_24; lia | ].
  destruct (int_form_exists b) as (mb & eb & Hfb); [apply digits_le_24; lia | ].
  rewrite (of_Z_int_form a ma ea Hfa), (of_Z_int_form b mb eb Hfb).
  destruct (int_form_facts a ma ea Hfa) as (_ & Hea & Hma & Hra).
  destruct (int_form_facts b mb eb Hfb) as (_ & Heb & Hmb & Hrb).
  unfold F32.mul, SFmul. cbn [xorb].
  change (Z.pos a * Z.pos b)%Z with (Z.pos (a * b)).
  pose proof (digits_mul_ge a b) as Hge.
  apply round_aux_int.
  - apply digits_le_24. rewrite Pos2Z.inj_mul. lia.
  - lia.
  - rewrite !Pos2Z.inj_mul, Hma, Hmb.
    replace (- (ea + eb))%Z with (- ea + - eb)%Z by lia.
    rewrite Z.pow_add_r by lia. ring.
Qed.

Lemma of_Z_mul (a b : Z) :
  (0 <= a)%Z -> (0 <= b)%Z -> (a * b < 16777216)%Z ->
  (a < 16777216)%Z -> (b < 16777216)%Z ->
  (F32.of_Z a * F32.of_Z b)%f32 = F32.of_Z (a * b).
Proof.
  intros Ha Hb Hab Ha' Hb'.
  destruct a as [ | a | a]; try lia.
  - destruct b as [ | b | b]; try lia; [reflexivity | ].
    destruct (int_form_exists b) as (mb & eb & Hfb);
      [apply digits_le_24; lia | ].
    rewrite (of_Z_int_form b mb eb Hfb). reflexivity.
  - destruct b as [ | b | b]; try lia.
    + rewrite Z.mul_0_r.
      destruct (int_form_exists a) as (ma & ea & Hfa);
        [apply digits_le_24; lia | ].
      rewrite (of_Z_int_form a ma ea Hfa). reflexivity.
    + now apply of_Z_mul_pos.
Qed.

Lemma new_location_zero (n : Z) :
  new_location n 0 = loc_Exact.
Proof.
  unfold new_location, new_location_even, new_location_odd.
  destruct (Z.even n); reflexivity.
Qed.

(** A quotient of integers that comes out even is exact. *)
Lemma lit_exact (c d : positive) :
  (Z.pos c * Z.pos d < 16777216)%Z ->
  F32.lit (Z.pos c * Z.pos d) (Z.pos d) = F32.of_Z (Z.pos c).
Proof.
  intro Hcd. unfold F32.lit.
  assert (Hc : (Z.pos c < 16777216)%Z) by nia.
  assert (Hd : (Z.pos d < 16777216)%Z) by nia.
  change (Z.pos c * Z.pos d)%Z with (Z.pos (c * d)).
  destruct (int_form_exists (c * d)) as (m1 & e1 & Hf1);
    [apply digits_le_24; rewrite Pos2Z.inj_mul; lia | ].
  destruct (int_form_exists d) as (m2 & e2 & Hf2); [apply digits_le_24; lia | ].
  rewrite (of_Z_int_form (c * d) m1 e1 Hf1), (of_Z_int_form d m2 e2 Hf2).
  destruct (int_form_facts (c * d) m1 e1 Hf1) as (_ & He1 & Hm1 & Hr1).
  destruct (int_form_facts d m2 e2 Hf2) as (_ & He2 & Hm2 & Hr2).
  pose proof (int_form_digits _ _ _ Hf1) as Hd1.
  pose proof (int_form_digits _ _ _ Hf2) as Hd2.
  pose proof (digits_mul_le c d) as Hle.
  pose proof (digits_mul_ge c d) as Hge.
  unfold F32.div, SFdiv, SFdiv_core_binary. cbn [Zdigits2 xorb].
  rewrite Hd1, Hd2.
  set (E := Z.min _ _).
  assert (HE : E = (e1 - e2 - 24)%Z).
  { subst E. unfold fexp, emin, F32.prec, F32.emax. lia. }
  rewrite HE. replace (e1 - e2 - (e1 - e2 - 24))%Z with 24%Z by lia.
  cbv iota. rewrite Z.shiftl_mul_pow2 by lia.
  assert (Hq : (Z.pos m1 * 2 ^ 24
                = (Z.pos c * 2 ^ (24 + e2 - e1)) * Z.pos m2)%Z).
  { rewrite Hm1, Hm2, Pos2Z.inj_mul.
    assert (Hp : (2 ^ (24 + e2 - e1) * 2 ^ (- e2) = 2 ^ (- e1) * 2 ^ 24)%Z).
    { rewrite <- !Z.pow_add_r by lia. f_equal. lia. }
    replace (Z.pos c * 2 ^ (24 + e2 - e1) * (Z.pos d * 2 ^ (- e2)))%Z
      with (Z.pos c * Z.pos d * (2 ^ (24 + e2 - e1) * 2 ^ (- e2)))%Z by ring.
    rewrite Hp. ring. }
  rewrite Hq, div_eucl_exact by lia.
  rewrite new_location_zero.
  assert (Hpow : (0 < 2 ^ (24 + e2 - e1))%Z)
    by (apply Z.pow_pos_nonneg; lia).
  destruct (Z.pos c * 2 ^ (24 + e2 - e1))%Z as [ | Q | Q] eqn:EQ; try lia.
  apply round_aux_int.
  - apply digits_le_24. lia.
  - lia.
  - rewrite <- EQ. do 2 f_equal. lia.
Qed.

End IntegerArithmetic.

(** ** The vertices of the display *)

Section Update.
Context {libm : Libm}.

Lemma sub_f0 (a : float) : (a - f0)%f32 = a.
Proof. destruct a as [[] | [] | | s m e]; reflexivity. Qed.

Lemma add_f0_l (a : float) : a <> S754_zero true -> (f0 + a)%f32 = a.
Proof.
  destruct a as [[] | [] | | s m e]; intro H; try reflexivity.
  now contradiction H.
Qed.

Lemma of_Z_shape (n : Z) :
  (0 <= n < 16777216)%Z ->
  F32.of_Z n = S754_zero false \/ exists m e, F32.of_Z n = S754_finite false m e.
Proof.
  intro Hn. destruct n as [ | p | p]; try lia; [left; reflexivity | right].
  destruct (int_form_exists p) as (m & e & Hf); [apply digits_le_24; lia | ].
  exists m, e. exact (of_Z_int_form p m e Hf).
Qed.

Lemma lit_not_negative_zero (n d : Z) :
  (0 <= n < 16777216)%Z -> (0 < d < 16777216)%Z ->
  F32.lit n d <> S754_zero true.
Proof.
  intros Hn Hd. unfold F32.lit.
  destruct (of_Z_shape d ltac:(lia)) as [Hz | (md & ed & ->)].
  { destruct d as [ | p | p]; try lia.
    destruct (int_form_exists p) as (m & e & Hf); [apply digits_le_24; lia | ].
    rewrite (of_Z_int_form p m e Hf) in Hz. discriminate. }
  destruct (of_Z_shape n Hn) as [-> | (mn & en & ->)]; [discriminate | ].
  unfold F32.div, SFdiv.
  destruct (SFdiv_core_binary F32.prec F32.emax (Z.pos mn) en (Z.pos md) ed)
    as [[mz ez] lz].
  destruct (binary_round_aux_shape (xorb false false) mz ez lz)
    as [-> | [-> | [-> | (m' & e' & ->)]]]; discriminate.
Qed.

Lemma front_knots (n : nat) : (1 <= n)%nat -> front f0 (knots n) = f0.
Proof. intro Hn. destruct n as [ | n]; [lia | reflexivity]. Qed.

(** The parameter of the sample of index [i]: the binary32 nearest to
    [k * i / 100], for [k] the index of the last knot. *)
Lemma sampleParameter_built (ps : list vec2) (i : nat) :
  (2 <= length ps)%nat ->
  (Z.of_nat (length ps - 1) * 100 < 16777216)%Z ->
  (i <= 100)%nat ->
  sampleParameter (build ps) (Z.of_nat i)
  = F32.lit (Z.of_nat (length ps - 1) * Z.of_nat i) 100.
Proof.
  intros Hlen Hmax Hi. unfold sampleParameter. cbv zeta.
  rewrite build_ts, front_knots, back_knots by lia.
  rewrite knot_small by (unfold knot_max; lia).
  rewrite sub_f0.
  rewrite of_Z_mul by nia.
  unfold samples. fold (F32.lit (Z.of_nat (length ps - 1) * Z.of_nat i) 100).
  apply add_f0_l. apply lit_not_negative_zero; nia.
Qed.

Lemma knot_diff2 (k : nat) :
  (Z.of_nat k + 2 < 16777216)%Z -> (knot (k + 2) - knot k)%f32 = f2.
Proof.
  intro Hk. rewrite !knot_small by (unfold knot_max; lia).
  destruct k as [ | k].
  - cbn [Nat.add]. change (F32.of_Z (Z.of_nat 0)) with f0. apply sub_f0.
  - replace (Z.of_nat (S k + 2)) with (Z.pos (Pos.of_succ_nat k + 2)) by lia.
    replace (Z.of_nat (S k)) with (Z.pos (Pos.of_succ_nat k)) by lia.
    rewrite of_Z_sub_pos by lia.
    replace (Z.pos (Pos.of_succ_nat k + 2) - Z.pos (Pos.of_succ_nat k))%Z
      with 2%Z by lia.
    reflexivity.
Qed.

(** X12.  The tangents of [evaluate] on a spline built by fewer than 2^24
    clicks.  The tangent at the end of a segment is the tangent at the
    start of the next one, so the curve has one tangent at every inner
    knot; it is half the chord between the two neighbours of the knot
    (the knots being 2.0 apart); and the tangents at the first and at
    the last control point are the zero vector. *)
Theorem X12_tangents (ps : list vec2) (k : nat) :
  (k + 2 < length ps)%nat ->
  (Z.of_nat (length ps) <= knot_max)%Z ->
  segment_v1 (build ps) k = segment_v0 (build ps) (k + 1) /\
  segment_v1 (build ps) k
  = ((at_ origin ps (k + 2) - at_ origin ps k) /: f2)%v2 /\
  segment_v0 (build ps) 0 = origin /\
  segment_v1 (build ps) (length ps - 2) = origin.
Proof.
  intros Hk Hmax. unfold segment_v1, segment_v0. rewrite build_cps.
  destruct (Nat.ltb_spec k (length ps - 2)) as [_ | H]; [ | lia].
  destruct (Nat.ltb_spec 0 (k + 1)) as [_ | H]; [ | lia].
  destruct (Nat.ltb_spec (length ps - 2) (length ps - 2)) as [H | _]; [lia | ].
  replace (k + 1 + 1)%nat with (k + 2)%nat by lia.
  replace (k + 1 - 1)%nat with k by lia.
  split; [reflexivity | ]. split; [ | split; reflexivity].
  rewrite !build_knot by lia.
  rewrite knot_diff2 by (unfold knot_max in Hmax; lia).
  reflexivity.
Qed.

(** X13.  The vertices [update] leaves.  The control polygon is the list
    of control points.  With fewer than two control points the curve has
    no vertex.  On a spline built by 2 to 167773 clicks it has 101
    vertices; the vertex of index [i] is [evaluate] at the binary32
    number nearest to [k * i / 100], for [k] the index of the last knot;
    the first sample is taken at the first knot and the last one exactly
    at the last knot. *)
Theorem X13_update_samples (ps : list vec2) (i : nat) :
  (forall sp, (length (cps_ sp) < 2)%nat ->
     controlGeometry_ (update sp) = cps_ sp /\ curveGeometry_ (update sp) = []) /\
  ((2 <= length ps)%nat ->
   (Z.of_nat (length ps - 1) * 100 < 16777216)%Z ->
   (i <= 100)%nat ->
     controlGeometry_ (update (build ps)) = ps /\
     length (curveGeometry_ (update (build ps))) = 101%nat /\
     at_ origin (curveGeometry_ (update (build ps))) i
     = evaluate (build ps)
         (F32.lit (Z.of_nat (length ps - 1) * Z.of_nat i) 100) /\
     at_ origin (curveGeometry_ (update (build ps))) 0
     = evaluate (build ps) (knot 0) /\
     at_ origin (curveGeometry_ (update (build ps))) 100
     = evaluate (build ps) (knot (length ps - 1))).
Proof.
  split.
  - intros sp Hlen. unfold update. cbn [controlGeometry_ curveGeometry_].
    destruct (Nat.ltb_spec (length (cps_ sp)) 2) as [_ | H]; [ | lia].
    split; reflexivity.
  - intros Hlen Hmax Hi. unfold update.
    cbn [controlGeometry_ curveGeometry_]. rewrite build_cps.
    destruct (Nat.ltb_spec (length ps) 2) as [H | _]; [lia | ].
    split; [reflexivity | ].
    split; [rewrite length_map, length_seq; reflexivity | ].
    assert (Hnth : forall j, (j <= 100)%nat ->
              at_ origin
                (map (fun i0 => evaluate (build ps)
                                  (sampleParameter (build ps) (Z.of_nat i0)))
                     (seq 0 (S (Z.to_nat samples)))) j
              = evaluate (build ps)
                  (F32.lit (Z.of_nat (length ps - 1) * Z.of_nat j) 100)).
    { intros j Hj. unfold at_.
      rewrite (nth_indep _ origin
                 (evaluate (build ps) (sampleParameter (build ps) (Z.of_nat 0))))
        by (rewrite length_map, length_seq; change (Z.to_nat samples) with 100%nat; lia).
      rewrite (map_nth (fun i0 => evaluate (build ps)
                                    (sampleParameter (build ps) (Z.of_nat i0)))).
      rewrite seq_nth by (change (Z.to_nat samples) with 100%nat; lia).
      cbn [Nat.add]. now rewrite sampleParameter_built. }
    split; [now apply Hnth | ]. split.
    + rewrite Hnth by lia. rewrite Z.mul_0_r. reflexivity.
    + rewrite Hnth by lia.
      rewrite knot_small by (unfold knot_max; lia).
      destruct (Z.of_nat (length ps - 1)) as [ | c | c] eqn:Ec; try lia.
      change (Z.of_nat 100) with (Z.pos 100).
      now rewrite lit_exact.
Qed.

End Update.

(** ** The elements [evaluate] reads *)

Section Reads.
Context {libm : Libm}.

Lemma evaluate_scan_traced_value (sp : Spline) (t : float) (n i : nat) :
  fst (evaluate_scan_traced sp t i n) = evaluate_scan sp t i n.
Proof.
  revert i. induction n as [ | n IH]; intro i.
  - reflexivity.
  - rewrite evaluate_scan_step. cbn [evaluate_scan_traced].
    unfold in_segment.
    destruct (F32.leb (at_ f0 (ts_ sp) i) t); cbn [andb].
    + destruct (F32.leb t (at_ f0 (ts_ sp) (i + 1))); [reflexivity | ].
      specialize (IH (S i)).
      destruct (evaluate_scan_traced sp t (S i) n) as [v r]. exact IH.
    + specialize (IH (S i)).
      destruct (evaluate_scan_traced sp t (S i) n) as [v r]. exact IH.
Qed.

Lemma evaluate_scan_traced_in_range (sp : Spline) (t : float) (n i : nat) :
  (2 <= length (cps_ sp))%nat ->
  (i + n = length (cps_ sp) - 1)%nat ->
  Forall (fun j => (j < length (cps_ sp))%nat)
         (snd (evaluate_scan_traced sp t i n)).
Proof.
  intro Hlen. revert i.
  induction n as [ | n IH]; intros i Hi; cbn [evaluate_scan_traced].
  - cbn [snd]. repeat constructor. lia.
  - destruct (F32.leb (at_ f0 (ts_ sp) i) t).
    + destruct (F32.leb t (at_ f0 (ts_ sp) (i + 1))).
      * cbn [snd]. repeat (apply Forall_app; split).
        -- repeat constructor; lia.
        -- destruct (Nat.ltb_spec 0 i); repeat constructor; lia.
        -- destruct (Nat.ltb_spec i (length (cps_ sp) - 2));
             repeat constructor; lia.
        -- repeat constructor; lia.
      * specialize (IH (S i) ltac:(lia)).
        destruct (evaluate_scan_traced sp t (S i) n) as [v r].
        cbn [snd] in *. constructor; [lia | ]. constructor; [lia | exact IH].
    + specialize (IH (S i) ltac:(lia)).
      destruct (evaluate_scan_traced sp t (S i) n) as [v r].
      cbn [snd] in *. constructor; [lia | exact IH].
Qed.

(** X15.  [evaluate] stays inside its vectors.  On a spline whose two
    vectors have the same length (as [addControlPoint] keeps them), every
    index at which [evaluate] reads [ts_] or [cps_] is below that length,
    for every parameter: the unchecked [operator[]] never reads outside
    the vectors.  The traced function returns the value of [evaluate]. *)
Theorem X15_evaluate_reads_in_range (sp : Spline) (t : float) :
  wf_spline sp ->
  fst (evaluate_traced sp t) = evaluate sp t /\
  Forall (fun j => (j < length (cps_ sp))%nat /\ (j < length (ts_ sp))%nat)
         (snd (evaluate_traced sp t)).
Proof.
  intro Hwf. unfold evaluate_traced, evaluate.
  destruct (Nat.ltb_spec (length (cps_ sp)) 2) as [_ | Hlen].
  - split; [reflexivity | constructor].
  - split; [apply evaluate_scan_traced_value | ].
    pose proof (evaluate_scan_traced_in_range sp t (length (cps_ sp) - 1) 0
                  Hlen ltac:(lia)) as H.
    rewrite Forall_forall in H. rewrite Forall_forall.
    intros j Hj. specialize (H j Hj). rewrite Hwf. split; exact H.
Qed.

End Reads.

(** ** The argument of the square root *)

Section Radicand.
Context {libm : Libm}.

Lemma shr_exponent (mrs : shr_record) (e n : Z) :
  shr mrs (e + 1) n = (fst (shr mrs e n), (snd (shr mrs e n) + 1)%Z).
Proof.
  destruct n as [ | p | p]; cbn [shr fst snd]; try reflexivity.
  f_equal. lia.
Qed.

Lemma twice_finite (s : bool) (p : positive) (e : Z) :
  (if (e + 1 <=? F32.emax - F32.prec)%Z
   then S754_finite s p (e + 1) else S754_infinity s)
  = twice (if (e <=? F32.emax - F32.prec)%Z
           then S754_finite s p e else S754_infinity s).
Proof.
  destruct (Z.leb_spec e (F32.emax - F32.prec)); cbn [twice]; [reflexivity | ].
  destruct (Z.leb_spec (e + 1) (F32.emax - F32.prec)); [lia | reflexivity].
Qed.

(** Rounding at the next exponent doubles the result, for a number in
    the normal range. *)
Lemma round_aux_twice (s : bool) (M E : Z) (l : location) :
  (0 < M)%Z ->
  (-148 <= Zdigits2 M + E - 24)%Z ->
  binary_round_aux F32.prec F32.emax s M (E + 1) l
  = twice (binary_round_aux F32.prec F32.emax s M E l).
Proof.
  intros HM Hn. unfold binary_round_aux, shr_fexp.
  replace (fexp F32.prec F32.emax (Zdigits2 M + (E + 1)) - (E + 1))%Z
    with (fexp F32.prec F32.emax (Zdigits2 M + E) - E)%Z
    by (unfold fexp, emin, F32.prec, F32.emax; lia).
  rewrite shr_exponent.
  assert (He' : (-148 <= snd (shr (shr_record_of_loc M l) E
                              (fexp F32.prec F32.emax (Zdigits2 M + E) - E)))%Z).
  { destruct (fexp F32.prec F32.emax (Zdigits2 M + E) - E)%Z as [ | p | p] eqn:En;
      cbn [shr snd];
      unfold fexp, emin, F32.prec, F32.emax in En; lia. }
  destruct (shr (shr_record_of_loc M l) E _) as [mrs' e'].
  cbn [fst snd] in *.
  set (m2 := round_nearest_even (shr_m mrs') (loc_of_shr_record mrs')).
  cbn [shr_record_of_loc].
  set (x := (Zdigits2 m2 + e')%Z).
  replace (Zdigits2 m2 + (e' + 1))%Z with (x + 1)%Z by (subst x; lia).
  destruct (Z_le_gt_dec (-149) (x - 24)) as [Hx | Hx].
  - replace (fexp F32.prec F32.emax (x + 1) - (e' + 1))%Z
      with (fexp F32.prec F32.emax x - e')%Z
      by (unfold fexp, emin, F32.prec, F32.emax; lia).
    rewrite shr_exponent.
    destruct (shr _ e' _) as [mrs'' e'']. cbn [fst snd].
    destruct (shr_m mrs''); try reflexivity. apply twice_finite.
  - rewrite (shr_nonpos _ e')
      by (unfold fexp, emin, F32.prec, F32.emax; lia).
    rewrite (shr_nonpos _ (e' + 1))
      by (unfold fexp, emin, F32.prec, F32.emax; lia).
    cbn [shr_m]. destruct m2; try reflexivity. apply twice_finite.
Qed.

Lemma f2_eq : f2 = S754_finite false 8388608 (-22).
Proof. vm_compute. reflexivity. Qed.

(** Halving the double of a binary32 value gives the value back. *)
Lemma div_two_twice (s : bool) (m : positive) (e : Z) :
  F32.valid (S754_finite s m e) = true ->
  (S754_finite s m (e + 1) / f2)%f32 = S754_finite s m e.
Proof.
  intro Hv.
  destruct (valid_finite_cases s m e Hv) as (Hc & He & [[-> Hd] | [Hlo Hd]]).
  - rewrite f2_eq. unfold F32.div, SFdiv, SFdiv_core_binary.
    cbn [Zdigits2].
    change (Z.pos (digits2_pos 8388608)) with 24%Z.
    set (E := Z.min _ _).
    assert (HE : E = (-149)%Z).
    { subst E. unfold fexp, emin, F32.prec, F32.emax. lia. }
    rewrite HE. change (-149 + 1 - -22 - -149)%Z with 23%Z. cbv iota.
    rewrite Z.shiftl_mul_pow2 by lia.
    change (2 ^ 23)%Z with 8388608%Z.
    rewrite div_eucl_exact by lia.
    rewrite new_location_zero, xorb_false_right.
    apply binary_round_aux_canonical; [exact Hc | lia].
  - rewrite f2_eq. unfold F32.div, SFdiv, SFdiv_core_binary.
    cbn [Zdigits2].
    change (Z.pos (digits2_pos 8388608)) with 24%Z.
    set (E := Z.min _ _).
    assert (HE : E = (e - 1)%Z).
    { subst E. unfold fexp, emin, F32.prec, F32.emax. lia. }
    rewrite HE. replace (e + 1 - -22 - (e - 1))%Z with 24%Z by lia. cbv iota.
    rewrite Z.shiftl_mul_pow2 by lia.
    replace (Z.pos m * 2 ^ 24)%Z with (Z.pos m~0 * 8388608)%Z by lia.
    rewrite div_eucl_exact by lia.
    rewrite new_location_zero, xorb_false_right.
    change (m~0)%positive with (Pos.iter xO m 1).
    apply binary_round_aux_shifted; [exact Hc | lia].
Qed.

Lemma f80_eq : (f2 * GRAVITY)%f32 = S754_finite false 10485760 (-17).
Proof. vm_compute. reflexivity. Qed.

Lemma GRAVITY_eq : GRAVITY = S754_finite false 10485760 (-18).
Proof. vm_compute. reflexivity. Qed.

(** The factor 2 and the division by 2 cancel. *)
Lemma two_cancels (d : float) :
  F32.valid d = true ->
  (exists s, d = S754_zero s) \/ F32.leb two_pow_m97 (SFabs d) = true ->
  F32.ltb (SFabs (GRAVITY * d)%f32) two_pow_127 = true ->
  ((f2 * GRAVITY * d) / f2)%f32 = (GRAVITY * d)%f32.
Proof.
  intros Hv Hlow Hhigh. rewrite f80_eq, GRAVITY_eq in *.
  destruct d as [s | s | | s m e].
  - rewrite f2_eq. destruct s; reflexivity.
  - discriminate.
  - discriminate.
  - destruct Hlow as [[s' H] | Hlow]; [discriminate | ].
    assert (He : (-120 <= e)%Z).
    { unfold F32.leb, SFleb, SFcompare, two_pow_m97 in Hlow. cbn [SFabs] in Hlow.
      destruct (Z.compare_spec (-120) e); try lia; discriminate. }
    pose proof (mul_valid (S754_finite false 10485760 (-18))
                  (S754_finite s m e) eq_refl Hv) as HvB.
    unfold F32.mul, SFmul in *. cbn [xorb] in *.
    destruct (valid_finite_cases s m e Hv) as (_ & _ & Hc).
    pose proof (digits_mul_ge 10485760 m) as Hd.
    change (Z.pos (digits2_pos 10485760)) with 24%Z in Hd.
    replace (-17 + e)%Z with (-18 + e + 1)%Z by lia.
    rewrite round_aux_twice by (cbn [Zdigits2]; lia).
    destruct (binary_round_aux F32.prec F32.emax s
                (Z.pos (10485760 * m)) (-18 + e) loc_Exact)
      as [sB | sB | | sB mB eB] eqn:EB; cbn [twice].
    + rewrite f2_eq. destruct sB; reflexivity.
    + rewrite f2_eq. destruct sB; reflexivity.
    + reflexivity.
    + assert (HeB : (eB < 104)%Z).
      { unfold F32.ltb, SFltb, SFcompare, two_pow_127 in Hhigh.
        cbn [SFabs] in Hhigh.
        destruct (Z.compare_spec eB 104) as [Heq | Hlt | Hgt];
          [ | lia | discriminate].
        subst eB. rewrite pos_compare_cont_Eq in Hhigh.
        destruct (valid_finite_cases sB mB 104 HvB) as (_ & _ & HcB).
        destruct (digits_bounds mB) as [Hlo _].
        assert (Hm : (8388608 <= Z.pos mB)%Z).
        { destruct HcB as [[H _] | [_ H]]; [lia | ].
          rewrite H in Hlo. exact Hlo. }
        destruct (Pos.compare_spec mB 8388608) as [Hc1 | Hc1 | Hc1];
          try discriminate.
        exfalso. apply Pos2Z.pos_lt_pos in Hc1. clear - Hm Hc1. lia. }
      replace (eB + 1 <=? F32.emax - F32.prec)%Z with true
        by (symmetry; apply Z.leb_le; unfold F32.emax, F32.prec; lia).
      now apply div_two_twice.
Qed.

(** X16.  The factor 2 and the division by 2 in the speed cancel.  When
    the height difference is a binary32 value that is zero or at least
    2^-97 in magnitude, and gravity times it stays below 2^127 in
    magnitude, the argument of the square root is gravity times the
    height difference, rounded once, and the speed is its square
    root. *)
Theorem X16_radicand (sp : Spline) (g : Gondola) :
  F32.valid (stepInitialHeight sp g - stepCurrentHeight sp g)%f32 = true ->
  (exists s, (stepInitialHeight sp g - stepCurrentHeight sp g)%f32
             = S754_zero s) \/
  F32.leb two_pow_m97
          (SFabs (stepInitialHeight sp g - stepCurrentHeight sp g)%f32) = true ->
  F32.ltb (SFabs (GRAVITY
                  * (stepInitialHeight sp g - stepCurrentHeight sp g))%f32)
          two_pow_127 = true ->
  stepRadicand sp g
  = (GRAVITY * (stepInitialHeight sp g - stepCurrentHeight sp g))%f32 /\
  stepVelocity sp g
  = F32.sqrt (GRAVITY * (stepInitialHeight sp g - stepCurrentHeight sp g))%f32.
Proof.
  intros Hv Hlow Hhigh.
  assert (H : stepRadicand sp g
              = (GRAVITY * (stepInitialHeight sp g - stepCurrentHeight sp g))%f32).
  { unfold stepRadicand. now apply two_cancels. }
  split; [exact H | ]. unfold stepVelocity. now rewrite H.
Qed.

End Radicand.

(** ** [Hermite] at the ends of a segment *)

Section HermiteEnds.
Context {libm : Libm}.

Lemma horner_at_zero (A3 A2 V P : float) (s : bool) :
  F32.is_finite A3 = true -> F32.is_finite A2 = true ->
  F32.is_finite V = true ->
  same_float ((((A3 * S754_zero s + A2) * S754_zero s + V) * S754_zero s) + P)%f32
             P.
Proof.
  intros H3 H2 HV.
  destruct (mul_zero_r A3 s H3) as [s1 ->].
  destruct (mul_zero_r _ s (add_zero_l_finite A2 s1 H2)) as [s2 ->].
  destruct (mul_zero_r _ s (add_zero_l_finite V s2 HV)) as [s3 ->].
  apply add_zero_l_same.
Qed.

Lemma zero_div (b : float) :
  F32.is_nan b = false -> F32.eqb b f0 = false ->
  exists s, (f0 / b)%f32 = S754_zero s.
Proof.
  destruct b as [sb | sb | | sb m e]; intros Hn Hz; try discriminate;
    eexists; reflexivity.
Qed.

(** A finite number other than zero, divided by itself, is [1.0f]. *)
Lemma div_self (s : bool) (m : positive) (e : Z) :
  (S754_finite s m e / S754_finite s m e)%f32 = f1.
Proof.
  unfold F32.div, SFdiv, SFdiv_core_binary. cbn [Zdigits2].
  replace (Z.pos (digits2_pos m) + e - (Z.pos (digits2_pos m) + e))%Z
    with 0%Z by lia.
  rewrite Z.sub_diag.
  change (Z.min (fexp F32.prec F32.emax 0) 0) with (-24)%Z.
  change (0 - -24)%Z with 24%Z. cbv iota.
  rewrite Z.shiftl_mul_pow2 by lia.
  rewrite (Z.mul_comm (Z.pos m)), div_eucl_exact by lia.
  rewrite new_location_zero.
  replace (xorb s s) with false by (destruct s; reflexivity).
  rewrite f1_eq.
  change (2 ^ 24)%Z with (Z.pos (Pos.iter xO 8388608%positive 1%positive)).
  change (-24)%Z with (-23 - Z.pos 1)%Z.
  apply binary_round_aux_shifted; [reflexivity | lia].
Qed.

(** The sum of two binary32 values is a binary32 value. *)
Lemma add_valid (a b : float) :
  F32.valid a = true -> F32.valid b = true -> F32.valid (a + b)%f32 = true.
Proof.
  destruct a as [sa | sa | | sa ma ea], b as [sb | sb | | sb mb eb];
    intros Ha Hb; try reflexivity; try assumption;
    try (destruct sa, sb; reflexivity).
  unfold F32.add, SFadd.
  destruct (_ + _)%Z as [ | M | M]; cbn [binary_normalize].
  - reflexivity.
  - apply binary_round_valid.
  - apply binary_round_valid.
Qed.

Lemma vec_add_valid (a b : vec2) :
  valid_vec2 a = true -> valid_vec2 b = true -> valid_vec2 (a + b)%v2 = true.
Proof.
  unfold valid_vec2, V2.add. cbn [x y]. intros Ha Hb.
  apply andb_prop in Ha. apply andb_prop in Hb.
  destruct Ha as [Hax Hay], Hb as [Hbx Hby].
  now rewrite !add_valid.
Qed.

(** X17.  [Hermite] at the two ends of its segment.  At [t = t0], with a
    finite [t0], a segment length [t1 - t0] that is a number other than
    zero and finite coefficients, it returns the first end point [p0]
    (as a number: a zero may change its sign).  At [t = t1], with a
    finite segment length other than zero and coefficients that are
    binary32 values, the normalised parameter is exactly 1 and it returns
    the single-precision sum [a3 + a2 + v0 + p0] of its four
    coefficients. *)
Theorem X17_Hermite_ends (p0 v0 p1 v1 : vec2) (t0 t1 : float) :
  (F32.is_finite t0 = true ->
   F32.is_nan (t1 - t0)%f32 = false -> F32.eqb (t1 - t0)%f32 f0 = false ->
   finite_vec2 (Hermite_a3 p0 v0 t0 p1 v1 t1) = true ->
   finite_vec2 (Hermite_a2 p0 v0 t0 p1 v1 t1) = true ->
   finite_vec2 v0 = true ->
     same_vec2 (Hermite p0 v0 t0 p1 v1 t1 t0) p0) /\
  (F32.is_finite (t1 - t0)%f32 = true -> F32.eqb (t1 - t0)%f32 f0 = false ->
   valid_vec2 (Hermite_a3 p0 v0 t0 p1 v1 t1) = true ->
   valid_vec2 (Hermite_a2 p0 v0 t0 p1 v1 t1) = true ->
   valid_vec2 v0 = true ->
     Hermite p0 v0 t0 p1 v1 t1 t1
     = (Hermite_a3 p0 v0 t0 p1 v1 t1 + Hermite_a2 p0 v0 t0 p1 v1 t1
        + v0 + p0)%v2).
Proof.
  split.
  - intros Ht0 Hn Hz Ha3 Ha2 Hv0. rewrite Hermite_eq. cbv zeta.
    rewrite (sub_self t0 Ht0).
    destruct (zero_div _ Hn Hz) as [s ->].
    unfold finite_vec2 in *.
    apply andb_prop in Ha3. apply andb_prop in Ha2. apply andb_prop in Hv0.
    destruct Ha3 as [Ha3x Ha3y], Ha2 as [Ha2x Ha2y], Hv0 as [Hvx Hvy].
    unfold same_vec2, V2.add, V2.scale. cbn [x y].
    split; apply horner_at_zero; assumption.
  - intros Hf Hz Ha3 Ha2 Hv0. rewrite Hermite_eq. cbv zeta.
    assert (Hone : ((t1 - t0) / (t1 - t0))%f32 = f1).
    { destruct (t1 - t0)%f32 as [sd | sd | | sd md ed]; try discriminate.
      apply div_self. }
    rewrite Hone.
    apply (horner_one (Hermite_a3 p0 v0 t0 p1 v1 t1)
                      (Hermite_a2 p0 v0 t0 p1 v1 t1) v0 p0).
    + exact Ha3.
    + now apply vec_add_valid.
    + apply vec_add_valid; [now apply vec_add_valid | exact Hv0].
Qed.

End HermiteEnds.

(** ** Exact arithmetic on a binary grid *)

Section Dyadic.

(** A mantissa of 24 bits is canonical at every exponent of the format. *)
Lemma form_canonical (m : positive) (F : Z) :
  Z.pos (digits2_pos m) = 24%Z -> (-149 <= F)%Z ->
  canonical_mantissa F32.prec F32.emax m F = true.
Proof.
  intros Hd HF. unfold canonical_mantissa. rewrite Hd. apply Z.eqb_eq.
  unfold fexp, emin, F32.prec, F32.emax. lia.
Qed.

Lemma form_valid (s : bool) (m : positive) (F : Z) :
  Z.pos (digits2_pos m) = 24%Z -> (-149 <= F <= 104)%Z ->
  F32.valid (S754_finite s m F) = true.
Proof.
  intros Hd HF. unfold F32.valid, valid_binary, bounded.
  rewrite (form_canonical m F Hd) by lia.
  apply Z.leb_le. unfold F32.emax, F32.prec. lia.
Qed.

(** A mantissa of 24 bits shifted left rounds back to itself. *)
Lemma round_form_aux (s : bool) (m M : positive) (F E : Z) :
  Z.pos (digits2_pos m) = 24%Z -> (-149 <= F <= 104)%Z ->
  (E <= F)%Z -> (Z.pos M = Z.pos m * 2 ^ (F - E))%Z ->
  binary_round_aux F32.prec F32.emax s (Z.pos M) E loc_Exact
  = S754_finite s m F.
Proof.
  intros Hd HF HE HM.
  assert (Hc := form_canonical m F Hd ltac:(lia)).
  destruct (F - E)%Z as [ | k | k] eqn:Ek; try lia.
  - assert (E = F) by lia. subst E.
    assert (M = m) by (apply Pos2Z.inj; lia). subst M.
    apply binary_round_aux_canonical; [exact Hc | lia].
  - assert (HMk : M = Pos.iter xO m k)
      by (apply Pos2Z.inj; rewrite iter_xO_pow; exact HM).
    rewrite HMk. replace E with (F - Z.pos k)%Z by lia.
    apply binary_round_aux_shifted; [exact Hc | lia].
Qed.

(** Rounding [M * 2^E] when that number is [m * 2^F] for a mantissa [m] of
    24 bits: the result is [m] at [F], whichever of [E] and [F] is the
    larger. *)
Lemma round_form (s : bool) (m M : positive) (F E : Z) :
  Z.pos (digits2_pos m) = 24%Z -> (-149 <= F <= 104)%Z ->
  ((F <= E)%Z /\ (Z.pos m = Z.pos M * 2 ^ (E - F))%Z) \/
  ((E <= F)%Z /\ (Z.pos M = Z.pos m * 2 ^ (F - E))%Z) ->
  binary_round F32.prec F32.emax s M E = S754_finite s m F.
Proof.
  intros Hd HF HM. unfold binary_round.
  assert (HdM : (Z.pos (digits2_pos M) + E = 24 + F)%Z).
  { destruct HM as [[Hle HM] | [Hle HM]].
    - rewrite <- Hd. rewrite (digits_shift M m (E - F)) by (try lia; exact HM).
      lia.
    - rewrite (digits_shift m M (F - E)) by (try lia; exact HM). lia. }
  rewrite HdM.
  replace (fexp F32.prec F32.emax (24 + F)) with F
    by (unfold fexp, emin, F32.prec, F32.emax; lia).
  destruct HM as [[Hle HM] | [Hle HM]].
  - destruct (E - F)%Z as [ | k | k] eqn:Ek; try lia.
    + rewrite shl_align_none by lia.
      apply round_form_aux; try assumption; try lia.
      replace (F - E)%Z with 0%Z by lia. lia.
    + rewrite (shl_align_left M E F k) by lia.
      apply round_form_aux; try assumption; try lia.
      rewrite iter_xO_pow, Z.sub_diag. lia.
  - rewrite shl_align_none by lia.
    apply round_form_aux; assumption.
Qed.

Lemma round_pos (s : bool) (p m : positive) (e0 e : Z) :
  int_form p m e0 -> (-125 <= e <= 104)%Z ->
  binary_round F32.prec F32.emax s p e = S754_finite s m (e0 + e).
Proof.
  intros Hf He.
  destruct (int_form_facts p m e0 Hf) as (_ & He0 & Hm & Hr).
  apply round_form; [exact (int_form_digits p m e0 Hf) | lia | ].
  left. split; [lia | ].
  replace (e - (e0 + e))%Z with (- e0)%Z by lia. exact Hm.
Qed.

(** A mantissa that holds [p * 2^(e - E)] at the exponent [E] rounds to
    the value of [p * 2^e]. *)
Lemma round_shift (s : bool) (p M : positive) (e E : Z) :
  (Z.pos p < 16777216)%Z -> (-125 <= e <= 104)%Z -> (E <= e)%Z ->
  (Z.pos M = Z.pos p * 2 ^ (e - E))%Z ->
  binary_round F32.prec F32.emax s M E
  = binary_round F32.prec F32.emax s p e.
Proof.
  intros Hp He HE HM.
  destruct (int_form_exists p (digits_le_24 p Hp)) as (m & e0 & Hf).
  rewrite (round_pos s p m e0 e Hf He).
  destruct (int_form_facts p m e0 Hf) as (_ & He0 & Hm & Hr).
  apply round_form; [exact (int_form_digits p m e0 Hf) | lia | ].
  destruct (Z_le_gt_dec (e0 + e) E) as [Hle | Hgt].
  - left. split; [exact Hle | ].
    rewrite HM, Hm, <- !Z.mul_assoc, <- Z.pow_add_r by lia.
    do 2 f_equal. lia.
  - right. split; [lia | ].
    rewrite HM, Hm, <- !Z.mul_assoc, <- Z.pow_add_r by lia.
    do 2 f_equal. lia.
Qed.

(** The number [z * 2^e], written with a smaller exponent, normalises to
    [dyadic z e]. *)
Lemma normalize_dyadic (z e E : Z) :
  (Z.abs z < 16777216)%Z -> (-125 <= e <= 104)%Z -> (E <= e)%Z ->
  binary_normalize F32.prec F32.emax (z * 2 ^ (e - E)) E false = dyadic z e.
Proof.
  intros Hz He HE.
  assert (Hpow : (0 < 2 ^ (e - E))%Z) by (apply Z.pow_pos_nonneg; lia).
  destruct z as [ | p | p].
  - reflexivity.
  - destruct (Z.pos p * 2 ^ (e - E))%Z as [ | M | M] eqn:EM; try lia.
    unfold dyadic, binary_normalize.
    apply round_shift; try assumption; lia.
  - destruct (Z.neg p * 2 ^ (e - E))%Z as [ | M | M] eqn:EM; try lia.
    unfold dyadic, binary_normalize.
    apply round_shift; try assumption; lia.
Qed.

(** A value of the grid that is not zero is a normal number with the sign
    of [z]. *)
Lemma dyadic_shape (z e : Z) :
  z <> 0%Z -> (Z.abs z < 16777216)%Z -> (-125 <= e <= 104)%Z ->
  exists m e0,
    dyadic z e = S754_finite (z <? 0)%Z m (e0 + e) /\
    Z.pos (digits2_pos m) = 24%Z /\ (-23 <= e0 <= 0)%Z /\
    (Z.pos m = Z.abs z * 2 ^ (- e0))%Z.
Proof.
  intros Hz Ha He.
  destruct z as [ | p | p]; [congruence | | ];
    destruct (int_form_exists p (digits_le_24 p ltac:(lia))) as (m & e0 & Hf);
    destruct (int_form_facts p m e0 Hf) as (_ & He0 & Hm & Hr);
    exists m, e0; (split; [ | split; [ | split]]);
    try exact (int_form_digits p m e0 Hf); try lia;
    unfold dyadic, binary_normalize; apply round_pos; assumption.
Qed.

Lemma dyadic_valid (z e : Z) :
  (Z.abs z < 16777216)%Z -> (-125 <= e <= 104)%Z ->
  F32.valid (dyadic z e) = true /\ F32.is_finite (dyadic z e) = true /\
  dyadic z e <> S754_zero true.
Proof.
  intros Ha He. destruct (Z.eq_dec z 0) as [-> | Hz].
  - repeat split. discriminate.
  - destruct (dyadic_shape z e Hz Ha He) as (m & e0 & -> & Hd & He0 & _).
    split; [apply form_valid; [exact Hd | lia] | ].
    split; [reflexivity | discriminate].
Qed.

Lemma aligned_value (z e : Z) (m : positive) (F ez : Z) :
  (Z.pos m = Z.abs z * 2 ^ (e - F))%Z -> (ez <= F)%Z -> (F <= e)%Z ->
  cond_Zopp (z <? 0)%Z (Z.pos (fst (shl_align m F ez)))
  = (z * 2 ^ (e - ez))%Z.
Proof.
  intros Hm H1 H2. rewrite shl_align_value by lia.
  rewrite Hm, <- Z.mul_assoc, <- Z.pow_add_r by lia.
  replace (e - F + (F - ez))%Z with (e - ez)%Z by lia.
  unfold cond_Zopp. destruct (Z.ltb_spec z 0).
  - rewrite Z.abs_neq by lia. ring.
  - rewrite Z.abs_eq by lia. reflexivity.
Qed.

(** Sums, differences and products of grid values that stay below 2^24
    units are exact. *)
Lemma dyadic_add (a b e : Z) :
  (Z.abs a < 16777216)%Z -> (Z.abs b < 16777216)%Z ->
  (Z.abs (a + b) < 16777216)%Z -> (-125 <= e <= 104)%Z ->
  (dyadic a e + dyadic b e)%f32 = dyadic (a + b) e.
Proof.
  intros Ha Hb Hab He.
  destruct (Z.eq_dec a 0) as [-> | Hza].
  - rewrite Z.add_0_l.
    destruct (Z.eq_dec b 0) as [-> | Hzb]; [reflexivity | ].
    destruct (dyadic_shape b e Hzb Hb He) as (m & e0 & -> & _).
    reflexivity.
  - destruct (dyadic_shape a e Hza Ha He) as (ma & ea & Ea & Hda & Hra & Hma).
    destruct (Z.eq_dec b 0) as [-> | Hzb].
    + rewrite Z.add_0_r, Ea. reflexivity.
    + destruct (dyadic_shape b e Hzb Hb He)
        as (mb & eb & Eb & Hdb & Hrb & Hmb).
      rewrite Ea, Eb. unfold F32.add, SFadd.
      set (ez := Z.min (ea + e) (eb + e)).
      rewrite (aligned_value a e ma (ea + e) ez)
        by (try (subst ez; lia); rewrite Hma; do 2 f_equal; lia).
      rewrite (aligned_value b e mb (eb + e) ez)
        by (try (subst ez; lia); rewrite Hmb; do 2 f_equal; lia).
      rewrite <- Z.mul_add_distr_r.
      apply normalize_dyadic; try assumption. subst ez; lia.
Qed.

Lemma dyadic_sub (a b e : Z) :
  (Z.abs a < 16777216)%Z -> (Z.abs b < 16777216)%Z ->
  (Z.abs (a - b) < 16777216)%Z -> (-125 <= e <= 104)%Z ->
  (dyadic a e - dyadic b e)%f32 = dyadic (a - b) e.
Proof.
  intros Ha Hb Hab He.
  destruct (Z.eq_dec b 0) as [-> | Hzb].
  - rewrite Z.sub_0_r.
    destruct (Z.eq_dec a 0) as [-> | Hza]; [reflexivity | ].
    destruct (dyadic_shape a e Hza Ha He) as (m & e0 & -> & _).
    reflexivity.
  - destruct (dyadic_shape b e Hzb Hb He) as (mb & eb & Eb & Hdb & Hrb & Hmb).
    destruct (Z.eq_dec a 0) as [-> | Hza].
    + rewrite Z.sub_0_l.
      assert (Hnb : (- b <> 0)%Z) by lia.
      destruct (dyadic_shape (- b) e Hnb ltac:(lia) He)
        as (m' & e' & E' & Hd' & Hr' & Hm').
      rewrite Eb, E'. unfold F32.sub, SFsub, dyadic. cbn [binary_normalize SFopp].
      assert (Heq : (e' = eb)%Z /\ m' = mb).
      { rewrite Z.abs_opp in Hm'.
        assert (Hdig : (Z.pos (digits2_pos m') = Z.pos (digits2_pos mb))%Z) by lia.
        destruct (Z_lt_le_dec e' eb) as [Hlt | Hge1].
        - exfalso.
          assert (Hx : (Z.pos m' = Z.pos mb * 2 ^ (eb - e'))%Z).
          { rewrite Hm', Hmb, <- Z.mul_assoc, <- Z.pow_add_r by lia.
            do 2 f_equal. lia. }
          rewrite (digits_shift mb m' (eb - e')) in Hdig by (try lia; exact Hx).
          lia.
        - destruct (Z_lt_le_dec eb e') as [Hlt | Hge2].
          + exfalso.
            assert (Hx : (Z.pos mb = Z.pos m' * 2 ^ (e' - eb))%Z).
            { rewrite Hm', Hmb, <- Z.mul_assoc, <- Z.pow_add_r by lia.
              do 2 f_equal. lia. }
            rewrite (digits_shift m' mb (e' - eb)) in Hdig
              by (try lia; exact Hx).
            lia.
          + assert (e' = eb) by lia. subst e'. split; [reflexivity | ].
            apply Pos2Z.inj. lia. }
      destruct Heq as [-> ->]. f_equal.
      destruct b; try congruence; reflexivity.
    + destruct (dyadic_shape a e Hza Ha He)
        as (ma & ea & Ea & Hda & Hra & Hma).
      rewrite Ea, Eb. unfold F32.sub, SFsub.
      set (ez := Z.min (ea + e) (eb + e)).
      rewrite (aligned_value a e ma (ea + e) ez)
        by (try (subst ez; lia); rewrite Hma; do 2 f_equal; lia).
      rewrite (aligned_value b e mb (eb + e) ez)
        by (try (subst ez; lia); rewrite Hmb; do 2 f_equal; lia).
      rewrite <- Z.mul_sub_distr_r.
      apply normalize_dyadic; try assumption. subst ez; lia.
Qed.


Lemma dyadic_form (z : Z) :
  z <> 0%Z -> (Z.abs z < 16777216)%Z ->
  exists m e0,
    Z.pos (digits2_pos m) = 24%Z /\ (-23 <= e0 <= 0)%Z /\
    (Z.pos m = Z.abs z * 2 ^ (- e0))%Z /\
    forall e, (-125 <= e <= 104)%Z ->
      dyadic z e = S754_finite (z <? 0)%Z m (e0 + e).
Proof.
  intros Hz Ha.
  destruct z as [ | p | p]; [congruence | | ];
    destruct (int_form_exists p (digits_le_24 p ltac:(lia))) as (m & e0 & Hf);
    destruct (int_form_facts p m e0 Hf) as (_ & He0 & Hm & Hr);
    exists m, e0; (split; [ | split; [ | split]]);
    try exact (int_form_digits p m e0 Hf); try lia;
    intros e He; unfold dyadic, binary_normalize; apply round_pos; assumption.
Qed.

Lemma mul_comm (a b : float) : (a * b)%f32 = (b * a)%f32.
Proof.
  destruct a as [sa | sa | | sa ma ea], b as [sb | sb | | sb mb eb];
    unfold F32.mul, SFmul; try reflexivity;
    rewrite (xorb_comm sa sb); try reflexivity.
  now rewrite (Pos.mul_comm ma mb), (Z.add_comm ea eb).
Qed.

Lemma dyadic_mul (a b e1 e2 : Z) :
  a <> 0%Z -> b <> 0%Z ->
  (Z.abs a < 16777216)%Z -> (Z.abs b < 16777216)%Z ->
  (Z.abs (a * b) < 16777216)%Z ->
  (-125 <= e1 <= 104)%Z -> (-125 <= e2 <= 104)%Z ->
  (-125 <= e1 + e2 <= 104)%Z ->
  (dyadic a e1 * dyadic b e2)%f32 = dyadic (a * b) (e1 + e2).
Proof.
  intros Hza Hzb Ha Hb Hab H1 H2 H12.
  assert (Hzab : (a * b <> 0)%Z) by lia.
  destruct (dyadic_shape a e1 Hza Ha H1) as (ma & ea & -> & Hda & Hra & Hma).
  destruct (dyadic_shape b e2 Hzb Hb H2) as (mb & eb & -> & Hdb & Hrb & Hmb).
  destruct (dyadic_shape (a * b) (e1 + e2) Hzab Hab H12)
    as (m & e0 & -> & Hd & Hr & Hm).
  unfold F32.mul, SFmul.
  replace (xorb (a <? 0)%Z (b <? 0)%Z) with (a * b <? 0)%Z
    by (destruct a, b; try congruence; reflexivity).
  assert (Hprod : (Z.pos (ma * mb) = Z.abs (a * b) * 2 ^ (- ea - eb))%Z).
  { rewrite Pos2Z.inj_mul, Hma, Hmb, Z.abs_mul.
    replace (- ea - eb)%Z with (- ea + - eb)%Z by lia.
    rewrite Z.pow_add_r by lia. ring. }
  assert (Hle : (ea + eb <= e0)%Z).
  { destruct (Z_le_gt_dec (ea + eb) e0) as [Hle | Hgt]; [exact Hle | exfalso].
    assert (Hx : (Z.pos m = Z.pos (ma * mb) * 2 ^ (ea + eb - e0))%Z).
    { rewrite Hprod, Hm, <- Z.mul_assoc, <- Z.pow_add_r by lia.
      do 2 f_equal. lia. }
    pose proof (digits_shift (ma * mb) m (ea + eb - e0) ltac:(lia) Hx) as Hs.
    pose proof (digits_mul_ge ma mb). lia. }
  apply round_form_aux; [exact Hd | lia | lia | ].
  rewrite Hprod, Hm, <- Z.mul_assoc, <- Z.pow_add_r by lia.
  do 2 f_equal. lia.
Qed.

(** Scaling by a positive integer constant. *)
Lemma dyadic_scale (a c e : Z) :
  (0 < c < 16777216)%Z -> (Z.abs a < 16777216)%Z ->
  (Z.abs (a * c) < 16777216)%Z -> (-125 <= e <= 104)%Z ->
  (dyadic a e * F32.of_Z c)%f32 = dyadic (a * c) e.
Proof.
  intros Hc Ha Hac He. change (F32.of_Z c) with (dyadic c 0).
  destruct (Z.eq_dec a 0) as [-> | Hza].
  - destruct (dyadic_shape c 0 ltac:(lia) ltac:(lia) ltac:(lia))
      as (m & e0 & -> & _).
    replace (c <? 0)%Z with false by (symmetry; apply Z.ltb_ge; lia).
    reflexivity.
  - replace e with (e + 0)%Z at 2 by lia.
    apply dyadic_mul; try assumption; lia.
Qed.

Lemma dyadic_lscale (a c e : Z) :
  (0 < c < 16777216)%Z -> (Z.abs a < 16777216)%Z ->
  (Z.abs (a * c) < 16777216)%Z -> (-125 <= e <= 104)%Z ->
  (F32.of_Z c * dyadic a e)%f32 = dyadic (a * c) e.
Proof. intros. rewrite mul_comm. now apply dyadic_scale. Qed.

Lemma dyadic_div_one (z e : Z) :
  (Z.abs z < 16777216)%Z -> (-125 <= e <= 104)%Z ->
  (dyadic z e / f1)%f32 = dyadic z e.
Proof.
  intros Hz He. destruct (dyadic_valid z e Hz He) as (Hv & Hf & _).
  now apply div_one_valid.
Qed.

Lemma dyadic_mul_one (z e : Z) :
  (Z.abs z < 16777216)%Z -> (-125 <= e <= 104)%Z ->
  (dyadic z e * f1)%f32 = dyadic z e.
Proof.
  intros Hz He. destruct (dyadic_valid z e Hz He) as (Hv & _).
  now apply mul_one_valid.
Qed.

(** Halving moves to the grid of half the unit. *)
Lemma dyadic_half (z e : Z) :
  (Z.abs z < 16777216)%Z -> (-124 <= e <= 104)%Z ->
  (dyadic z e / f2)%f32 = dyadic z (e - 1).
Proof.
  intros Hz He. destruct (Z.eq_dec z 0) as [-> | Hnz].
  - rewrite f2_eq. reflexivity.
  - destruct (dyadic_form z Hnz Hz) as (m & e0 & Hd & Hr & Hm & Hall).
    rewrite (Hall e) by lia. rewrite (Hall (e - 1)%Z) by lia.
    replace (e0 + e)%Z with (e0 + (e - 1) + 1)%Z by lia.
    apply div_two_twice. apply form_valid; [exact Hd | lia].
Qed.

Lemma dyadic_double (z e : Z) :
  (Z.abs z < 16777216)%Z -> (-124 <= e <= 104)%Z ->
  dyadic z e = dyadic (2 * z) (e - 1).
Proof.
  intros Hz He. rewrite <- (normalize_dyadic z e (e - 1)) by lia.
  replace (e - (e - 1))%Z with 1%Z by lia.
  unfold dyadic. f_equal. lia.
Qed.

(** One coordinate of [Hermite] on a segment of length 1, at its end and
    at its start: all intermediate values are exact. *)
Lemma coordinate_at_end (c0 c1 d0 d1 e : Z) :
  (Z.abs c0 <= 1048576)%Z -> (Z.abs c1 <= 1048576)%Z ->
  (Z.abs d0 <= 1048576)%Z -> (Z.abs d1 <= 1048576)%Z ->
  (-125 <= e <= 104)%Z ->
  let P0 := dyadic c0 e in
  let P1 := dyadic c1 e in
  let V0 := dyadic d0 e in
  let V1 := dyadic d1 e in
  let A2 := ((P1 - P0) * f3 / f1 / f1 - (V1 + f2 * V0) / f1)%f32 in
  let A3 := ((P0 - P1) * f2 / f1 + (V1 + V0) / f1)%f32 in
  A2 = dyadic (3 * (c1 - c0) - (d1 + 2 * d0)) e /\
  A3 = dyadic (2 * (c0 - c1) + (d1 + d0)) e /\
  ((((A3 * f1 + A2) * f1 + V0) * f1 + P0)%f32 = P1).
Proof.
  intros H0 H1 Hd0 Hd1 He P0 P1 V0 V1 A2 A3.
  assert (E2 : A2 = dyadic (3 * (c1 - c0) - (d1 + 2 * d0)) e).
  { subst A2 P0 P1 V0 V1. change f3 with (F32.of_Z 3). change f2 with (F32.of_Z 2).
    rewrite dyadic_sub by lia.
    rewrite dyadic_scale by lia.
    rewrite !dyadic_div_one by lia.
    rewrite dyadic_lscale by lia.
    rewrite dyadic_add by lia.
    rewrite dyadic_div_one by lia.
    rewrite dyadic_sub by lia.
    f_equal. lia. }
  assert (E3 : A3 = dyadic (2 * (c0 - c1) + (d1 + d0)) e).
  { subst A3 P0 P1 V0 V1. change f2 with (F32.of_Z 2).
    rewrite dyadic_sub by lia.
    rewrite dyadic_scale by lia.
    rewrite dyadic_div_one by lia.
    rewrite dyadic_add by lia.
    rewrite dyadic_div_one by lia.
    rewrite dyadic_add by lia.
    f_equal. lia. }
  split; [exact E2 | ]. split; [exact E3 | ].
  rewrite E2, E3. subst P0 P1 V0 V1.
  rewrite dyadic_mul_one by lia.
  rewrite dyadic_add by lia.
  rewrite dyadic_mul_one by lia.
  rewrite dyadic_add by lia.
  rewrite dyadic_mul_one by lia.
  rewrite dyadic_add by lia.
  f_equal. lia.
Qed.

End Dyadic.

(** ** The curve at the knots *)

Section Interpolation.
Context {libm : Libm}.

(** Horner's scheme at [s = 0] with a zero tangent returns its constant
    term, unless that is the negative zero. *)
Lemma horner_zero_exact (A3 A2 P : float) :
  F32.is_finite A3 = true -> F32.is_finite A2 = true ->
  P <> S754_zero true ->
  ((((A3 * f0 + A2) * f0 + f0) * f0) + P)%f32 = P.
Proof.
  intros H3 H2 HP. unfold f0, F32.zero.
  destruct (mul_zero_r A3 false H3) as [s1 ->].
  destruct (mul_zero_r _ false (add_zero_l_finite A2 s1 H2)) as [s2 ->].
  assert (Hz : ((S754_zero s2 + S754_zero false) * S754_zero false)%f32
               = S754_zero false)
    by (destruct s2; reflexivity).
  rewrite Hz. now apply add_f0_l.
Qed.

Lemma grid_double (B g : Z) (p : vec2) :
  (B <= 524288)%Z -> (-124 <= g <= 104)%Z ->
  grid B g p -> grid (2 * B) (g - 1) p.
Proof.
  intros HB Hg (a & b & -> & Ha & Hb).
  exists (2 * a)%Z, (2 * b)%Z.
  rewrite <- !dyadic_double by lia. repeat split; lia.
Qed.

Lemma grid_origin (B g : Z) : (0 <= B)%Z -> grid B g origin.
Proof. intro HB. exists 0%Z, 0%Z. repeat split; simpl; lia. Qed.

(** The tangent of [evaluate] between two grid points whose knots are
    2.0 apart. *)
Lemma grid_tangent (g : Z) (p q : vec2) :
  (-124 <= g <= 104)%Z -> on_grid g p -> on_grid g q ->
  grid 1048576 (g - 1) ((p - q) /: f2)%v2.
Proof.
  intros Hg (a & b & -> & Ha & Hb) (a' & b' & -> & Ha' & Hb').
  exists (a - a')%Z, (b - b')%Z.
  unfold V2.sub, V2.div. cbn [x y].
  rewrite !dyadic_sub by lia. rewrite !dyadic_half by lia.
  repeat split; lia.
Qed.

(** [Hermite] on a segment of length 1 between grid points returns the
    end points exactly at the two ends. *)
Lemma Hermite_grid_end (g : Z) (p0 v0 p1 v1 : vec2) (t0 t1 : float) :
  (-124 <= g <= 104)%Z ->
  powf f1 f3 = f1 -> powf f1 f2 = f1 ->
  (t1 - t0)%f32 = f1 ->
  on_grid g p0 -> on_grid g p1 ->
  grid 1048576 (g - 1) v0 -> grid 1048576 (g - 1) v1 ->
  Hermite p0 v0 t0 p1 v1 t1 t1 = p1.
Proof.
  intros Hg Hp3 Hp2 Ht G0 G1 T0 T1.
  apply (grid_double _ g) in G0; [ | unfold on_grid; lia | exact Hg].
  apply (grid_double _ g) in G1; [ | unfold on_grid; lia | exact Hg].
  destruct G0 as (a0 & b0 & -> & Ha0 & Hb0).
  destruct G1 as (a1 & b1 & -> & Ha1 & Hb1).
  destruct T0 as (c0 & d0 & -> & Hc0 & Hd0).
  destruct T1 as (c1 & d1 & -> & Hc1 & Hd1).
  unfold Hermite. rewrite !Ht, Hp3, Hp2, f1_div_f1.
  unfold V2.add, V2.sub, V2.scale, V2.lscale, V2.div. cbn [x y].
  f_equal.
  - exact (proj2 (proj2 (coordinate_at_end a0 a1 c0 c1 (g - 1)
             ltac:(lia) ltac:(lia) ltac:(lia) ltac:(lia) ltac:(lia)))).
  - exact (proj2 (proj2 (coordinate_at_end b0 b1 d0 d1 (g - 1)
             ltac:(lia) ltac:(lia) ltac:(lia) ltac:(lia) ltac:(lia)))).
Qed.

Lemma coordinate_at_start (c0 c1 d1 e : Z) :
  (Z.abs c0 <= 1048576)%Z -> (Z.abs c1 <= 1048576)%Z ->
  (Z.abs d1 <= 1048576)%Z -> (-125 <= e <= 104)%Z ->
  let P0 := dyadic c0 e in
  let P1 := dyadic c1 e in
  let V1 := dyadic d1 e in
  let A2 := ((P1 - P0) * f3 / f1 / f1 - (V1 + f2 * f0) / f1)%f32 in
  let A3 := ((P0 - P1) * f2 / f1 + (V1 + f0) / f1)%f32 in
  ((((A3 * f0 + A2) * f0 + f0) * f0 + P0)%f32 = P0).
Proof.
  intros H0 H1 Hd1 He P0 P1 V1 A2 A3.
  destruct (coordinate_at_end c0 c1 0 d1 e H0 H1 ltac:(lia) Hd1 He)
    as (E2 & E3 & _).
  cbv zeta in E2, E3. change (dyadic 0 e) with f0 in E2, E3.
  apply horner_zero_exact.
  - subst A3 P0 P1 V1. rewrite E3. apply dyadic_valid; lia.
  - subst A2 P0 P1 V1. rewrite E2. apply dyadic_valid; lia.
  - apply dyadic_valid; lia.
Qed.

Lemma Hermite_grid_start (g : Z) (p0 p1 v1 : vec2) :
  (-124 <= g <= 104)%Z ->
  powf f1 f3 = f1 -> powf f1 f2 = f1 ->
  on_grid g p0 -> on_grid g p1 -> grid 1048576 (g - 1) v1 ->
  Hermite p0 origin f0 p1 v1 f1 f0 = p0.
Proof.
  intros Hg Hp3 Hp2 G0 G1 T1.
  apply (grid_double _ g) in G0; [ | unfold on_grid; lia | exact Hg].
  apply (grid_double _ g) in G1; [ | unfold on_grid; lia | exact Hg].
  destruct G0 as (a0 & b0 & -> & Ha0 & Hb0).
  destruct G1 as (a1 & b1 & -> & Ha1 & Hb1).
  destruct T1 as (c1 & d1 & -> & Hc1 & Hd1).
  unfold Hermite. rewrite f0_div_f1, !sub_f0, Hp3, Hp2.
  unfold V2.add, V2.sub, V2.scale, V2.lscale, V2.div, origin. cbn [x y].
  f_equal.
  - exact (coordinate_at_start a0 a1 c1 (g - 1)
             ltac:(lia) ltac:(lia) ltac:(lia) ltac:(lia)).
  - exact (coordinate_at_start b0 b1 d1 (g - 1)
             ltac:(lia) ltac:(lia) ltac:(lia) ltac:(lia)).
Qed.

(** Two knots that are two indices apart differ by 2.0, up to the knot
    2^24. *)
Lemma knot_diff2_full (k : nat) :
  (Z.of_nat k + 2 <= 16777216)%Z -> (knot (k + 2) - knot k)%f32 = f2.
Proof.
  intro Hk. destruct (Z.eq_dec (Z.of_nat k + 2) 16777216) as [Heq | Hne].
  - rewrite !knot_small by (unfold knot_max; lia).
    replace (Z.of_nat (k + 2)) with 16777216%Z by lia.
    replace (Z.of_nat k) with 16777214%Z by lia.
    vm_compute. reflexivity.
  - apply knot_diff2. lia.
Qed.

Lemma grid_at (g : Z) (ps : list vec2) (j : nat) :
  Forall (on_grid g) ps -> (j < length ps)%nat ->
  on_grid g (at_ origin ps j).
Proof.
  intros Hall Hj. rewrite Forall_forall in Hall.
  apply Hall. unfold at_. now apply nth_In.
Qed.

Lemma grid_segment_v0 (g : Z) (ps : list vec2) (i : nat) :
  (-124 <= g <= 104)%Z -> Forall (on_grid g) ps ->
  (i + 1 < length ps)%nat -> (Z.of_nat (length ps) <= 16777217)%Z ->
  grid 1048576 (g - 1) (segment_v0 (build ps) i).
Proof.
  intros Hg Hall Hi Hlen. unfold segment_v0.
  destruct (Nat.ltb_spec 0 i) as [Hpos | Hz];
    [ | apply grid_origin; lia].
  rewrite build_cps, !build_knot by lia.
  replace (i + 1)%nat with (i - 1 + 2)%nat at 2 by lia.
  rewrite knot_diff2_full by lia.
  apply grid_tangent; [exact Hg | | ]; apply grid_at; try assumption; lia.
Qed.

Lemma grid_segment_v1 (g : Z) (ps : list vec2) (i : nat) :
  (-124 <= g <= 104)%Z -> Forall (on_grid g) ps ->
  (i + 1 < length ps)%nat -> (Z.of_nat (length ps) <= 16777217)%Z ->
  grid 1048576 (g - 1) (segment_v1 (build ps) i).
Proof.
  intros Hg Hall Hi Hlen. unfold segment_v1. rewrite build_cps.
  destruct (Nat.ltb_spec i (length ps - 2)) as [Hin | Hlast];
    [ | apply grid_origin; lia].
  rewrite !build_knot by lia.
  rewrite knot_diff2_full by lia.
  apply grid_tangent; [exact Hg | | ]; apply grid_at; try assumption; lia.
Qed.

(** On grid points the curve passes through every control point. *)
Lemma evaluate_grid_knot (g : Z) (ps : list vec2) (k : nat) :
  (-124 <= g <= 104)%Z ->
  powf f1 f3 = f1 -> powf f1 f2 = f1 ->
  (2 <= length ps)%nat -> (Z.of_nat (length ps) <= 16777217)%Z ->
  (k < length ps)%nat -> Forall (on_grid g) ps ->
  evaluate (build ps) (knot k) = at_ origin ps k.
Proof.
  intros Hg Hp3 Hp2 Hlo Hhi Hk Hall.
  destruct k as [ | k].
  - rewrite evaluate_at_first_knot by exact Hlo.
    unfold segment. rewrite build_cps, !build_knot by lia.
    change (segment_v0 (build ps) 0) with origin.
    change (knot (0 + 1)) with f1. rewrite knot_0.
    apply (Hermite_grid_start g); try assumption.
    + apply grid_at; [exact Hall | lia].
    + apply grid_at; [exact Hall | simpl; lia].
    + apply grid_segment_v1; try assumption; lia.
  - rewrite evaluate_at_later_knot by (unfold knot_max; lia).
    unfold segment. rewrite build_cps.
    replace (S k - 1)%nat with k by lia.
    replace (k + 1)%nat with (S k) by lia.
    rewrite !build_knot by lia.
    apply (Hermite_grid_end g); try assumption.
    + pose proof (knot_diff (S k) ltac:(lia)
                    ltac:(unfold knot_max; lia)) as Hd.
      replace (S k - 1)%nat with k in Hd by lia. exact Hd.
    + apply grid_at; [exact Hall | lia].
    + apply grid_at; [exact Hall | lia].
    + apply grid_segment_v0; try assumption; lia.
    + apply grid_segment_v1; try assumption; lia.
Qed.

(** C4, as the code has it.  On a spline of 2 to 16777217 control points
    that lie on a binary grid (both coordinates of every point are
    multiples [a * 2^g] of one power of two with [|a| <= 2^19]; integer
    coordinates up to 524288 are the case [g = 0]), and with a [powf]
    that returns 1 for the base 1, [evaluate] at the parameter of the
    control point of index [k] returns exactly that control point: every
    operation of [Hermite] is exact there.  For arbitrary control points
    [evaluate] returns Horner's scheme on the coefficients of the segment
    the scan stops at: the first segment, at [s = 0], for [k = 0], and
    the segment that ends at the point, at [s = 1], for [k >= 1].  For
    [k = 0] the value is the first control point (the two zeros
    identified) when [a2] and [a3] are finite.  For [k >= 1] it is the
    binary32 sum [a3 + a2 + a1 + a0] when the partial sums are binary32
    values. *)
Theorem C4_knot_values (ps : list vec2) (k : nat) (g : Z) :
  (2 <= length ps)%nat ->
  (Z.of_nat (length ps) <= 16777217)%Z ->
  (k < length ps)%nat ->
  (powf f1 f3 = f1 -> powf f1 f2 = f1 ->
   (-124 <= g <= 104)%Z -> Forall (on_grid g) ps ->
     evaluate (build ps) (at_ f0 (getKnots (build ps)) k)
     = at_ origin (cps_ (build ps)) k) /\
  (k = 0%nat ->
     evaluate (build ps) (at_ f0 (getKnots (build ps)) k)
       = horner (segment_a3 (build ps) 0) (segment_a2 (build ps) 0)
                (segment_v0 (build ps) 0) (at_ origin (cps_ (build ps)) 0)
                f0 /\
     (finite_vec2 (segment_a2 (build ps) 0) = true ->
      finite_vec2 (segment_a3 (build ps) 0) = true ->
        same_vec2 (evaluate (build ps) (at_ f0 (getKnots (build ps)) k))
                  (at_ origin (cps_ (build ps)) k))) /\
  ((1 <= k)%nat ->
     evaluate (build ps) (at_ f0 (getKnots (build ps)) k)
       = horner (segment_a3 (build ps) (k - 1)) (segment_a2 (build ps) (k - 1))
                (segment_v0 (build ps) (k - 1))
                (at_ origin (cps_ (build ps)) (k - 1)) f1 /\
     (valid_vec2 (segment_a3 (build ps) (k - 1)) = true ->
      valid_vec2 (segment_a3 (build ps) (k - 1)
                  + segment_a2 (build ps) (k - 1))%v2 = true ->
      valid_vec2 (segment_a3 (build ps) (k - 1)
                  + segment_a2 (build ps) (k - 1)
                  + segment_v0 (build ps) (k - 1))%v2 = true ->
        evaluate (build ps) (at_ f0 (getKnots (build ps)) k)
          = (segment_a3 (build ps) (k - 1) + segment_a2 (build ps) (k - 1)
             + segment_v0 (build ps) (k - 1)
             + at_ origin (cps_ (build ps)) (k - 1))%v2)).
Proof.
  intros Hlo Hhi Hk. unfold getKnots. rewrite build_knot by exact Hk.
  split.
  { intros Hp3 Hp2 Hg Hall. rewrite build_cps.
    now apply (evaluate_grid_knot g). }
  split.
  - intros ->. rewrite evaluate_at_first_knot by exact Hlo.
    assert (Hs : segment (build ps) 0 (knot 0)
                 = horner (segment_a3 (build ps) 0) (segment_a2 (build ps) 0)
                          (segment_v0 (build ps) 0)
                          (at_ origin (cps_ (build ps)) 0) f0).
    { rewrite segment_horner. rewrite !build_knot by lia.
      change (knot (0 + 1)) with f1. rewrite knot_0, f0_div_f1. reflexivity. }
    split; [exact Hs | ].
    intros Ha2 Ha3. rewrite knot_0.
    apply segment_at_start; try assumption.
    + rewrite build_knot by lia. reflexivity.
    + rewrite build_knot by lia. reflexivity.
  - intro Hk1.
    rewrite evaluate_at_later_knot by (unfold knot_max; lia).
    assert (Hs : segment (build ps) (k - 1) (knot k)
                 = horner (segment_a3 (build ps) (k - 1))
                          (segment_a2 (build ps) (k - 1))
                          (segment_v0 (build ps) (k - 1))
                          (at_ origin (cps_ (build ps)) (k - 1)) f1).
    { rewrite segment_horner. rewrite !build_knot by lia.
      replace (k - 1 + 1)%nat with k by lia.
      rewrite knot_diff by (unfold knot_max; lia).
      rewrite f1_div_f1. reflexivity. }
    split; [exact Hs | ].
    intros H3 H2 H1. rewrite Hs. now apply horner_one.
Qed.

End Interpolation.

(** * The statements on the sample tracks

    Each lemma below applies one of the theorems above to a sample track,
    with the reference [powf], or evaluates the code there. *)

Ltac by_eval := vm_compute; reflexivity.

(** C1 on the two-point track at [t = -1], below the first knot: the
    value is the last control point (1, 1), not the first one (0, 0). *)
Lemma C1_below_first_knot :
  (2 <= length ps_two)%nat /\
  F32.ltb (F32.of_Z (-1)) (hd f0 (getKnots sp_two)) = true /\
  evaluate sp_two (F32.of_Z (-1)) = vz 1 1 /\
  at_ origin (cps_ sp_two) 0 = vz 0 0 /\
  at_ origin (cps_ sp_two) 1 = vz 1 1.
Proof.
  assert (H1 : (2 <= length ps_two)%nat) by (vm_compute; lia).
  assert (H2 : F32.ltb (F32.of_Z (-1)) (hd f0 (getKnots sp_two)) = true)
    by by_eval.
  split; [exact H1 | ]. split; [exact H2 | ].
  split; [ | split; by_eval].
  unfold sp_two.
  rewrite (C1_outside_returns_last ps_two (F32.of_Z (-1)) H1 (or_introl H2)).
  by_eval.
Defined.

(** C2 fails at the end of the vertical drop.  After two clicks, the
    space bar and 99 frames the gondola is Started, the tangent guard
    does not fire and the total force is exactly zero; the next step
    carries the arc parameter past the last knot and ends in Fallen: at
    zero force the gondola does not always stay in its phase. *)
Lemma C2_zero_force_at_track_end :
  run drop_ride (emptySpline, newGondola) = Some (sp_drop, drop_end) /\
  state_ drop_end = Started /\
  F32.ltb (stepTangentLength sp_drop drop_end) EPSILON = false /\
  F32.eqb (stepTotalForce sp_drop drop_end) f0 = true /\
  exists g',
    animate sp_drop f0_01 drop_end = Done g' /\
    state_ g' = Fallen /\
    F32.gtb (progressAlongSpline_ g') (back f0 (getKnots sp_drop)) = true.
Proof.
  split; [by_eval | ]. split; [by_eval | ]. split; [by_eval | ].
  split; [by_eval | ].
  eexists. split; [by_eval | ]. split; by_eval.
Qed.

(** C2, as the code has it: on the descent to the left the first step
    finds a negative force and ends in Fallen with arc parameter,
    position and heading as they were; on the vertical drop it finds a
    force of zero, advances the arc parameter and stays Started. *)
Lemma C2_on_two_tracks :
  (exists g',
     animate sp_back f0_01 (started sp_back) = Done g' /\
     F32.ltb (stepTotalForce sp_back (started sp_back)) f0 = true /\
     state_ g' = Fallen /\
     progressAlongSpline_ g' = progressAlongSpline_ (started sp_back) /\
     position_ g' = position_ (started sp_back) /\
     rotationAngle_ g' = rotationAngle_ (started sp_back)) /\
  (exists g',
     animate sp_drop f0_01 (started sp_drop) = Done g' /\
     F32.eqb (stepTotalForce sp_drop (started sp_drop)) f0 = true /\
     state_ g' = Started /\
     progressAlongSpline_ g'
     = (progressAlongSpline_ (started sp_drop)
        + (velocity_ g' * f0_01) / stepTangentLength sp_drop (started sp_drop))%f32 /\
     F32.gtb (progressAlongSpline_ g') (progressAlongSpline_ (started sp_drop))
     = true).
Proof.
  assert (B1 : wf_spline sp_back) by by_eval.
  assert (B2 : state_ (started sp_back) = Started) by by_eval.
  assert (B3 : F32.ltb (stepTangentLength sp_back (started sp_back)) EPSILON
               = false) by by_eval.
  assert (B4 : F32.ltb (stepTotalForce sp_back (started sp_back)) f0 = true)
    by by_eval.
  assert (D1 : wf_spline sp_drop) by by_eval.
  assert (D2 : state_ (started sp_drop) = Started) by by_eval.
  assert (D3 : F32.ltb (stepTangentLength sp_drop (started sp_drop)) EPSILON
               = false) by by_eval.
  assert (D4 : F32.eqb (stepTotalForce sp_drop (started sp_drop)) f0 = true)
    by by_eval.
  split.
  - destruct (C2_departure sp_back f0_01 (started sp_back) B1 B2 B3)
      as (g' & Hdone & _ & _ & _ & _ & _ & Hneg & _).
    destruct (Hneg B4) as (Hs & Hp & Hq & Hr).
    exists g'.
    split; [exact Hdone | ]. split; [exact B4 | ]. split; [exact Hs | ].
    split; [exact Hp | ]. split; [exact Hq | exact Hr].
  - destruct (C2_departure sp_drop f0_01 (started sp_drop) D1 D2 D3)
      as (g' & Hdone & _ & _ & _ & _ & _ & _ & Hupd & Hzero).
    destruct (Hupd (Hzero D4)) as (Hp & _ & _ & Hs).
    exists g'.
    split; [exact Hdone | ]. split; [exact D4 | ].
    assert (Hg' : g' = stepped sp_drop).
    { unfold stepped. rewrite Hdone. reflexivity. }
    split; [rewrite Hg'; by_eval | ]. split; [exact Hp | ].
    rewrite Hg'. by_eval.
Defined.

(** C3 fails on the descent: after one step the stored world position
    belongs to the old arc parameter, and a step of duration zero moves
    it.  It fails on the climb as well: the speed is NaN there, and the
    step of duration zero turns arc parameter and heading into NaN. *)
Lemma C3_zero_step_moves :
  (state_ (stepped sp_descent) = Started /\
   exists g',
     animate sp_descent f0 (stepped sp_descent) = Done g' /\
     position_ g' <> position_ (stepped sp_descent)) /\
  (state_ (started sp_ascent) = Started /\
   exists g',
     animate sp_ascent f0 (started sp_ascent) = Done g' /\
     progressAlongSpline_ (started sp_ascent) = f0_01 /\
     progressAlongSpline_ g' = S754_nan /\
     rotationAngle_ (started sp_ascent) = f0 /\
     rotationAngle_ g' = S754_nan).
Proof.
  split; (split; [by_eval | ]); eexists; (split; [by_eval | ]).
  - vm_compute. discriminate.
  - repeat split; by_eval.
Qed.

(** C3, as the code has it, on the descent after one step. *)
Lemma C3_on_descent :
  wf_spline sp_descent /\
  state_ (stepped sp_descent) = Started /\
  exists g',
    animate sp_descent f0 (stepped sp_descent) = Done g' /\
    position_ g' = stepWorldPosition sp_descent (stepped sp_descent) /\
    same_float (progressAlongSpline_ g')
               (progressAlongSpline_ (stepped sp_descent)) /\
    same_float (rotationAngle_ g') (rotationAngle_ (stepped sp_descent)).
Proof.
  assert (H1 : wf_spline sp_descent) by by_eval.
  assert (H2 : state_ (stepped sp_descent) = Started) by by_eval.
  repeat (split; [assumption | ]).
  destruct (C3_zero_step sp_descent false (stepped sp_descent) H1 H2)
    as (g' & Hdone & _ & Hrun).
  exists g'. split; [exact Hdone | ].
  destruct Hrun as (Hpos & Hsame & _); [by_eval | by_eval | ].
  split; [exact Hpos | ].
  apply Hsame; by_eval.
Defined.

(** C4 fails with a second control point at (0.1, 0): at its parameter
    1.0 the cubic evaluates to 13421774 * 2^-27, one unit in the last
    place above the stored 0.1f = 13421773 * 2^-27. *)
Lemma C4_rounding_at_knot :
  at_ f0 (getKnots sp_tenth) 1 = f1 /\
  at_ origin (cps_ sp_tenth) 1 = Vec2 (S754_finite false 13421773 (-27)) f0 /\
  evaluate sp_tenth f1 = Vec2 (S754_finite false 13421774 (-27)) f0 /\
  evaluate sp_tenth (at_ f0 (getKnots sp_tenth) 1)
    <> at_ origin (cps_ sp_tenth) 1 /\
  F32.eqb (x (evaluate sp_tenth (at_ f0 (getKnots sp_tenth) 1)))
          (x (at_ origin (cps_ sp_tenth) 1)) = false.
Proof.
  repeat split; try by_eval.
  vm_compute. discriminate.
Qed.

(** C4, as the code has it, on the valley, whose control points have
    integer coordinates: the curve passes through the last point and
    through the first, and the values are those of Horner's scheme. *)
Lemma C4_on_valley :
  (2 <= length ps_valley)%nat /\
  (Z.of_nat (length ps_valley) <= 16777217)%Z /\
  Forall (on_grid 0) ps_valley /\
  evaluate sp_valley (at_ f0 (getKnots sp_valley) 2) = vz 10 10 /\
  evaluate sp_valley (at_ f0 (getKnots sp_valley) 0) = vz 0 10 /\
  evaluate sp_valley (at_ f0 (getKnots sp_valley) 2)
    = (segment_a3 sp_valley 1 + segment_a2 sp_valley 1
       + segment_v0 sp_valley 1 + at_ origin (cps_ sp_valley) 1)%v2 /\
  finite_vec2 (segment_a2 sp_valley 0) = true /\
  finite_vec2 (segment_a3 sp_valley 0) = true /\
  same_vec2 (evaluate sp_valley (at_ f0 (getKnots sp_valley) 0))
            (at_ origin (cps_ sp_valley) 0).
Proof.
  assert (H1 : (2 <= length ps_valley)%nat) by (vm_compute; lia).
  assert (H2 : (Z.of_nat (length ps_valley) <= 16777217)%Z)
    by (vm_compute; discriminate).
  assert (H3 : finite_vec2 (segment_a2 sp_valley 0) = true) by by_eval.
  assert (H4 : finite_vec2 (segment_a3 sp_valley 0) = true) by by_eval.
  assert (H5 : powf f1 f3 = f1) by by_eval.
  assert (H6 : powf f1 f2 = f1) by by_eval.
  assert (H7 : (-124 <= 0 <= 104)%Z) by lia.
  assert (H8 : Forall (on_grid 0) ps_valley).
  { constructor; [exists 0%Z, 10%Z | ]; [split; [reflexivity | lia] | ].
    constructor; [exists 5%Z, 0%Z | ]; [split; [reflexivity | lia] | ].
    constructor; [exists 10%Z, 10%Z | ]; [split; [reflexivity | lia] | ].
    constructor. }
  assert (Hk2 : (2 < length ps_valley)%nat) by (vm_compute; lia).
  assert (Hk0 : (0 < length ps_valley)%nat) by (vm_compute; lia).
  destruct (C4_knot_values ps_valley 2 0 H1 H2 Hk2) as (Hgrid2 & _ & Hlater).
  destruct (C4_knot_values ps_valley 0 0 H1 H2 Hk0) as (Hgrid0 & Hfirst & _).
  split; [exact H1 | ]. split; [exact H2 | ]. split; [exact H8 | ].
  split; [exact (Hgrid2 H5 H6 H7 H8) | ].
  split; [exact (Hgrid0 H5 H6 H7 H8) | ].
  split; [ | split; [exact H3 | split; [exact H4 | ]]].
  - destruct (Hlater ltac:(lia)) as [_ Hsum].
    apply Hsum; by_eval.
  - destruct (Hfirst eq_refl) as [_ Hsame].
    exact (Hsame H3 H4).
Defined.

(** C5 fails on the climb: the current height is above the reference
    height, the radicand is negative and the stored speed is NaN, which
    is not at least zero. *)
Lemma C5_speed_nan_on_climb :
  state_ (started sp_ascent) = Started /\
  F32.ltb (stepInitialHeight sp_ascent (started sp_ascent))
          (stepCurrentHeight sp_ascent (started sp_ascent)) = true /\
  exists g',
    animate sp_ascent f0_01 (started sp_ascent) = Done g' /\
    state_ g' = Started /\
    velocity_ g' = S754_nan /\
    F32.leb f0 (velocity_ g') = false.
Proof.
  split; [by_eval | ]. split; [by_eval | ].
  eexists. split; [by_eval | ]. repeat split; by_eval.
Qed.

(** C5, as the code has it, on the climb and on the descent. *)
Lemma C5_on_tracks :
  velocity_ (started sp_ascent) = f0 /\
  (state_ (started sp_ascent) = Started /\
   F32.ltb (stepTangentLength sp_ascent (started sp_ascent)) EPSILON = false /\
   animate sp_ascent f0_01 (started sp_ascent) = Done (stepped sp_ascent) /\
   F32.ltb (stepRadicand sp_ascent (started sp_ascent)) f0 = true /\
   velocity_ (stepped sp_ascent) = S754_nan) /\
  (nonneg_or_nan (velocity_ (started sp_descent)) /\
   animate sp_descent f0_01 (started sp_descent) = Done (stepped sp_descent) /\
   nonneg_or_nan (velocity_ (stepped sp_descent))).
Proof.
  split; [ | split].
  - destruct (C5_speed sp_ascent f0_01 newGondola newGondola)
      as (_ & Hstart & _).
    apply Hstart. by_eval.
  - assert (H1 : state_ (started sp_ascent) = Started) by by_eval.
    assert (H2 : F32.ltb (stepTangentLength sp_ascent (started sp_ascent))
                         EPSILON = false) by by_eval.
    assert (H3 : animate sp_ascent f0_01 (started sp_ascent)
                 = Done (stepped sp_ascent)) by by_eval.
    assert (H4 : F32.ltb (stepRadicand sp_ascent (started sp_ascent)) f0
                 = true) by by_eval.
    repeat (split; [assumption | ]).
    destruct (C5_speed sp_ascent f0_01 (started sp_ascent) (stepped sp_ascent))
      as (_ & _ & _ & Hstep).
    destruct (Hstep H1 H2 H3) as (_ & _ & Hnan).
    destruct (Hnan H4) as [Hv _]. exact Hv.
  - assert (H1 : nonneg_or_nan (velocity_ (started sp_descent)))
      by (right; by_eval).
    assert (H2 : animate sp_descent f0_01 (started sp_descent)
                 = Done (stepped sp_descent)) by by_eval.
    split; [exact H1 | ]. split; [exact H2 | ].
    destruct (C5_speed sp_descent f0_01 (started sp_descent)
                       (stepped sp_descent)) as (_ & _ & Hinv & _).
    destruct (Hinv H1) as [_ Hstep]. exact (Hstep H2).
Defined.

(** C6 on a gondola that has fallen. *)
Lemma C6_on_fallen :
  state_ fallen = Fallen /\
  start sp_descent fallen = fallen /\
  animate sp_descent f0_01 fallen = Done fallen /\
  exists sp',
    run [Start; Animate f0_01; AddPoint (vz 1 1); Animate f0_01; Start]
        (sp_descent, fallen) = Some (sp', fallen).
Proof.
  destruct (C6_phase_monotone sp_descent fallen f0_01
              [Start; Animate f0_01; AddPoint (vz 1 1); Animate f0_01; Start])
    as (Hstart & Hanim & Hrun).
  split; [reflexivity | ].
  split; [apply Hstart; vm_compute; discriminate | ].
  split; [apply Hanim; vm_compute; discriminate | ].
  apply Hrun. reflexivity.
Defined.

(** C7 fails once 2^24 is reached: the 16777217th control point gets the
    parameter 16777216, and so does the 16777218th, because 16777216 + 1
    rounds back to 16777216. *)
Lemma C7_knots_saturate :
  back f0 (getKnots (click_n 16777217 origin)) = F32.of_Z 16777216 /\
  back f0 (getKnots (addControlPoint origin (click_n 16777217 origin)))
    = F32.of_Z 16777216 /\
  F32.ltb (F32.of_Z 16777216) (F32.of_Z 16777216) = false.
Proof.
  split; [ | split; [ | by_eval]].
  - unfold getKnots. change 16777217%N with (N.succ 16777216).
    destruct (click_n_last_knot 16777216 origin) as [_ ->]. reflexivity.
  - unfold getKnots.
    assert (Hsucc : addControlPoint origin (click_n 16777217 origin)
                    = click_n (N.succ 16777217) origin)
      by (unfold click_n; now rewrite N.iter_succ).
    rewrite Hsucc.
    destruct (click_n_last_knot 16777217 origin) as [_ ->]. reflexivity.
Qed.

(** C7, as the code has it, on the valley. *)
Lemma C7_on_valley :
  (Z.of_nat (length ps_valley) <= 16777217)%Z /\
  getKnots sp_valley = [F32.of_Z 0; F32.of_Z 1; F32.of_Z 2] /\
  F32.ltb (at_ f0 (getKnots sp_valley) 0) (at_ f0 (getKnots sp_valley) 2)
    = true /\
  back f0 (getKnots sp_valley) = F32.of_Z 2.
Proof.
  assert (H : (Z.of_nat (length ps_valley) <= 16777217)%Z)
    by (vm_compute; discriminate).
  split; [exact H | ].
  destruct (C7_knots ps_valley origin H) as (Hts & _ & Hlt & Hends).
  split; [exact Hts | ]. split.
  - apply Hlt. vm_compute. lia.
  - destruct Hends as [_ Hback]; [discriminate | exact Hback].
Defined.

(** C8 fails on the level track: the step passes the tangent guard and
    the force check, [dt] is positive, the speed is zero and the arc
    parameter stays where it was. *)
Lemma C8_no_advance_on_level :
  state_ (started sp_level) = Started /\
  F32.ltb (stepTangentLength sp_level (started sp_level)) EPSILON = false /\
  F32.ltb (stepTotalForce sp_level (started sp_level)) f0 = false /\
  F32.ltb f0 f0_01 = true /\
  exists g',
    animate sp_level f0_01 (started sp_level) = Done g' /\
    state_ g' = Started /\
    progressAlongSpline_ g' = progressAlongSpline_ (started sp_level) /\
    F32.gtb (progressAlongSpline_ g')
            (progressAlongSpline_ (started sp_level)) = false.
Proof.
  repeat (split; [by_eval | ]).
  eexists. split; [by_eval | ]. repeat split; by_eval.
Qed.

(** C8, as the code has it, on the level track and on the descent. *)
Lemma C8_on_tracks :
  (Forall dt_ok [AddPoint (vz 0 0); AddPoint (vz 10 0); Start] /\
   run [AddPoint (vz 0 0); AddPoint (vz 10 0); Start]
       (emptySpline, newGondola) = Some (sp_level, started sp_level) /\
   F32.ltb f0 f0_01 = true /\
   F32.eqb (stepVelocity sp_level (started sp_level)) f0 = true /\
   exists g',
     animate sp_level f0_01 (started sp_level) = Done g' /\
     same_float (progressAlongSpline_ g')
                (progressAlongSpline_ (started sp_level)) /\
     F32.gtb (progressAlongSpline_ g')
             (progressAlongSpline_ (started sp_level)) = false) /\
  (Forall dt_ok [AddPoint (vz 0 10); AddPoint (vz 10 0); Start; Animate f0_01] /\
   run [AddPoint (vz 0 10); AddPoint (vz 10 0); Start; Animate f0_01]
       (emptySpline, newGondola) = Some (sp_descent, stepped sp_descent) /\
   exists g',
     animate sp_descent f0_01 (stepped sp_descent) = Done g' /\
     (F32.is_nan (progressAlongSpline_ g') = true \/
      F32.leb (progressAlongSpline_ (stepped sp_descent))
              (progressAlongSpline_ g') = true)).
Proof.
  assert (Hdt : F32.ltb f0 f0_01 = true) by by_eval.
  assert (Hdt' : nonneg_or_nan f0_01) by (right; by_eval).
  split.
  - assert (H1 : Forall dt_ok [AddPoint (vz 0 0); AddPoint (vz 10 0); Start])
      by (repeat constructor).
    assert (H2 : run [AddPoint (vz 0 0); AddPoint (vz 10 0); Start]
                     (emptySpline, newGondola)
                 = Some (sp_level, started sp_level)) by by_eval.
    assert (H3 : F32.eqb (stepVelocity sp_level (started sp_level)) f0 = true)
      by by_eval.
    split; [exact H1 | ]. split; [exact H2 | ]. split; [exact Hdt | ].
    split; [exact H3 | ].
    assert (H4 : state_ (started sp_level) = Started) by by_eval.
    assert (H5 : F32.ltb (stepTangentLength sp_level (started sp_level))
                         EPSILON = false) by by_eval.
    assert (H6 : F32.ltb (stepTotalForce sp_level (started sp_level)) f0
                 = false) by by_eval.
    assert (H7 : F32.is_finite f0_01 = true) by by_eval.
    destruct (C8_advance [AddPoint (vz 0 0); AddPoint (vz 10 0); Start]
                         sp_level f0_01 (started sp_level)
                         H1 H2 H4 H5 H6 Hdt)
      as (g' & Hdone & _ & _ & Hzero).
    exists g'. split; [exact Hdone | ]. exact (Hzero H3 H7).
  - assert (H1 : Forall dt_ok [AddPoint (vz 0 10); AddPoint (vz 10 0); Start;
                               Animate f0_01])
      by (repeat (apply Forall_cons; [exact I | ]);
          apply Forall_cons; [exact Hdt' | apply Forall_nil]).
    assert (H2 : run [AddPoint (vz 0 10); AddPoint (vz 10 0); Start;
                      Animate f0_01] (emptySpline, newGondola)
                 = Some (sp_descent, stepped sp_descent)) by by_eval.
    split; [exact H1 | ]. split; [exact H2 | ].
    assert (H4 : state_ (stepped sp_descent) = Started) by by_eval.
    assert (H5 : F32.ltb (stepTangentLength sp_descent (stepped sp_descent))
                         EPSILON = false) by by_eval.
    assert (H6 : F32.ltb (stepTotalForce sp_descent (stepped sp_descent)) f0
                 = false) by by_eval.
    destruct (C8_advance [AddPoint (vz 0 10); AddPoint (vz 10 0); Start;
                          Animate f0_01]
                         sp_descent f0_01 (stepped sp_descent)
                         H1 H2 H4 H5 H6 Hdt)
      as (g' & Hdone & _ & Hmono & _).
    exists g'. split; assumption.
Defined.

(** C9 on the descent: the same calls from two states that differ in the
    stored energy only. *)
Lemma C9_on_descent :
  agree_but_energy (started sp_descent) (with_energy f0 (started sp_descent)) /\
  energy_ (started sp_descent) <> energy_ (with_energy f0 (started sp_descent)) /\
  agree_worlds
    (run [Animate f0_01; AddPoint (vz 20 5); Animate f0_01; Start]
         (sp_descent, started sp_descent))
    (run [Animate f0_01; AddPoint (vz 20 5); Animate f0_01; Start]
         (sp_descent, with_energy f0 (started sp_descent))).
Proof.
  assert (H : agree_but_energy (started sp_descent)
                               (with_energy f0 (started sp_descent)))
    by (unfold agree_but_energy, with_energy;
        cbn [progressAlongSpline_ velocity_ position_ rotationAngle_ state_];
        repeat split).
  split; [exact H | ]. split; [vm_compute; discriminate | ].
  exact (C9_energy_never_read
           [Animate f0_01; AddPoint (vz 20 5); Animate f0_01; Start]
           sp_descent (started sp_descent)
           (with_energy f0 (started sp_descent)) H).
Defined.

(** C10 on the one-point track. *)
Lemma C10_on_one_point :
  (length (cps_ sp_one) < 2)%nat /\
  state_ newGondola = Waiting /\
  state_ (start sp_one newGondola) = Started /\
  animate sp_one f0_01 (started sp_one) = Done (started sp_one) /\
  run (map Animate [f0_01; f0; f1]) (sp_one, started sp_one)
    = Some (sp_one, started sp_one) /\
  animate sp_descent f0_01 (started sp_descent) <> Undefined.
Proof.
  assert (H1 : (length (cps_ sp_one) < 2)%nat) by (vm_compute; lia).
  assert (H2 : state_ newGondola = Waiting) by reflexivity.
  split; [exact H1 | ]. split; [exact H2 | ].
  split; [ | split; [ | split]].
  - destruct (C10_short_spline sp_one newGondola [] f0_01) as [Hshort _].
    destruct (Hshort H1) as [Hstart _]. exact (Hstart H2).
  - destruct (C10_short_spline sp_one (started sp_one) [] f0_01)
      as [Hshort _].
    destruct (Hshort H1) as (_ & _ & Hstep & _). exact Hstep.
  - destruct (C10_short_spline sp_one (started sp_one) [f0_01; f0; f1] f0_01)
      as [Hshort _].
    destruct (Hshort H1) as (_ & _ & _ & Hrun). exact Hrun.
  - destruct (C10_short_spline sp_descent (started sp_descent) [] f0_01)
      as (_ & _ & Hdef).
    apply Hdef. by_eval.
Defined.

(** ** The further statements on the sample tracks *)

(** X2 on the ride down the descent. *)
Lemma X2_on_ride :
  run ride (emptySpline, newGondola) = Some (sp_descent, stepped sp_descent) /\
  In Start ride /\
  state_ (stepped sp_descent) <> Waiting /\
  run (ride ++ [Start]) (emptySpline, newGondola)
  = Some (sp_descent, stepped sp_descent).
Proof.
  assert (H1 : run ride (emptySpline, newGondola)
               = Some (sp_descent, stepped sp_descent)) by by_eval.
  assert (H2 : In Start ride)
    by (unfold ride; cbn [In]; right; right; left; reflexivity).
  split; [exact H1 | ]. split; [exact H2 | ].
  destruct (X2_start_acts_once ride sp_descent (stepped sp_descent) H1)
    as [_ H].
  exact (H H2).
Defined.

(** X3 on the descent: the same calls from two states that differ in the
    stored speed, energy and world position. *)
Lemma X3_on_descent :
  agree_on_motion (started sp_descent) (repainted (started sp_descent)) /\
  velocity_ (started sp_descent) <> velocity_ (repainted (started sp_descent)) /\
  agree_motion_worlds
    (run [Animate f0_01; AddPoint (vz 20 5); Animate f0_01; Start]
         (sp_descent, started sp_descent))
    (run [Animate f0_01; AddPoint (vz 20 5); Animate f0_01; Start]
         (sp_descent, repainted (started sp_descent))).
Proof.
  assert (H : agree_on_motion (started sp_descent)
                              (repainted (started sp_descent))).
  { unfold agree_on_motion, repainted.
    cbn [progressAlongSpline_ rotationAngle_ state_].
    repeat split; reflexivity. }
  split; [exact H | ]. split; [vm_compute; discriminate | ].
  exact (proj1 (X3_speed_and_position_never_read
                  [Animate f0_01; AddPoint (vz 20 5); Animate f0_01; Start]
                  sp_descent f0_01 (started sp_descent)
                  (repainted (started sp_descent)) H)).
Defined.

(** X4 on the valley. *)
Lemma X4_on_valley :
  (2 <= length (cps_ sp_valley))%nat /\
  finite_vec2 (back origin (cps_ sp_valley)) = true /\
  evaluate sp_valley S754_nan = back origin (cps_ sp_valley) /\
  derivative sp_valley S754_nan = origin.
Proof.
  assert (H1 : (2 <= length (cps_ sp_valley))%nat) by (vm_compute; lia).
  assert (H2 : finite_vec2 (back origin (cps_ sp_valley)) = true) by by_eval.
  split; [exact H1 | ]. split; [exact H2 | ].
  destruct (X4_evaluate_nan sp_valley H1) as [He Hd].
  split; [exact He | exact (Hd H2)].
Defined.

(** X5 on the climb: the first step stores NaN, and two more steps leave
    the gondola as it is. *)
Lemma X5_on_climb :
  wf_spline sp_ascent /\
  state_ (started sp_ascent) = Started /\
  F32.ltb (stepTangentLength sp_ascent (started sp_ascent)) EPSILON = false /\
  F32.is_nan (stepVelocity sp_ascent (started sp_ascent)) = true /\
  finite_vec2 (back origin (cps_ sp_ascent)) = true /\
  exists g',
    animate sp_ascent f0_01 (started sp_ascent) = Done g' /\
    state_ g' = Started /\
    progressAlongSpline_ g' = S754_nan /\
    run (map Animate [f0_01; f0_01]) (sp_ascent, g') = Some (sp_ascent, g').
Proof.
  assert (H1 : wf_spline sp_ascent) by by_eval.
  assert (H2 : state_ (started sp_ascent) = Started) by by_eval.
  assert (H3 : F32.ltb (stepTangentLength sp_ascent (started sp_ascent))
                       EPSILON = false) by by_eval.
  assert (H4 : F32.is_nan (stepVelocity sp_ascent (started sp_ascent)) = true)
    by by_eval.
  assert (H5 : finite_vec2 (back origin (cps_ sp_ascent)) = true) by by_eval.
  split; [exact H1 | ]. split; [exact H2 | ]. split; [exact H3 | ].
  split; [exact H4 | ]. split; [exact H5 | ].
  destruct (X5_nan_speed_freezes sp_ascent f0_01 (started sp_ascent)
              [f0_01; f0_01] H1 H2 H3 H4)
    as (g' & Hdone & Hst & _ & Hp & _ & Hrun).
  exists g'. split; [exact Hdone | ]. split; [exact Hst | ].
  split; [exact Hp | exact (Hrun H5)].
Defined.

(** X6 on a single point. *)
Lemma X6_on_one_point :
  (length (cps_ sp_one) < 2)%nat /\
  state_ newGondola = Waiting /\
  start sp_one newGondola = MkGondola f0_01 f0 f0_5 nan_vec2 f0 Started.
Proof.
  assert (H1 : (length (cps_ sp_one) < 2)%nat) by (vm_compute; lia).
  assert (H2 : state_ newGondola = Waiting) by reflexivity.
  split; [exact H1 | ]. split; [exact H2 | ].
  exact (X6_start_on_short_spline sp_one newGondola H1 H2).
Defined.

(** X7 on the ride down the descent. *)
Lemma X7_on_ride :
  run ride (emptySpline, newGondola) = Some (sp_descent, stepped sp_descent) /\
  state_ (stepped sp_descent) = Started /\
  (2 <= length (cps_ sp_descent))%nat /\
  Forall dt_ok ride /\
  F32.gtb (progressAlongSpline_ (stepped sp_descent))
          (back f0 (getKnots sp_descent)) = false /\
  (F32.is_nan (progressAlongSpline_ (stepped sp_descent)) = true \/
   F32.leb f0_01 (progressAlongSpline_ (stepped sp_descent)) = true).
Proof.
  assert (H1 : run ride (emptySpline, newGondola)
               = Some (sp_descent, stepped sp_descent)) by by_eval.
  assert (H2 : state_ (stepped sp_descent) = Started) by by_eval.
  assert (H3 : (2 <= length (cps_ sp_descent))%nat) by (vm_compute; lia).
  assert (Hdt : nonneg_or_nan f0_01) by (right; by_eval).
  assert (H4 : Forall dt_ok ride)
    by (unfold ride; repeat (apply Forall_cons; [exact I | ]);
        apply Forall_cons; [exact Hdt | apply Forall_nil]).
  split; [exact H1 | ]. split; [exact H2 | ]. split; [exact H3 | ].
  split; [exact H4 | ].
  destruct (X7_started_gondola_on_track ride sp_descent (stepped sp_descent)
              H1 H2) as [Hup Hlow].
  split; [exact (Hup H3) | exact (Hlow H4)].
Defined.

(** X8 on the valley, at the parameter 1.5. *)
Lemma X8_on_valley :
  (2 < length ps_valley)%nat /\
  F32.ltb (knot 1) (F32.lit 3 2) = true /\
  F32.leb (F32.lit 3 2) (knot 2) = true /\
  evaluate sp_valley (F32.lit 3 2) = segment sp_valley 1 (F32.lit 3 2).
Proof.
  assert (H1 : (2 < length ps_valley)%nat) by (vm_compute; lia).
  assert (H2 : F32.ltb (knot 1) (F32.lit 3 2) = true) by by_eval.
  assert (H3 : F32.leb (F32.lit 3 2) (knot 2) = true) by by_eval.
  split; [exact H1 | ]. split; [exact H2 | ]. split; [exact H3 | ].
  exact (proj1 (X8_evaluate_between_knots ps_valley 1 (F32.lit 3 2) H1
                  (or_introl H2) H3)).
Defined.

(** X9 on the descent, at the first step. *)
Lemma X9_on_descent :
  Forall step_ok launch /\
  run launch (emptySpline, newGondola) = Some (sp_descent, started sp_descent) /\
  state_ (started sp_descent) = Started /\
  F32.ltb (stepTangentLength sp_descent (started sp_descent)) EPSILON = false /\
  F32.ltb (stepTotalForce sp_descent (started sp_descent)) f0 = false /\
  nonneg_or_nan f0_01 /\ F32.valid f0_01 = true /\
  exists g',
    animate sp_descent f0_01 (started sp_descent) = Done g' /\
    (F32.is_nan (rotationAngle_ g') = true \/
     F32.leb (rotationAngle_ g') (rotationAngle_ (started sp_descent)) = true).
Proof.
  assert (H1 : Forall step_ok launch)
    by (unfold launch; repeat (apply Forall_cons; [exact I | ]);
        apply Forall_nil).
  assert (H2 : run launch (emptySpline, newGondola)
               = Some (sp_descent, started sp_descent)) by by_eval.
  assert (H3 : state_ (started sp_descent) = Started) by by_eval.
  assert (H4 : F32.ltb (stepTangentLength sp_descent (started sp_descent))
                       EPSILON = false) by by_eval.
  assert (H5 : F32.ltb (stepTotalForce sp_descent (started sp_descent)) f0
               = false) by by_eval.
  assert (H6 : nonneg_or_nan f0_01) by (right; by_eval).
  assert (H7 : F32.valid f0_01 = true) by by_eval.
  split; [exact H1 | ]. split; [exact H2 | ]. split; [exact H3 | ].
  split; [exact H4 | ]. split; [exact H5 | ]. split; [exact H6 | ].
  split; [exact H7 | ].
  destruct (X9_heading_never_increases launch sp_descent f0_01
              (started sp_descent) H1 H2 H3 H4 H5 H6 H7)
    as (_ & g' & Hdone & _ & _ & Hmono).
  exists g'. split; [exact Hdone | exact Hmono].
Defined.

(** X10 on a frame of 0.025 s that starts at time zero: the loop ends
    within five rounds. *)
Lemma X10_on_first_frame :
  time_ok f0 /\ F32.valid (F32.lit 25 1000) = true /\
  Forall duration_ok (MyApp.durations 5 f0 (F32.lit 25 1000)) /\
  length (MyApp.durations 5 f0 (F32.lit 25 1000)) = 3%nat /\
  exists g',
    MyApp.onTimeElapsed 5 sp_descent f0 (F32.lit 25 1000) (started sp_descent)
    = Some (Done g') /\
    run (map Animate (MyApp.durations 5 f0 (F32.lit 25 1000)))
        (sp_descent, started sp_descent) = Some (sp_descent, g').
Proof.
  assert (H1 : time_ok f0) by (left; exists false; reflexivity).
  assert (H2 : F32.valid (F32.lit 25 1000) = true) by by_eval.
  split; [exact H1 | ]. split; [exact H2 | ].
  destruct (X10_onTimeElapsed_durations 5 sp_descent f0 (F32.lit 25 1000)
              (started sp_descent) H1 H2) as (Hd & _ & Hrun).
  split; [exact Hd | ]. split; [by_eval | ].
  assert (E : exists g',
             MyApp.onTimeElapsed 5 sp_descent f0 (F32.lit 25 1000)
               (started sp_descent) = Some (Done g'))
    by (vm_compute; eexists; reflexivity).
  destruct E as [g' E]. exists g'. split; [exact E | exact (Hrun g' E)].
Defined.

(** X11 after 262144 s: the counter stands still. *)
Lemma X11_after_three_days :
  wf_spline sp_descent /\
  (F32.of_Z 262144 + MyApp.dt)%f32 = F32.of_Z 262144 /\
  F32.ltb (F32.of_Z 262144) (F32.of_Z 262145) = true /\
  MyApp.onTimeElapsed 100 sp_descent (F32.of_Z 262144) (F32.of_Z 262145)
    (started sp_descent) = None.
Proof.
  assert (H1 : wf_spline sp_descent) by by_eval.
  assert (H2 : (F32.of_Z 262144 + MyApp.dt)%f32 = F32.of_Z 262144) by by_eval.
  assert (H3 : F32.ltb (F32.of_Z 262144) (F32.of_Z 262145) = true) by by_eval.
  split; [exact H1 | ]. split; [exact H2 | ]. split; [exact H3 | ].
  exact (X11_onTimeElapsed_never_returns sp_descent (F32.of_Z 262144)
           (F32.of_Z 262145) (started sp_descent) 100 H1 H2 H3).
Defined.

(** X12 on four points. *)
Lemma X12_on_four_points :
  (0 + 2 < length (ps_valley ++ [vz 20 5]))%nat /\
  (Z.of_nat (length (ps_valley ++ [vz 20 5])) <= knot_max)%Z /\
  segment_v1 (build (ps_valley ++ [vz 20 5])) 0
  = segment_v0 (build (ps_valley ++ [vz 20 5])) 1 /\
  segment_v1 (build (ps_valley ++ [vz 20 5])) 0
  = ((vz 10 10 - vz 0 10) /: f2)%v2.
Proof.
  assert (H1 : (0 + 2 < length (ps_valley ++ [vz 20 5]))%nat)
    by (vm_compute; lia).
  assert (H2 : (Z.of_nat (length (ps_valley ++ [vz 20 5])) <= knot_max)%Z)
    by (vm_compute; discriminate).
  split; [exact H1 | ]. split; [exact H2 | ].
  destruct (X12_tangents (ps_valley ++ [vz 20 5]) 0 H1 H2)
    as (Hc & Hh & _ & _).
  split; [exact Hc | exact Hh].
Defined.

(** X13 on the valley: the vertex in the middle of the curve. *)
Lemma X13_on_valley :
  (2 <= length ps_valley)%nat /\
  (Z.of_nat (length ps_valley - 1) * 100 < 16777216)%Z /\
  length (curveGeometry_ (update sp_valley)) = 101%nat /\
  at_ origin (curveGeometry_ (update sp_valley)) 50
  = evaluate sp_valley (F32.lit (Z.of_nat (length ps_valley - 1) * 50) 100) /\
  at_ origin (curveGeometry_ (update sp_valley)) 100
  = evaluate sp_valley (knot (length ps_valley - 1)).
Proof.
  assert (H1 : (2 <= length ps_valley)%nat) by (vm_compute; lia).
  assert (H2 : (Z.of_nat (length ps_valley - 1) * 100 < 16777216)%Z)
    by (vm_compute; reflexivity).
  assert (H3 : (50 <= 100)%nat) by lia.
  split; [exact H1 | ]. split; [exact H2 | ].
  destruct (X13_update_samples ps_valley 50) as [_ H].
  destruct (H H1 H2 H3) as (_ & Hn & Hi & _ & Hlast).
  split; [exact Hn | ]. split; [exact Hi | exact Hlast].
Defined.

(** X14 on the valley: a fourth point leaves the first segment as it
    was. *)
Lemma X14_on_valley :
  (0 + 2 < length ps_valley)%nat /\
  F32.leb (knot 0) f0_5 = true /\
  F32.leb f0_5 (knot 1) = true /\
  evaluate (build (ps_valley ++ [vz 20 5])) f0_5 = evaluate sp_valley f0_5.
Proof.
  assert (H1 : (0 + 2 < length ps_valley)%nat) by (vm_compute; lia).
  assert (H2 : F32.leb (knot 0) f0_5 = true) by by_eval.
  assert (H3 : F32.leb f0_5 (knot 1) = true) by by_eval.
  split; [exact H1 | ]. split; [exact H2 | ]. split; [exact H3 | ].
  exact (X14_click_keeps_earlier_segments ps_valley (vz 20 5) 0 f0_5 H1
           (or_intror (conj eq_refl H2)) H3).
Defined.

(** X15 on the valley, at the parameter 1.5. *)
Lemma X15_on_valley :
  wf_spline sp_valley /\
  fst (evaluate_traced sp_valley (F32.lit 3 2))
  = evaluate sp_valley (F32.lit 3 2) /\
  snd (evaluate_traced sp_valley (F32.lit 3 2))
  = [0; 1; 1; 2; 2; 0; 1; 2]%nat /\
  Forall (fun j => (j < length (cps_ sp_valley))%nat /\
                   (j < length (ts_ sp_valley))%nat)
         (snd (evaluate_traced sp_valley (F32.lit 3 2))).
Proof.
  assert (H1 : wf_spline sp_valley) by by_eval.
  split; [exact H1 | ].
  destruct (X15_evaluate_reads_in_range sp_valley (F32.lit 3 2) H1)
    as [Hv Hr].
  split; [exact Hv | ]. split; [by_eval | exact Hr].
Defined.

(** X16 on the descent, after one step. *)
Lemma X16_on_descent :
  F32.valid (stepInitialHeight sp_descent (stepped sp_descent)
             - stepCurrentHeight sp_descent (stepped sp_descent))%f32 = true /\
  F32.leb two_pow_m97
          (SFabs (stepInitialHeight sp_descent (stepped sp_descent)
                  - stepCurrentHeight sp_descent (stepped sp_descent))%f32)
  = true /\
  stepRadicand sp_descent (stepped sp_descent)
  = (GRAVITY * (stepInitialHeight sp_descent (stepped sp_descent)
                - stepCurrentHeight sp_descent (stepped sp_descent)))%f32.
Proof.
  assert (H1 : F32.valid
                 (stepInitialHeight sp_descent (stepped sp_descent)
                  - stepCurrentHeight sp_descent (stepped sp_descent))%f32
               = true) by by_eval.
  assert (H2 : F32.leb two_pow_m97
                 (SFabs (stepInitialHeight sp_descent (stepped sp_descent)
                         - stepCurrentHeight sp_descent
                             (stepped sp_descent))%f32) = true) by by_eval.
  assert (H3 : F32.ltb
                 (SFabs (GRAVITY
                         * (stepInitialHeight sp_descent (stepped sp_descent)
                            - stepCurrentHeight sp_descent
                                (stepped sp_descent)))%f32)
                 two_pow_127 = true) by by_eval.
  split; [exact H1 | ]. split; [exact H2 | ].
  exact (proj1 (X16_radicand sp_descent (stepped sp_descent) H1
                  (or_intror H2) H3)).
Defined.

(** X17 on the segment from (0, 10) to (5, 0) over the parameters 0
    to 1, with the end tangent (5, 0). *)
Lemma X17_on_a_segment :
  same_vec2 (Hermite (vz 0 10) origin f0 (vz 5 0) (vz 5 0) f1 f0) (vz 0 10) /\
  Hermite (vz 0 10) origin f0 (vz 5 0) (vz 5 0) f1 f1
  = (Hermite_a3 (vz 0 10) origin f0 (vz 5 0) (vz 5 0) f1
     + Hermite_a2 (vz 0 10) origin f0 (vz 5 0) (vz 5 0) f1
     + origin + vz 0 10)%v2.
Proof.
  assert (H1 : F32.is_finite f0 = true) by reflexivity.
  assert (H2 : F32.is_nan (f1 - f0)%f32 = false) by by_eval.
  assert (H3 : F32.eqb (f1 - f0)%f32 f0 = false) by by_eval.
  assert (H4 : finite_vec2
                 (Hermite_a3 (vz 0 10) origin f0 (vz 5 0) (vz 5 0) f1) = true)
    by by_eval.
  assert (H5 : finite_vec2
                 (Hermite_a2 (vz 0 10) origin f0 (vz 5 0) (vz 5 0) f1) = true)
    by by_eval.
  assert (H6 : finite_vec2 origin = true) by reflexivity.
  assert (H7 : F32.is_finite (f1 - f0)%f32 = true) by by_eval.
  assert (H8 : valid_vec2
                 (Hermite_a3 (vz 0 10) origin f0 (vz 5 0) (vz 5 0) f1) = true)
    by by_eval.
  assert (H9 : valid_vec2
                 (Hermite_a2 (vz 0 10) origin f0 (vz 5 0) (vz 5 0) f1) = true)
    by by_eval.
  assert (H10 : valid_vec2 origin = true) by reflexivity.
  destruct (X17_Hermite_ends (vz 0 10) origin (vz 5 0) (vz 5 0) f0 f1)
    as [Hstart Hend].
  split; [exact (Hstart H1 H2 H3 H4 H5 H6) | exact (Hend H7 H3 H8 H9 H10)].
Defined.
